(** * The Cyberiada Ursula game engine log analyzer: a shallow embedding

    This development embeds the C library [ursulalogcheck.c] (the task
    model, the lexical helpers, the condition evaluator, the satisfaction
    matrix and the log state machine of
    [cyberiada_ursula_log_checker_check_log]) and states the properties of
    the specification against it.  The keyword tables, the first loop of
    the task loader and [generate_code] are embedded after the log checker,
    with the properties of the code that the second part proves.

    Conventions of the embedding.
    - A C string is a [string]; a [char*] that may be [NULL] is an
      [option string].  The idiom [d = strchr(s, c); d[0] = 0; ...; s = d + 1]
      becomes a split of the string into the token before the first [c] and
      the rest after it.
    - The log file is the list of its lines, each one read by [getline] and
      terminated by a line feed, which the reader strips.
    - [float] values and the operations the program applies to them are
      the fields of the class [FloatOps]; nothing below depends on how they
      round.  [Exact] is an instance with exact arithmetic, used to run the
      model on concrete logs.
    - [unsigned char] counters are [Z] with the wrap-around written out.
    - Undefined behaviour of the C program that a log or a task can reach is
      an outcome of its own, [Undefined]. *)

From Stdlib Require Import ZArith QArith Ascii String Bool Lia DecimalString.
From stdpp Require Import base list.

Local Open Scope string_scope.
Local Open Scope Z_scope.
Local Open Scope nat_scope.

(** ** The base constants *)

Definition MAX_CONDITIONS : nat := 7.
Definition MAX_STR_LEN : nat := 4096.

Definition SO_DELIMITER : ascii := "|".
Definition COORD_START_CHAR : ascii := "(".
Definition COORD_DELIMITER : ascii := ",".
Definition COORD_FINISH_CHAR : ascii := ")".
Definition TIME_START_CHAR : ascii := "[".
Definition TIME_FINISH_CHAR : ascii := "]".
Definition POSITION_LOG_DELIMITER : ascii := ";".
Definition ATTACK_LOG_DELIMITER : ascii := " ".

Definition LOG_PLAYER_START_POSITION : string := "Player Start Position".
Definition LOG_SCENE_OBJECT_HEADER : string :=
  "ID | Name | Object ID | Type | Position | HP | Damage".
Definition LOG_HLINE : string := "---".
Definition LOG_MOB : string := "mob".
Definition LOG_INT_OBJECT : string := "interactive_object".
Definition LOG_POSITION : string := "position:".
Definition LOG_PLAYER : string := "Player".
Definition LOG_ATTACK : string := "attack ".
Definition LOG_ATTACKED : string := "attacked ".
Definition LOG_DIED : string := "died".
Definition LOG_GAME_OVER : string := "Game Over: ".
Definition LOG_WIN : string := "Win".
Definition LOG_SESSION_ENDED : string := "Session ended".

(** The library result and error codes of the header. *)

Definition URSULA_CHECK_RESULT_ERROR : Z := 0.
Definition URSULA_CHECK_RESULT_VALID_FLAGS : Z := 127.
Definition URSULA_CHECK_NO_ERROR : Z := 0.
Definition URSULA_CHECK_BAD_PARAMETERS : Z := 1.
Definition URSULA_CHECK_FORMAT_ERROR : Z := 2.

(** ** C strings *)

Module CStr.

(** [strchr s c], together with the [d[0] = 0] and [s = d + 1] that follow
    it everywhere in the program: the token before the first [c] and the
    text after it; [None] when [strchr] returns [NULL]. *)
Fixpoint strchr (s : string) (c : ascii) : option (string * string) :=
  match s with
  | EmptyString => None
  | String a s' =>
      if Ascii.eqb a c then Some (EmptyString, s')
      else match strchr s' c with
           | Some (tok, rest) => Some (String a tok, rest)
           | None => None
           end
  end.

(** [strstr(s, p) == s]. *)
Definition starts_with (p s : string) : bool := String.prefix p s.

(** [strstr(s, p) != NULL]. *)
Fixpoint contains (p s : string) : bool :=
  String.prefix p s ||
  match s with
  | EmptyString => false
  | String _ s' => contains p s'
  end.

(** [s += strlen(p)]. *)
Fixpoint advance (n : nat) (s : string) : string :=
  match n, s with
  | S n', String _ s' => advance n' s'
  | _, _ => s
  end.

(** The loop [while (s[0] && p(s[0])) s++]. *)
Fixpoint skip_while (p : ascii -> bool) (s : string) : string :=
  match s with
  | String a s' => if p a then skip_while p s' else s
  | EmptyString => EmptyString
  end.

(** The characters of [s] without its longest suffix of [p] characters. *)
Fixpoint drop_tail (p : ascii -> bool) (s : string) : string :=
  match s with
  | EmptyString => EmptyString
  | String a s' =>
      match drop_tail p s' with
      | EmptyString => if p a then EmptyString else String a EmptyString
      | t => String a t
      end
  end.

(** [d = end - 1; while (d > s && p(d[0])) { d[0] = 0; d--; }]: the trailing
    [p] characters are cut, the first character of [s] always stays. *)
Definition trim_tail (p : ascii -> bool) (s : string) : string :=
  match s with
  | EmptyString => EmptyString
  | String a s' => String a (drop_tail p s')
  end.

(** [strcmp]: zero exactly on equal strings; undefined ([None]) when an
    argument is [NULL]. *)
Definition strcmp (a b : option string) : option Z :=
  match a, b with
  | Some x, Some y =>
      Some (match String.compare x y with
            | Eq => 0 | Lt => -1 | Gt => 1
            end)%Z
  | _, _ => None
  end.

(** [copy_string]: at most [MAX_STR_LEN - 1] characters are kept. *)
Fixpoint take (n : nat) (s : string) : string :=
  match n, s with
  | S n', String a s' => String a (take n' s')
  | _, _ => EmptyString
  end.

Definition copy_string (source : option string) : option string :=
  match source with
  | None => None
  | Some s => Some (take (MAX_STR_LEN - 1) s)
  end.

Definition is_empty (s : string) : bool :=
  match s with EmptyString => true | _ => false end.

Definition blank (a : ascii) : bool :=
  Ascii.eqb a " " || Ascii.eqb a "009".

End CStr.

(** ** Floating point numbers *)

(** The [float] type of the program and what the program does with it:
    [atof] (with the conversion to [float]), the literals [0.0] and [DELTA],
    the arithmetic inside the [DIST] macro and the comparisons. *)
Class FloatOps := {
  float : Type;
  atof : string -> float;
  float_zero : float;
  DELTA : float;
  fsub : float -> float -> float;
  fmul : float -> float -> float;
  fadd : float -> float -> float;
  fsqrt : float -> float;
  fle : float -> float -> bool;
  flt : float -> float -> bool;
  feq : float -> float -> bool
}.

(** Errors of the helpers: a value or an error code. *)
Inductive result (A : Type) : Type :=
| Ok (a : A)
| Error (code : Z).
Arguments Ok {A} a.
Arguments Error {A} code.

(** ** The internal structures *)

Inductive ObjectType : Type :=
| otPlayer
| otMob
| otIntObject
| otStatic.

Definition ObjectType_eqb (a b : ObjectType) : bool :=
  match a, b with
  | otPlayer, otPlayer | otMob, otMob
  | otIntObject, otIntObject | otStatic, otStatic => true
  | _, _ => false
  end.

Inductive ConditionType : Type :=
| condObjectProximity
| condObjectApproaching
| condObjectRetiring
| condObjectMoving
| condGameWon
| condAttacked
| condDamaged
| condDestroyed.

Definition ConditionType_eqb (a b : ConditionType) : bool :=
  match a, b with
  | condObjectProximity, condObjectProximity
  | condObjectApproaching, condObjectApproaching
  | condObjectRetiring, condObjectRetiring
  | condObjectMoving, condObjectMoving
  | condGameWon, condGameWon
  | condAttacked, condAttacked
  | condDamaged, condDamaged
  | condDestroyed, condDestroyed => true
  | _, _ => false
  end.

(** [ObjectReq]; the three counters are [unsigned char]. *)
Record ObjectReq : Type := mkObjectReq {
  req_type : ObjectType;
  req_class : option string;
  minimum : Z;
  limit : Z;
  found : Z
}.

Section Structures.
Context `{FloatOps}.

Record Point : Type := mkPoint {
  x : float;
  y : float
}.

Record Object : Type := mkObject {
  type : ObjectType;
  class : option string;
  id : option string;
  pos : Point;
  prev_pos : Point;
  hp : float;
  damage : float;
  pos_predefined : bool;
  valid : bool
}.

Inductive Condition : Type := mkCondition {
  n : Z;
  cond_type : ConditionType;
  primary_obj_type : ObjectType;
  primary_obj_class : option string;
  secondary_obj_type : ObjectType;
  secondary_obj_class : option string;
  argument : float;
  second_cond : option Condition
}.

(** The arrays of a task are lists; their [..._count] fields are the
    lengths.  The [next] pointer is the tail of the list of tasks. *)
Record UrsulaCheckerTask : Type := mkTask {
  name : string;
  base_objects : list Object;
  object_reqs : list ObjectReq;
  conditions : list Condition
}.

Record UrsulaLogCheckerData : Type := mkChecker {
  secret : option string;
  tasks : list UrsulaCheckerTask
}.

(** ** Math functions *)

(** The macro [DIST(p1,p2)]. *)
Definition DIST (p1 p2 : Point) : float :=
  fsqrt (fadd (fmul (fsub (x p1) (x p2)) (fsub (x p1) (x p2)))
              (fmul (fsub (y p1) (y p2)) (fsub (y p1) (y p2)))).

(** ** Lexical helpers *)

Definition coord_lead (a : ascii) : bool :=
  Ascii.eqb a " " || Ascii.eqb a "009" || Ascii.eqb a COORD_START_CHAR.

Definition coord_trail (a : ascii) : bool :=
  Ascii.eqb a " " || Ascii.eqb a "009" || Ascii.eqb a COORD_FINISH_CHAR.

(** [parse_coordinates]; its arguments are never [NULL] in this program. *)
Definition parse_coordinates (s : string) : result Point :=
  let s := CStr.skip_while coord_lead s in
  let s := CStr.trim_tail coord_trail s in
  match CStr.strchr s COORD_DELIMITER with
  | None => Error URSULA_CHECK_FORMAT_ERROR
  | Some (sx, sy) => Ok (mkPoint (atof sx) (atof sy))
  end.

End Structures.

(** [cond_matrix]: [MAX_CONDITIONS] rows of [objects_count] cells, each 0
    or 1. *)
Abbreviation Matrix := (list (list bool)).

(** ** The condition evaluator *)

Section Evaluator.
Context `{FloatOps}.

(** The C truth value of [strcmp(a, b) == 0].  In the evaluator the
    comparison is guarded by [type != otPlayer]; the objects of the other
    types always carry a class (see [parse_object_row]), and so do the
    conditions of a loaded task, hence the [NULL] case is not reached
    there. *)
Definition strcmp_eq0 (a b : option string) : bool :=
  match CStr.strcmp a b with
  | Some z => Z.eqb z 0
  | None => false
  end.

(** The C truth value of a bare [strcmp(a, b)]. *)
Definition strcmp_nonzero (a b : option string) : bool :=
  match CStr.strcmp a b with
  | Some z => negb (Z.eqb z 0)
  | None => false
  end.

(** The object filter of the proximity, approaching, retiring and attacked
    conditions:
    [o->type == t && (o->type == otPlayer ||
                      (o->type != otPlayer && strcmp(o->class, c) == 0))]. *)
Definition filter_strcmp_eq0 (o : Object) (t : ObjectType)
    (c : option string) : bool :=
  ObjectType_eqb (type o) t &&
  (ObjectType_eqb (type o) otPlayer ||
   (negb (ObjectType_eqb (type o) otPlayer) && strcmp_eq0 (class o) c)).

(** The object filter of the moving, damaged and destroyed conditions:
    [o->type == t && (o->type == otPlayer ||
                      (o->type != otPlayer && strcmp(o->class, c)))]. *)
Definition filter_strcmp (o : Object) (t : ObjectType)
    (c : option string) : bool :=
  ObjectType_eqb (type o) t &&
  (ObjectType_eqb (type o) otPlayer ||
   (negb (ObjectType_eqb (type o) otPlayer) && strcmp_nonzero (class o) c)).

(** [for (j = 0; j < objects_count && !found; j++)
       { if (i == j) continue; secondary = objects + j; ... }] *)
Fixpoint inner_loop (body : Object -> bool) (i : nat)
    (objects : list Object) (j : nat) : bool :=
  match objects with
  | [] => false
  | secondary :: rest =>
      (if Nat.eqb i j then false else body secondary)
      || inner_loop body i rest (S j)
  end.

(** [for (i = 0; i < objects_count && !found; i++)
       { primary = objects + i; *primary_index = i; ... }]
    The result is [found] and the value left in [*primary_index]. *)
Fixpoint outer_loop (body : nat -> Object -> bool)
    (objects : list Object) (i : nat) (primary_index : nat) : bool * nat :=
  match objects with
  | [] => (false, primary_index)
  | primary :: rest =>
      if body i primary then (true, i) else outer_loop body rest (S i) i
  end.

(** The chain of tests on [cond->type] of [cyberiada_test_condition]: the
    value of [found] after it and the value left in [*primary_index].  An
    early [return 0] leaves [found] false. *)
Definition condition_found (cond : Condition) (objects : list Object)
    (primary : option Object) (primary_index : nat)
    (secondary : option Object) (argument_ : float) (won : bool)
    : bool * nat :=
  let pairs (rel : Object -> Object -> bool) :=
    outer_loop
      (fun i primary =>
         inner_loop
           (fun secondary =>
              filter_strcmp_eq0 primary (primary_obj_type cond)
                (primary_obj_class cond) &&
              filter_strcmp_eq0 secondary (secondary_obj_type cond)
                (secondary_obj_class cond) &&
              rel primary secondary)
           i objects 0)
      objects 0 primary_index in
  match cond_type cond with
  | condObjectProximity =>
      pairs (fun p s => fle (DIST (pos p) (pos s)) (argument cond))
  | condObjectMoving =>
      outer_loop
        (fun _ primary =>
           filter_strcmp primary (primary_obj_type cond)
             (primary_obj_class cond) &&
           flt float_zero (DIST (pos primary) (prev_pos primary)))
        objects 0 primary_index
  | condObjectApproaching =>
      pairs (fun p s =>
               flt (DIST (pos p) (pos s)) (DIST (prev_pos p) (prev_pos s)))
  | condObjectRetiring =>
      pairs (fun p s =>
               flt (DIST (prev_pos p) (prev_pos s)) (DIST (pos p) (pos s)))
  | condAttacked =>
      match primary, secondary with
      | Some primary, Some secondary =>
          (filter_strcmp_eq0 primary (primary_obj_type cond)
             (primary_obj_class cond) &&
           filter_strcmp_eq0 secondary (secondary_obj_type cond)
             (secondary_obj_class cond) &&
           fle argument_ (argument cond), primary_index)
      | _, _ => (false, primary_index)
      end
  | condDamaged =>
      match primary with
      | Some primary =>
          (filter_strcmp primary (primary_obj_type cond)
             (primary_obj_class cond) &&
           fle argument_ (argument cond), primary_index)
      | None => (false, primary_index)
      end
  | condDestroyed =>
      match primary with
      | Some primary =>
          (filter_strcmp primary (primary_obj_type cond)
             (primary_obj_class cond), primary_index)
      | None => (false, primary_index)
      end
  | condGameWon => (won, primary_index)
  end.

(** [cyberiada_test_condition].  [primary_index] is passed by address: the
    second component of the result is the value it holds on return. *)
Fixpoint cyberiada_test_condition (cond : Condition) (objects : list Object)
    (primary : option Object) (primary_index : nat)
    (secondary : option Object) (argument_ : float) (won : bool)
    {struct cond} : bool * nat :=
  let '(found_, primary_index) :=
    condition_found cond objects primary primary_index secondary argument_
      won in
  if found_ then
    match second_cond cond with
    | Some second =>
        cyberiada_test_condition second objects None primary_index None
          float_zero false
    | None => (true, primary_index)
    end
  else (false, primary_index).

(** ** The satisfaction matrix *)

(** [cond_matrix[i][k]]. *)
Definition cell (cond_matrix : Matrix) (i k : nat) : bool :=
  match cond_matrix !! i with
  | Some row => default false (row !! k)
  | None => false
  end.

(** [cond_matrix[i][k] = 1]. *)
Definition set_cell (cond_matrix : Matrix) (i k : nat) : Matrix :=
  alter (fun row => <[k := true]> row) i cond_matrix.

(** [for (j = i + 1; j < conditions_count; j++)
       if (cond_matrix[j][k]) { found = 1; break; }] *)
Definition later_found (cond_matrix : Matrix) (conditions_count i k : nat)
    : bool :=
  existsb (fun j => cell cond_matrix j k)
          (seq (S i) (conditions_count - S i)).

(** [if (!found) cond_matrix[i][k] = 1]. *)
Definition credit (cond_matrix : Matrix) (conditions_count i k : nat)
    : Matrix :=
  if later_found cond_matrix conditions_count i k then cond_matrix
  else set_cell cond_matrix i k.

(** The loop of a won game:
    [for (obj_index = 0; obj_index < objects_count; obj_index++)], each
    object being credited unless a later condition holds for it. *)
Definition credit_all (cond_matrix : Matrix)
    (conditions_count i objects_count : nat) : Matrix :=
  foldl (fun m obj_index => credit m conditions_count i obj_index)
        cond_matrix (seq 0 objects_count).

(** The body of the loop of [cyberiada_test_all_conditions] for the
    condition [cond] of index [i]. *)
Definition test_all_body (conditions_count : nat) (objects : list Object)
    (primary secondary : option Object) (argument_ : float) (won : bool)
    (i : nat) (cond : Condition) (st : Matrix * nat) : Matrix * nat :=
  let '(cond_matrix, primary_index) := st in
  let '(matched, primary_index) :=
    cyberiada_test_condition cond objects primary primary_index secondary
      argument_ won in
  if matched then
    match cond_type cond with
    | condGameWon =>
        (credit_all cond_matrix conditions_count i (length objects),
         primary_index)
    | _ => (credit cond_matrix conditions_count i primary_index,
            primary_index)
    end
  else (cond_matrix, primary_index).

Fixpoint test_all_loop (conditions_count : nat) (objects : list Object)
    (primary secondary : option Object) (argument_ : float) (won : bool)
    (conds : list Condition) (i : nat) (st : Matrix * nat) : Matrix * nat :=
  match conds with
  | [] => st
  | cond :: rest =>
      test_all_loop conditions_count objects primary secondary argument_ won
        rest (S i)
        (test_all_body conditions_count objects primary secondary argument_
           won i cond st)
  end.

(** [cyberiada_test_all_conditions]: the matrix after the call. *)
Definition cyberiada_test_all_conditions (task : UrsulaCheckerTask)
    (objects : list Object) (cond_matrix : Matrix)
    (primary : option Object) (primary_index : nat)
    (secondary : option Object) (argument_ : float) (won : bool) : Matrix :=
  fst (test_all_loop (length (conditions task)) objects primary secondary
         argument_ won (conditions task) 0 (cond_matrix, primary_index)).

End Evaluator.

(** ** The log checker: scene ingestion and validation *)

Section Scene.
Context `{FloatOps}.

(** The local variables of [cyberiada_ursula_log_checker_check_log] that
    live across the lines of the log.  [task] is the task found in the
    checker: its [valid] flags and [found] counters are written in place.
    [i] is the index of the next scene row while the rows are read; the
    loops that use it as a scratch index afterwards do not read it first. *)
Record Locals : Type := mkLocals {
  task : UrsulaCheckerTask;
  objects : option (list Object);
  objects_count : nat;
  cond_matrix : option Matrix;
  i : nat;
  state : ascii;
  player_pos : Point
}.

(** What one iteration of the [while (!feof(log))] loop ends with. *)
Inductive Control : Type :=
| Continue (st : Locals)
| Break (st : Locals)
| Rewind (st : Locals)        (* [fseek(log, 0, SEEK_SET)], then continue *)
| GotoErrorLog (st : Locals)  (* [goto error_log] *)
| Undefined.                  (* undefined behaviour of the C program *)

(** An element of the array after [memset(objects, 0, ...)]. *)
Definition zero_object : Object :=
  mkObject otPlayer None None (mkPoint float_zero float_zero)
    (mkPoint float_zero float_zero) float_zero float_zero false false.

(** One [SO_DELIMITER]-separated field of a scene row, trimmed:
    [d = strchr(s, SO_DELIMITER); d[0] = 0;
     while (s < d && blank) s++;
     d2 = d - 1; while (d2 > s && blank) { d2[0] = 0; d2--; }] *)
Definition so_field (s : string) : option (string * string) :=
  match CStr.strchr s SO_DELIMITER with
  | None => None
  | Some (tok, rest) =>
      Some (CStr.trim_tail CStr.blank (CStr.skip_while CStr.blank tok), rest)
  end.

(** The type column of a scene row. *)
Definition log_object_type (s : string) : ObjectType :=
  if String.eqb s LOG_MOB then otMob
  else if String.eqb s LOG_INT_OBJECT then otIntObject
  else otStatic.

(** The parse of a scene row [ID | Name | Object ID | Type | Position | HP |
    Damage] into the array element [o]; [None] is [goto error_log]. *)
Definition parse_object_row (buffer : string) (o : Object) : option Object :=
  '(f_id, s) ← so_field buffer;
  if CStr.is_empty f_id then None else
  '(f_class, s) ← so_field s;
  if CStr.is_empty f_class then None else
  '(_, s) ← so_field s;
  '(f_type, s) ← so_field s;
  '(f_pos, s) ← so_field s;
  match parse_coordinates f_pos with
  | Error _ => None
  | Ok p =>
      '(f_hp, s) ← so_field s;
      Some {| type := log_object_type f_type;
              class := CStr.copy_string (Some f_class);
              id := CStr.copy_string (Some f_id);
              pos := p;
              prev_pos := mkPoint (x p) (y p);
              hp := atof f_hp;
              damage := atof s;
              pos_predefined := true;
              valid := valid o |}
  end.

(** The synthesized player, written into the array element [o]:
    [objects[i].pos.x = objects[i].prev_pos.x = player_pos.x;
     objects[i].pos.y = objects[i].prev_pos.x = player_pos.y;] *)
Definition add_player (player_pos : Point) (o : Object) : Object :=
  let prev_pos_1 := mkPoint (x player_pos) (y (prev_pos o)) in
  let pos_1 := mkPoint (x player_pos) (y (pos o)) in
  let prev_pos_2 := mkPoint (y player_pos) (y prev_pos_1) in
  let pos_2 := mkPoint (x pos_1) (y player_pos) in
  {| type := otPlayer;
     class := None;
     id := None;
     pos := pos_2;
     prev_pos := prev_pos_2;
     hp := float_zero;
     damage := float_zero;
     pos_predefined := true;
     valid := valid o |}.

Definition nonempty (s : option string) : bool :=
  match s with
  | Some (String _ _) => true
  | _ => false
  end.

(** The five tests [types], [classes], [positions], [hps], [damages] of a
    base object [b] against the log object [o]. *)
Definition base_matches (b o : Object) : bool :=
  let types := ObjectType_eqb (type b) (type o) in
  let classes :=
    (nonempty (class o) && nonempty (class b) &&
     strcmp_eq0 (class b) (class o))
    || negb (nonempty (class b)) in
  let positions :=
    (pos_predefined b && fle (DIST (pos o) (pos b)) DELTA)
    || negb (pos_predefined b) in
  let hps :=
    (flt float_zero (hp b) && feq (hp b) (hp o)) || feq (hp b) float_zero in
  let damages :=
    (flt float_zero (damage b) && feq (damage b) (damage o))
    || feq (damage b) float_zero in
  types && classes && positions && hps && damages.

Definition set_valid (b : Object) : Object :=
  {| type := type b; class := class b; id := id b; pos := pos b;
     prev_pos := prev_pos b; hp := hp b; damage := damage b;
     pos_predefined := pos_predefined b; valid := true |}.

(** The loop over the base objects for the log object [o]. *)
Definition mark_base_objects (o : Object) (bases : list Object)
    : list Object :=
  map (fun b => if base_matches b o && negb (valid b) then set_valid b else b)
      bases.

(** [found++] on an [unsigned char]. *)
Definition incr_found (r : ObjectReq) : ObjectReq :=
  {| req_type := req_type r; req_class := req_class r;
     minimum := minimum r; limit := limit r;
     found := ((found r + 1) mod 256)%Z |}.

(** One requirement against the log object [o]:
    [if (req.type == o.type && strcmp(req.class, o.class) == 0) found++].
    [strcmp] is called only when the types agree; [None] when it is called
    on a [NULL] class. *)
Definition count_requirement (o : Object) (r : ObjectReq)
    : option ObjectReq :=
  if ObjectType_eqb (req_type r) (type o) then
    match CStr.strcmp (req_class r) (class o) with
    | None => None
    | Some z => Some (if Z.eqb z 0 then incr_found r else r)
    end
  else Some r.

Fixpoint count_requirements (o : Object) (reqs : list ObjectReq)
    : option (list ObjectReq) :=
  match reqs with
  | [] => Some []
  | r :: rest =>
      r' ← count_requirement o r;
      rest' ← count_requirements o rest;
      Some (r' :: rest')
  end.

(** The loop [for (i = 0; i < objects_count; i++)] over the log objects
    ("check objects"); [None] is undefined behaviour. *)
Fixpoint check_objects (objs : list Object) (bases : list Object)
    (reqs : list ObjectReq) : option (list Object * list ObjectReq) :=
  match objs with
  | [] => Some (bases, reqs)
  | o :: rest =>
      reqs' ← count_requirements o reqs;
      check_objects rest (mark_base_objects o bases) reqs'
  end.

Definition requirement_failed (r : ObjectReq) : bool :=
  Z.ltb (found r) (minimum r) || Z.ltb (limit r) (found r).

Definition set_task_checks (t : UrsulaCheckerTask) (bases : list Object)
    (reqs : list ObjectReq) : UrsulaCheckerTask :=
  {| name := name t; base_objects := bases; object_reqs := reqs;
     conditions := conditions t |}.

(** [memset] of the [MAX_CONDITIONS] rows of [objects_count] cells. *)
Definition zero_matrix (objects_count : nat) : Matrix :=
  replicate MAX_CONDITIONS (replicate objects_count false).

(** The [LOG_HLINE] that closes the rows on the second reading: the player
    is added, the scene is checked against the task, the matrix is
    allocated (the loop of the allocation leaves [i] at [MAX_CONDITIONS]).
    The marks and the counts stay in the task when the check fails. *)
Definition close_scene (st : Locals) (objs : list Object) : Control :=
  if negb (Nat.eqb (i st) (objects_count st - 1)) then GotoErrorLog st
  else
    match objs !! (i st) with
    | None => Undefined
    | Some slot =>
        let objs := <[i st := add_player (player_pos st) slot]> objs in
        match check_objects objs (base_objects (task st))
                (object_reqs (task st)) with
        | None => Undefined
        | Some (bases, reqs) =>
            let task' := set_task_checks (task st) bases reqs in
            let st' :=
              {| task := task'; objects := Some objs;
                 objects_count := objects_count st;
                 cond_matrix := cond_matrix st; i := i st;
                 state := state st; player_pos := player_pos st |} in
            if existsb (fun b => negb (valid b)) bases then GotoErrorLog st'
            else if existsb requirement_failed reqs then GotoErrorLog st'
            else
              Continue
                {| task := task'; objects := Some objs;
                   objects_count := objects_count st;
                   cond_matrix := Some (zero_matrix (objects_count st));
                   i := MAX_CONDITIONS;
                   state := "l"; player_pos := player_pos st |}
        end
    end.

(** A line read in the state ['o']. *)
Definition scene_step (st : Locals) (buffer : string) : Control :=
  match objects st with
  | None =>
      (* first reading: count the lines up to the [LOG_HLINE] *)
      let objects_count := S (objects_count st) in
      if CStr.starts_with LOG_HLINE buffer then
        Rewind {| task := task st;
                  objects := Some (replicate objects_count zero_object);
                  objects_count := objects_count;
                  cond_matrix := cond_matrix st; i := 0;
                  state := "s"; player_pos := player_pos st |}
      else
        Continue {| task := task st; objects := None;
                    objects_count := objects_count;
                    cond_matrix := cond_matrix st; i := i st;
                    state := state st; player_pos := player_pos st |}
  | Some objs =>
      if CStr.starts_with LOG_HLINE buffer then close_scene st objs
      else
        (* a row is parsed into [objects[i]] *)
        match objs !! (i st) with
        | None =>
            (* [objects + i] is past the end of the array *)
            match so_field buffer with
            | None => GotoErrorLog st
            | Some (f_id, _) =>
                if CStr.is_empty f_id then GotoErrorLog st else Undefined
            end
        | Some slot =>
            match parse_object_row buffer slot with
            | None => GotoErrorLog st
            | Some o =>
                Continue {| task := task st;
                            objects := Some (<[i st := o]> objs);
                            objects_count := objects_count st;
                            cond_matrix := cond_matrix st; i := S (i st);
                            state := state st; player_pos := player_pos st |}
            end
        end
  end.

End Scene.

(** ** The log checker: the event dispatcher *)

Section Events.
Context `{FloatOps}.

(** A search loop that stops at the first match ([break]). *)
Fixpoint find_first (p : Object -> bool) (objs : list Object) (k : nat)
    : option nat :=
  match objs with
  | [] => None
  | o :: rest => if p o then Some k else find_first p rest (S k)
  end.

(** A search loop without [break]: the last match stays. *)
Fixpoint find_last (p : Object -> bool) (objs : list Object) (k : nat)
    (acc : option nat) : option nat :=
  match objs with
  | [] => acc
  | o :: rest => find_last p rest (S k) (if p o then Some k else acc)
  end.

(** [(o.type == otPlayer && strcmp(LOG_PLAYER, s) == 0) ||
     (o.type != otPlayer && strcmp(o.id, s) == 0)] *)
Definition is_named (s : string) (o : Object) : bool :=
  (ObjectType_eqb (type o) otPlayer && strcmp_eq0 (Some LOG_PLAYER) (Some s))
  || (negb (ObjectType_eqb (type o) otPlayer) && strcmp_eq0 (id o) (Some s)).

(** The object a position entry names: the player when the token starts
    with [LOG_PLAYER], else the first other object with this id. *)
Definition position_object (tok : string) (objs : list Object)
    : option nat :=
  if CStr.starts_with LOG_PLAYER tok then
    find_first (fun o => ObjectType_eqb (type o) otPlayer) objs 0
  else
    find_first (fun o => negb (ObjectType_eqb (type o) otPlayer) &&
                         strcmp_eq0 (Some tok) (id o)) objs 0.

Definition move_object (o : Object) (p : Point) : Object :=
  {| type := type o; class := class o; id := id o;
     pos := p; prev_pos := mkPoint (x (pos o)) (y (pos o));
     hp := hp o; damage := damage o;
     pos_predefined := pos_predefined o; valid := valid o |}.

(** The text of the coordinates in an entry, [s] being what follows the
    name [tok]: for the player all of it, for another object what follows
    the word [position:]. *)
Definition coordinates_text (tok s : string) : option string :=
  if CStr.starts_with LOG_PLAYER tok then Some s
  else '(_, s) ← CStr.strchr s ATTACK_LOG_DELIMITER; Some s.

(** One entry [ID position: (x,y)] or [Player (x,y)] of a position line;
    [None] is [goto error_log]. *)
Definition position_entry (entry : string) (objs : list Object)
    : option (list Object) :=
  '(tok, s) ← CStr.strchr entry ATTACK_LOG_DELIMITER;
  k ← position_object tok objs;
  pos_object ← objs !! k;
  s ← coordinates_text tok s;
  match parse_coordinates s with
  | Error _ => None
  | Ok p => Some (<[k := move_object pos_object p]> objs)
  end.

(** The first entry of the text [s] of a position line, blanks skipped,
    and the text after its [POSITION_LOG_DELIMITER].  An entry that ends the
    line is followed by the two terminators of the buffer, the cut line feed
    and the one of [getline]: nothing is left after it. *)
Definition first_entry (s : string) : string * string :=
  let s := CStr.skip_while CStr.blank s in
  match CStr.strchr s POSITION_LOG_DELIMITER with
  | None => (s, EmptyString)
  | Some (entry, rest) => (entry, rest)
  end.

Inductive Entries : Type :=
| EntriesDone (objs : list Object)
| EntriesError
| EntriesFuel.

(** The loop [while (s[0])] over the entries of a position line.  The
    text left after an entry is shorter than before it, so
    [S (String.length s)] iterations are enough ([position_loop_fuel]). *)
Fixpoint position_loop (fuel : nat) (s : string) (objs : list Object)
    : Entries :=
  match fuel with
  | O => EntriesFuel
  | S fuel =>
      if CStr.is_empty s then EntriesDone objs
      else
        let '(entry, rest) := first_entry s in
        match position_entry entry objs with
        | None => EntriesError
        | Some objs => position_loop fuel rest objs
        end
  end.

(** [d2 = d - 1; if (d2[0] == ',') d2[0] = 0]: one trailing comma is cut. *)
Fixpoint cut_comma (tok : string) : string :=
  match tok with
  | EmptyString => EmptyString
  | String a EmptyString =>
      if Ascii.eqb a "," then EmptyString else String a EmptyString
  | String a rest => String a (cut_comma rest)
  end.

Definition attack_event (task : UrsulaCheckerTask) (objs : list Object)
    (m : Matrix) (s : string) : option Matrix :=
  let s := CStr.advance (String.length LOG_ATTACK) s in
  '(tok0, s) ← CStr.strchr s ATTACK_LOG_DELIMITER;
  attacker_index ← find_last (is_named tok0) objs 0 None;
  '(_, s) ← CStr.strchr s ATTACK_LOG_DELIMITER;
  '(tok2, s) ← CStr.strchr s ATTACK_LOG_DELIMITER;
  '(_, s) ← CStr.strchr s ATTACK_LOG_DELIMITER;
  '(_, s) ← CStr.strchr s ATTACK_LOG_DELIMITER;
  target_index ← find_last (is_named s) objs 0 None;
  Some (cyberiada_test_all_conditions task objs m
          (objs !! attacker_index) attacker_index (objs !! target_index)
          (atof tok2) false).

Definition attacked_event (task : UrsulaCheckerTask) (objs : list Object)
    (m : Matrix) (s : string) : option Matrix :=
  let s := CStr.advance (String.length LOG_ATTACKED) s in
  '(tok0, s) ← CStr.strchr s ATTACK_LOG_DELIMITER;
  target_index ← find_last (is_named (cut_comma tok0)) objs 0 None;
  '(_, s) ← CStr.strchr s ATTACK_LOG_DELIMITER;
  '(_, s) ← CStr.strchr s ATTACK_LOG_DELIMITER;
  '(tok3, s) ← CStr.strchr s ATTACK_LOG_DELIMITER;
  Some (cyberiada_test_all_conditions task objs m
          (objs !! target_index) target_index None
          (atof (cut_comma tok3)) false).

Definition died_event (task : UrsulaCheckerTask) (objs : list Object)
    (m : Matrix) (s : string) : option Matrix :=
  '(tok, _) ← CStr.strchr s ATTACK_LOG_DELIMITER;
  died_index ← find_last (is_named tok) objs 0 None;
  Some (cyberiada_test_all_conditions task objs m
          (objs !! died_index) died_index None float_zero false).

Definition set_scene (st : Locals) (objs : list Object) (m : Matrix)
    : Locals :=
  {| task := task st; objects := Some objs;
     objects_count := objects_count st; cond_matrix := Some m;
     i := i st; state := state st; player_pos := player_pos st |}.

(** The events read the array of objects and the matrix, which exist in
    the state ['l']. *)
Definition with_scene (st : Locals)
    (k : list Object -> Matrix -> Control) : Control :=
  match objects st, cond_matrix st with
  | Some objs, Some m => k objs m
  | _, _ => Undefined
  end.

Definition event_result (st : Locals) (objs : list Object)
    (r : option Matrix) : Control :=
  match r with
  | None => GotoErrorLog st
  | Some m => Continue (set_scene st objs m)
  end.

(** The event after the time section [[t]], blanks skipped.  The scratch
    uses of [i] by the search loops are not recorded: [i] is not read again
    in this state. *)
Definition dispatch_event (st : Locals) (s : string) : Control :=
  if CStr.contains LOG_POSITION s then
    with_scene st (fun objs m =>
      match position_loop (S (String.length s)) s objs with
      | EntriesDone objs =>
          Continue (set_scene st objs
            (cyberiada_test_all_conditions (task st) objs m
               None 0 None float_zero false))
      | EntriesError => GotoErrorLog st
      | EntriesFuel => Undefined
      end)
  else if CStr.starts_with LOG_ATTACK s then
    with_scene st (fun objs m =>
      event_result st objs (attack_event (task st) objs m s))
  else if CStr.starts_with LOG_ATTACKED s then
    with_scene st (fun objs m =>
      event_result st objs (attacked_event (task st) objs m s))
  else if CStr.contains LOG_DIED s then
    with_scene st (fun objs m =>
      event_result st objs (died_event (task st) objs m s))
  else if CStr.starts_with LOG_GAME_OVER s then
    let s := CStr.advance (String.length LOG_GAME_OVER) s in
    if negb (strcmp_eq0 (Some s) (Some LOG_WIN)) then Continue st
    else
      with_scene st (fun objs m =>
        Continue (set_scene st objs
          (cyberiada_test_all_conditions (task st) objs m
             None 0 None float_zero true)))
  else if CStr.starts_with LOG_SESSION_ENDED s then Break st
  else GotoErrorLog st.

(** A line read in the state ['l']. *)
Definition event_step (st : Locals) (buffer : string) : Control :=
  match buffer with
  | EmptyString => Continue st
  | String c s =>
      if negb (Ascii.eqb c TIME_START_CHAR) then Continue st
      else
        match CStr.strchr s TIME_FINISH_CHAR with
        | None => GotoErrorLog st
        | Some (_, s) => dispatch_event st (CStr.skip_while CStr.blank s)
        end
  end.

End Events.

(** ** The log checker: the main loop and the result *)

Section CheckLog.
Context `{FloatOps}.

Definition set_state (st : Locals) (c : ascii) : Locals :=
  {| task := task st; objects := objects st;
     objects_count := objects_count st; cond_matrix := cond_matrix st;
     i := i st; state := c; player_pos := player_pos st |}.

Definition set_player_pos (st : Locals) (p : Point) : Locals :=
  {| task := task st; objects := objects st;
     objects_count := objects_count st; cond_matrix := cond_matrix st;
     i := i st; state := "s"; player_pos := p |}.

(** The body of the loop [while (!feof(log))] for a line [buffer] whose
    line feed has been cut. *)
Definition log_step (st : Locals) (buffer : string) : Control :=
  if Ascii.eqb (state st) "p" then
    if CStr.starts_with LOG_PLAYER_START_POSITION buffer then
      let s := CStr.advance (String.length LOG_PLAYER_START_POSITION) buffer in
      match parse_coordinates s with
      | Error _ => GotoErrorLog st
      | Ok p => Continue (set_player_pos st p)
      end
    else Continue st
  else if Ascii.eqb (state st) "s" then
    if CStr.starts_with LOG_SCENE_OBJECT_HEADER buffer
    then Continue (set_state st "o")
    else Continue st
  else if Ascii.eqb (state st) "o" then scene_step st buffer
  else if Ascii.eqb (state st) "l" then event_step st buffer
  else GotoErrorLog st.

(** The loop over the lines that follow the file position.  [Continue] is
    the end of the file, [Break] the [break] of the session end. *)
Fixpoint read_lines (lines : list string) (st : Locals) : Control :=
  match lines with
  | [] => Continue st
  | buffer :: rest =>
      match log_step st buffer with
      | Continue st' => read_lines rest st'
      | c => c
      end
  end.

(** The whole loop: after the [fseek] the lines are read again from the
    first one.  The second reading does not rewind ([read_log_rewinds_once]). *)
Definition read_log (log : list string) (st : Locals) : Control :=
  match read_lines log st with
  | Rewind st' => read_lines log st'
  | c => c
  end.

(** The conversion of an [int] to [UrsulaLogCheckerResult], a [char]
    (signed, as on x86). *)
Definition to_char (z : Z) : Z := ((z + 128) mod 256 - 128)%Z.

(** [cond_bit] of the row [i]. *)
Definition cond_bit (m : Matrix) (objects_count i : nat) : bool :=
  existsb (fun j => cell m i j) (seq 0 objects_count).

(** [for (i = 0; i < conditions_count; i++) res |= (cond_bit << i)],
    from [res = 0]. *)
Definition result_loop (m : Matrix) (objects_count conditions_count : nat)
    : Z :=
  foldl (fun res i =>
           to_char (Z.lor res (Z.shiftl (Z.b2z (cond_bit m objects_count i))
                                        (Z.of_nat i))))
        0%Z (seq 0 conditions_count).

(** [res = 0; if (cond_matrix) { ... }] *)
Definition result_byte (conditions_count objects_count : nat)
    (cond_matrix : option Matrix) : Z :=
  match cond_matrix with
  | None => 0%Z
  | Some m => result_loop m objects_count conditions_count
  end.

Definition final_result (st : Locals) : Z :=
  result_byte (length (conditions (task st))) (objects_count st)
    (cond_matrix st).

(** What a call of the checker ends with: the returned error code and the
    value stored in [*result], or undefined behaviour.  The code string is
    [generate_code(secret, task_name, salt, result)], a digest that is not
    part of this model. *)
Inductive Outcome : Type :=
| Returned (code : Z) (result : Z)
| UndefinedBehaviour.

(** The search of the task by name: its position in the list and the task. *)
Fixpoint find_task (tasks : list UrsulaCheckerTask) (task_name : string)
    (k : nat) : option (nat * UrsulaCheckerTask) :=
  match tasks with
  | [] => None
  | t :: rest =>
      if String.eqb (name t) task_name then Some (k, t)
      else find_task rest task_name (S k)
  end.

Definition initial_locals (t : UrsulaCheckerTask) : Locals :=
  {| task := t; objects := None; objects_count := 0; cond_matrix := None;
     i := 0; state := "p";
     player_pos := mkPoint float_zero float_zero |}.

(** The locals at the end of the loop, for a task already found. *)
Definition run_task (t : UrsulaCheckerTask) (log : list string) : Control :=
  read_log log (initial_locals t).

Definition store_task (checker : UrsulaLogCheckerData) (k : nat)
    (t : UrsulaCheckerTask) : UrsulaLogCheckerData :=
  {| secret := secret checker; tasks := <[k := t]> (tasks checker) |}.

(** [cyberiada_ursula_log_checker_check_log] on a checker, a task name and
    the lines of a log file that could be opened.  The checker comes back
    with the task as the call left it.  The loop does not end on a rewind
    ([read_log_rewinds_once]). *)
Definition cyberiada_ursula_log_checker_check_log
    (checker : UrsulaLogCheckerData) (task_name : string)
    (log : list string) : UrsulaLogCheckerData * Outcome :=
  match find_task (tasks checker) task_name 0 with
  | None =>
      (checker, Returned URSULA_CHECK_BAD_PARAMETERS URSULA_CHECK_RESULT_ERROR)
  | Some (k, t) =>
      match run_task t log with
      | Continue st | Break st =>
          (store_task checker k (task st),
           Returned URSULA_CHECK_NO_ERROR (final_result st))
      | GotoErrorLog st =>
          (store_task checker k (task st),
           Returned URSULA_CHECK_BAD_PARAMETERS URSULA_CHECK_RESULT_ERROR)
      | Rewind _ | Undefined => (checker, UndefinedBehaviour)
      end
  end.

End CheckLog.

(** ** An instance of the numbers for running the model *)

(** Exact arithmetic: a number is a rational or the square root of a
    non-negative rational.  [atof] yields rationals, [DIST] takes the root
    of a rational, and the program only compares distances, so every
    comparison the program makes is decided exactly.  Arithmetic on a root
    does not occur in the program; it is computed on the radicand. *)
Module Exact.

Inductive num : Type :=
| Rat (q : Q)
| Root (q : Q).

Definition radicand (a : num) : Q :=
  match a with Rat q => q | Root q => q end.

Definition leb (a b : num) : bool :=
  match a, b with
  | Rat p, Rat q => Qle_bool p q
  | Root p, Root q => Qle_bool p q
  | Root p, Rat q => Qle_bool 0 q && Qle_bool p (q * q)
  | Rat p, Root q => Qle_bool p 0 || Qle_bool (p * p) q
  end.

Definition digit (a : ascii) : option Z :=
  let k := Z.of_nat (nat_of_ascii a) in
  if (Z.leb 48 k && Z.leb k 57)%bool then Some (k - 48)%Z else None.

(** The digits at the head of [s]: their value after [acc] and how many
    there are. *)
Fixpoint digits (s : string) (acc : Z) (count : nat) : Z * nat * string :=
  match s with
  | String a s' =>
      match digit a with
      | Some d => digits s' (10 * acc + d)%Z (S count)
      | None => (acc, count, s)
      end
  | EmptyString => (acc, count, s)
  end.

Definition space (a : ascii) : bool :=
  let k := nat_of_ascii a in
  Nat.eqb k 32 || (Nat.leb 9 k && Nat.leb k 13).

(** [atof] on the decimal numerals [[+-]digits[.digits]]; like the C function
    it reads the longest numeral at the head of the text and yields 0 when
    there is none.  Exponents and the other forms of [strtod] are not
    read. *)
Definition decimal (s : string) : num :=
  let s := CStr.skip_while space s in
  let '(neg, s) :=
    match s with
    | String "-" s' => (true, s')
    | String "+" s' => (false, s')
    | _ => (false, s)
    end in
  let '(int_part, _, s) := digits s 0%Z 0 in
  let '(num_, den) :=
    match s with
    | String "." s' =>
        let '(frac, count, _) := digits s' 0%Z 0 in
        ((int_part * 10 ^ Z.of_nat count + frac)%Z, (10 ^ Z.of_nat count)%Z)
    | _ => (int_part, 1%Z)
    end in
  Rat (Qred ((if neg then - num_ else num_)%Z # Z.to_pos den)).

#[global] Instance ops : FloatOps := {|
  float := num;
  atof := decimal;
  float_zero := Rat 0;
  DELTA := Rat (1 # 1000);
  fsub a b := Rat (Qred (radicand a - radicand b));
  fmul a b := Rat (Qred (radicand a * radicand b));
  fadd a b := Rat (Qred (radicand a + radicand b));
  fsqrt a := Root (radicand a);
  fle := leb;
  flt a b := negb (leb b a);
  feq a b := leb a b && leb b a
|}.

End Exact.

(** ** The vocabulary of the properties *)

(** The first character of a line, if it has one. *)
Definition first_char (s : string) : option ascii :=
  match s with
  | String c _ => Some c
  | EmptyString => None
  end.

(** The matrix as [close_scene] allocates it. *)
Definition matrix_shape (m : Matrix) (objects_count : nat) : Prop :=
  length m = MAX_CONDITIONS /\
  Forall (fun row => length row = objects_count) m.

(** A requirement on the player. *)
Definition player_requirement (r : ObjectReq) : bool :=
  ObjectType_eqb (req_type r) otPlayer.

Section Vocabulary.
Context `{FloatOps}.

(** The base object [b] is marked or has a match among [objs]. *)
Definition base_found (objs : list Object) (b : Object) : bool :=
  valid b || existsb (base_matches b) objs.


(** The reading of the result byte by ordinals, in the words of the
    specification: some condition of ordinal [ord] has a cell set in its
    row. *)
Definition ordinal_satisfied (conds : list Condition) (m : Matrix)
    (objects_count : nat) (ord : Z) : bool :=
  existsb (fun kc => Z.eqb (n (snd kc)) ord &&
                     cond_bit m objects_count (fst kc))
          (combine (seq 0 (length conds)) conds).

End Vocabulary.

(** The object rows in the words of the specification: the lines that
    follow the scene header up to the second rule, the first rule closing
    the header band. *)
Fixpoint after_header (log : list string) : list string :=
  match log with
  | [] => []
  | l :: rest =>
      if CStr.starts_with LOG_SCENE_OBJECT_HEADER l then rest
      else after_header rest
  end.

Fixpoint rows_until_rule (rules : nat) (lines : list string) : list string :=
  match lines with
  | [] => []
  | l :: rest =>
      if CStr.starts_with LOG_HLINE l then
        match rules with
        | O => []
        | S rules' => rows_until_rule rules' rest
        end
      else l :: rows_until_rule rules rest
  end.

Definition rows_until_second_rule (log : list string) : list string :=
  rows_until_rule 1 (after_header log).

(** ** Sample tasks and logs *)

Module Samples.
Import Exact.

Definition origin : Point := mkPoint (Rat 0) (Rat 0).

Definition pt (a b : Z) : Point :=
  mkPoint (Rat (inject_Z a)) (Rat (inject_Z b)).

(** A log object of type mob standing at [(a, b)]. *)
Definition mob (cls ident : string) (a b : Z) : Object :=
  mkObject otMob (Some cls) (Some ident) (pt a b) (pt a b) (Rat 10) (Rat 1)
    true false.

Definition zombie : Object := mob "zombie" "zombie_1" 5 5.
Definition skeleton : Object := mob "skeleton" "skeleton_1" 7 7.

(** The player as [add_player] leaves it for the start position (4,5). *)
Definition player : Object := add_player (pt 4 5) zero_object.

(** A condition row [n:kind:mob:zombie::::arg]. *)
Definition on_zombie (n : Z) (kind : ConditionType) (arg : Z) : Condition :=
  mkCondition n kind otMob (Some "zombie") otPlayer (Some "")
    (Rat (inject_Z arg)) None.

(** The condition row [n:win::::::0]. *)
Definition win (n : Z) : Condition :=
  mkCondition n condGameWon otPlayer (Some "") otPlayer (Some "") (Rat 0)
    None.

(** The base object row [base:mob:zombie::0:0:]. *)
Definition base_zombie : Object :=
  mkObject otMob (Some "zombie") None origin origin (Rat 0) (Rat 0) false
    false.

(** The requirement rows [req:mob:zombie:1:1::] and [req:player::1:1::]. *)
Definition one_zombie : ObjectReq := mkObjectReq otMob (Some "zombie") 1 1 0.
Definition one_player : ObjectReq := mkObjectReq otPlayer (Some "") 1 1 0.

Definition task_win : UrsulaCheckerTask := mkTask "T" [] [] [win 1].

Definition task_135 : UrsulaCheckerTask :=
  mkTask "T" [] [] [on_zombie 1 condAttacked 0; win 3;
                    on_zombie 5 condAttacked 0].

Definition task_one_zombie : UrsulaCheckerTask :=
  mkTask "T" [] [one_zombie] [win 1].

Definition task_two_bases : UrsulaCheckerTask :=
  mkTask "T" [base_zombie; base_zombie] [] [win 1].

Definition task_player_req : UrsulaCheckerTask :=
  mkTask "T" [] [one_player] [win 1].

Definition checker_of (t : UrsulaCheckerTask) : UrsulaLogCheckerData :=
  mkChecker (Some "secret") [t].

Definition start_line : string := "Player Start Position (4,5)".
Definition zombie_row : string :=
  "zombie_1 | zombie | n | mob | (5,5) | 10 | 1".

(** A scene of one zombie and the player. *)
Definition scene : list string :=
  [start_line; LOG_SCENE_OBJECT_HEADER; zombie_row; "---"].

(** A scene without rows: the player alone. *)
Definition empty_scene : list string :=
  [start_line; LOG_SCENE_OBJECT_HEADER; "---"].

(** A scene table with a rule under its header and another under its
    rows. *)
Definition banded_scene : list string :=
  [start_line; LOG_SCENE_OBJECT_HEADER; "---"; zombie_row; "---"].

Definition log_unknown_event : list string := scene ++ ["[5] hello world"].
Definition log_won : list string := scene ++ ["[9] Game Over: Win"].

(** The locals when the events of [scene] start, for a task [t] without
    base objects and requirements. *)
Definition reading_events (t : UrsulaCheckerTask) : Locals :=
  mkLocals t (Some [zombie; player]) 2 (Some (zero_matrix 2)) MAX_CONDITIONS
    "l" (pt 4 5).


(** The matrix of [scene] with the row 1 set for both objects. *)
Definition row_one_set : Matrix :=
  <[1 := [true; true]]> (zero_matrix 2).

(** The locals when the rule that closes the rows of [scene] is read for
    the second time. *)
Definition closing_scene (t : UrsulaCheckerTask) : Locals :=
  mkLocals t (Some [zombie; zero_object]) 2 None 1 "o" (pt 4 5).

(** The locals when the scene header has just been read for the first
    time. *)
Definition counting_rows (t : UrsulaCheckerTask) : Locals :=
  mkLocals t None 0 None 0 "o" (pt 4 5).

End Samples.

(** * More of the code *)

(** ** The keywords of the task files *)

Definition CONDITION_TYPE_STR : list string :=
  ["proxy"; "approach"; "retire"; "move"; "win"; "attack"; "damage";
   "destroy"].

Definition OBJECT_TYPE_STR : list string :=
  ["player"; "mob"; "intobj"; "static"].

(** The loop of [find_condition] and of [find_object_type] over the rest
    [table] of a keyword array, [k] being the index of its first element:
    the index of the first keyword equal to [s], or [-1]. *)
Fixpoint find_keyword (table : list string) (s : string) (k : Z) : Z :=
  match table with
  | [] => (-1)%Z
  | keyword :: rest =>
      if String.eqb s keyword then k else find_keyword rest s (k + 1)%Z
  end.

Definition find_condition (s : string) : Z :=
  find_keyword CONDITION_TYPE_STR s 0%Z.

Definition find_object_type (s : string) : Z :=
  find_keyword OBJECT_TYPE_STR s 0%Z.

(** The casts [(ConditionType)found] and [(ObjectType)found] of an index
    that [find_condition] or [find_object_type] has found. *)
Definition ConditionType_of_index (k : Z) : option ConditionType :=
  match k with
  | 0%Z => Some condObjectProximity
  | 1%Z => Some condObjectApproaching
  | 2%Z => Some condObjectRetiring
  | 3%Z => Some condObjectMoving
  | 4%Z => Some condGameWon
  | 5%Z => Some condAttacked
  | 6%Z => Some condDamaged
  | 7%Z => Some condDestroyed
  | _ => None
  end.

Definition ObjectType_of_index (k : Z) : option ObjectType :=
  match k with
  | 0%Z => Some otPlayer
  | 1%Z => Some otMob
  | 2%Z => Some otIntObject
  | 3%Z => Some otStatic
  | _ => None
  end.

(** The keyword macros, in the order of the enumerations. *)
Definition condition_keyword (c : ConditionType) : string :=
  match c with
  | condObjectProximity => "proxy"
  | condObjectApproaching => "approach"
  | condObjectRetiring => "retire"
  | condObjectMoving => "move"
  | condGameWon => "win"
  | condAttacked => "attack"
  | condDamaged => "damage"
  | condDestroyed => "destroy"
  end.

Definition object_keyword (t : ObjectType) : string :=
  match t with
  | otPlayer => "player"
  | otMob => "mob"
  | otIntObject => "intobj"
  | otStatic => "static"
  end.

(** ** The sizes of the arrays of a task *)

Definition INT_MIN : Z := (-2147483648)%Z.
Definition INT_MAX : Z := 2147483647%Z.

(** [atoi]: blanks, a sign, the longest run of digits; [None] when the
    number is not an [int], which C leaves undefined. *)
Definition atoi (s : string) : option Z :=
  let s := CStr.skip_while Exact.space s in
  let '(neg, s) :=
    match s with
    | String "-" s' => (true, s')
    | String "+" s' => (false, s')
    | _ => (false, s)
    end in
  let '(v, _, _) := Exact.digits s 0%Z 0 in
  let z := (if neg then - v else v)%Z in
  if (Z.leb INT_MIN z && Z.leb z INT_MAX)%bool then Some z else None.

Definition ID_STRING : string := "id".
Definition OBJ_STRING : string := "obj".
Definition BASE_OBJ_STRING : string := "base".
Definition OBJ_REQ_STRING : string := "req".

(** The lines of a task file that both loops of
    [cyberiada_ursula_log_task_config] skip: the headers and the lines that
    are empty or start with a blank. *)
Definition skipped_line (s : string) : bool :=
  CStr.starts_with ID_STRING s || CStr.starts_with OBJ_STRING s ||
  match s with
  | EmptyString => true
  | String c _ =>
      Ascii.eqb c " " || Ascii.eqb c "009" || Ascii.eqb c "010"
  end.

(** The counters of the first loop of [cyberiada_ursula_log_task_config]. *)
Record ArraySizes : Type := mkArraySizes {
  base_objects_count : nat;
  object_reqs_count : nat;
  conditions_count : nat;
  last_n : Z
}.

(** The body of the first loop for a line; [None] is an [atoi] out of
    range. *)
Definition count_line (sizes : ArraySizes) (s : string)
    : option ArraySizes :=
  if skipped_line s then Some sizes
  else if CStr.starts_with BASE_OBJ_STRING s then
    Some (mkArraySizes (S (base_objects_count sizes))
            (object_reqs_count sizes) (conditions_count sizes)
            (last_n sizes))
  else if CStr.starts_with OBJ_REQ_STRING s then
    Some (mkArraySizes (base_objects_count sizes)
            (S (object_reqs_count sizes)) (conditions_count sizes)
            (last_n sizes))
  else
    n ← atoi s;
    Some (if Z.ltb (last_n sizes) n
          then mkArraySizes (base_objects_count sizes)
                 (object_reqs_count sizes) (S (conditions_count sizes)) n
          else sizes).

Fixpoint count_lines (sizes : ArraySizes) (lines : list string)
    : option ArraySizes :=
  match lines with
  | [] => Some sizes
  | s :: rest => sizes' ← count_line sizes s; count_lines sizes' rest
  end.

(** The first loop of [cyberiada_ursula_log_task_config] over the lines of
    a task file that could be opened, and the two tests that follow it:
    the sizes of the arrays to allocate, or the error code returned.  The
    second loop, which fills the arrays, is not part of the model. *)
Definition array_sizes (lines : list string) : option (result ArraySizes) :=
  sizes ← count_lines (mkArraySizes 0 0 0 0%Z) lines;
  Some (if Nat.eqb (conditions_count sizes) 0
        then Error URSULA_CHECK_BAD_PARAMETERS
        else if Nat.ltb MAX_CONDITIONS (conditions_count sizes)
        then Error URSULA_CHECK_BAD_PARAMETERS
        else Ok sizes).

(** The lines that the first loop counts as base objects and as
    requirements. *)
Definition base_line (s : string) : bool :=
  negb (skipped_line s) && CStr.starts_with BASE_OBJ_STRING s.

Definition req_line (s : string) : bool :=
  negb (skipped_line s) && negb (CStr.starts_with BASE_OBJ_STRING s) &&
  CStr.starts_with OBJ_REQ_STRING s.

(** ** The code of a result *)

(** [generate_code] is embedded on its own: [Outcome] does not carry the
    code, which is a function of the secret, the task name, the salt and
    the result. *)

Section Code.

(** The digest of [sha256.h]: the [hash] array that [sha256_hash] fills for
    a message. *)
Variable sha256_hash : string -> list Z.

(** The [%d] conversion. *)
Definition print_int (z : Z) : string := NilZero.string_of_int (Z.to_int z).

(** The text that [snprintf] formats with ["%s:%s:%d:%d"]. *)
Definition code_message (secret_ task_name : string) (salt result_ : Z)
    : string :=
  String.append secret_
    (String ":" (String.append task_name
       (String ":" (String.append (print_int salt)
          (String ":" (print_int result_)))))).

Definition hex_digit (k : Z) : ascii :=
  match k with
  | 0%Z => "0" | 1%Z => "1" | 2%Z => "2" | 3%Z => "3" | 4%Z => "4"
  | 5%Z => "5" | 6%Z => "6" | 7%Z => "7" | 8%Z => "8" | 9%Z => "9"
  | 10%Z => "a" | 11%Z => "b" | 12%Z => "c" | 13%Z => "d" | 14%Z => "e"
  | _ => "f"
  end%char.

(** The loop that prints each [unsigned char] of the hash with ["%02x"]. *)
Fixpoint hex_string (hash : list Z) : string :=
  match hash with
  | [] => EmptyString
  | b :: rest =>
      String (hex_digit (b / 16)) (String (hex_digit (b mod 16))
                                     (hex_string rest))
  end.

(** [generate_code].  [snprintf] returns the length of the whole text and
    keeps its first [MAX_STR_LEN - 1] characters and a terminator in the
    buffer; [sha256_hash] then reads as many bytes as the length returned.
    [None] is undefined behaviour: a [NULL] secret given to ["%s"], or a
    text of more than [MAX_STR_LEN] characters, for which [sha256_hash]
    reads past the buffer. *)
Definition generate_code (secret_ : option string) (task_name : string)
    (salt result_ : Z) : option string :=
  match secret_ with
  | None => None
  | Some secret_ =>
      let text := code_message secret_ task_name salt result_ in
      let buffer_size := String.length text in
      if Nat.ltb buffer_size MAX_STR_LEN
      then Some (hex_string (sha256_hash text))
      else if Nat.eqb buffer_size MAX_STR_LEN
      then Some (hex_string
                   (sha256_hash
                      (String.append (CStr.take (MAX_STR_LEN - 1) text)
                         (String "000" EmptyString))))
      else None
  end.

End Code.

(** A digit of the lower-case hexadecimal notation. *)
Definition is_hex (c : ascii) : bool :=
  let k := nat_of_ascii c in
  (Nat.leb 48 k && Nat.leb k 57) || (Nat.leb 97 k && Nat.leb k 102).

(** ** More vocabulary *)

(** [strchr(s, c) != NULL]. *)
Definition has_char (c : ascii) (s : string) : bool :=
  match CStr.strchr s c with
  | Some _ => true
  | None => false
  end.

(** The kinds of conditions that search the scene, and the kinds that test
    the object of an event. *)
Definition search_kind (k : ConditionType) : bool :=
  match k with
  | condObjectProximity | condObjectApproaching | condObjectRetiring
  | condObjectMoving => true
  | _ => false
  end.

Definition event_kind (k : ConditionType) : bool := negb (search_kind k).

Section MoreVocabulary.
Context `{FloatOps}.

(** The test that the proximity, approaching and retiring conditions make
    on a primary object [p] and a secondary object [s]. *)
Definition pair_test (cond : Condition) (p s : Object) : bool :=
  filter_strcmp_eq0 p (primary_obj_type cond) (primary_obj_class cond) &&
  filter_strcmp_eq0 s (secondary_obj_type cond) (secondary_obj_class cond) &&
  match cond_type cond with
  | condObjectProximity => fle (DIST (pos p) (pos s)) (argument cond)
  | condObjectApproaching =>
      flt (DIST (pos p) (pos s)) (DIST (prev_pos p) (prev_pos s))
  | condObjectRetiring =>
      flt (DIST (prev_pos p) (prev_pos s)) (DIST (pos p) (pos s))
  | _ => false
  end.

(** The object of index [k] has a partner for the condition. *)
Definition has_partner (cond : Condition) (objects : list Object) (k : nat)
    : Prop :=
  exists p j s,
    objects !! k = Some p /\ objects !! j = Some s /\ j <> k /\
    pair_test cond p s = true.

End MoreVocabulary.

Section Invariants.
Context `{FloatOps}.

(** The log object [o] counts for the requirement [r]. *)
Definition requirement_counts (r : ObjectReq) (o : Object) : bool :=
  ObjectType_eqb (req_type r) (type o) &&
  strcmp_eq0 (req_class r) (class o).

(** The requirement [r'] is [r] after the log objects [objs] have been
    counted. *)
Definition counted (objs : list Object) (r r' : ObjectReq) : Prop :=
  req_type r' = req_type r /\ req_class r' = req_class r /\
  minimum r' = minimum r /\ limit r' = limit r /\
  found r' =
    ((found r + Z.of_nat (length (List.filter (requirement_counts r) objs)))
       mod 256)%Z.

(** The object of index [k] is not the player and has the id [tok]. *)
Definition named_at (tok : string) (objs : list Object) (k : nat) : Prop :=
  exists o, objs !! k = Some o /\ type o <> otPlayer /\ id o = Some tok.

(** An object read from a row of the scene table. *)
Definition row_object (o : Object) : Prop :=
  type o <> otPlayer /\ nonempty (class o) = true /\ nonempty (id o) = true.

(** The synthesized player. *)
Definition player_object (o : Object) : Prop :=
  type o = otPlayer /\ class o = None /\ id o = None.

(** The scene as the events find it: the objects of the rows, then the
    player. *)
Definition scene_objects (objs : list Object) : Prop :=
  exists rows pl,
    objs = (rows ++ [pl])%list /\ Forall row_object rows /\
    player_object pl.

(** Two objects that differ at most in their positions. *)
Definition same_but_position (o o' : Object) : Prop :=
  type o' = type o /\ class o' = class o /\ id o' = id o /\
  hp o' = hp o /\ damage o' = damage o /\
  pos_predefined o' = pos_predefined o /\ valid o' = valid o.

(** Two base objects that differ at most in the mark [valid], which is
    only ever set. *)
Definition same_base (b b' : Object) : Prop :=
  b' = b \/ b' = set_valid b.

(** Two requirements that differ at most in the counter [found]. *)
Definition same_requirement (r r' : ObjectReq) : Prop :=
  req_type r' = req_type r /\ req_class r' = req_class r /\
  minimum r' = minimum r /\ limit r' = limit r.

Definition same_task (t t' : UrsulaCheckerTask) : Prop :=
  name t' = name t /\ conditions t' = conditions t /\
  Forall2 same_base (base_objects t) (base_objects t') /\
  Forall2 same_requirement (object_reqs t) (object_reqs t').

(** What holds of the locals all along a run of the checker for the task
    [t]. *)
Record run_invariant (t : UrsulaCheckerTask) (st : Locals) : Prop :=
  mkRunInvariant {
    inv_task : same_task t (task st);
    inv_fresh : state st <> "l"%char -> task st = t;
    inv_length :
      forall objs, objects st = Some objs ->
                   length objs = objects_count st;
    inv_rows :
      forall objs, objects st = Some objs -> state st <> "l"%char ->
                   Forall row_object (take (i st) objs);
    inv_no_matrix : state st <> "l"%char -> cond_matrix st = None;
    inv_scene :
      state st = "l"%char ->
      exists objs m,
        objects st = Some objs /\ cond_matrix st = Some m /\
        scene_objects objs /\ matrix_shape m (objects_count st)
  }.

(** The locals after an event: as before, or with objects that have moved
    and a matrix of the same shape in which no cell has been cleared. *)
Definition event_successor (st st' : Locals) : Prop :=
  st' = st \/
  exists objs objs' m m',
    objects st = Some objs /\ cond_matrix st = Some m /\
    st' = set_scene st objs' m' /\
    Forall2 same_but_position objs objs' /\
    matrix_shape m' (objects_count st) /\
    forall a b, cell m a b = true -> cell m' a b = true.

(** The locals a step of the loop ends with. *)
Definition control_invariant (t : UrsulaCheckerTask) (c : Control) : Prop :=
  match c with
  | Continue st | Break st | Rewind st => run_invariant t st
  | GotoErrorLog st => same_task t (task st)
  | Undefined => True
  end.

(** The task that a run leaves in its locals. *)
Definition left_task (c : Control) : option UrsulaCheckerTask :=
  match c with
  | Continue st | Break st | GotoErrorLog st => Some (task st)
  | Rewind _ | Undefined => None
  end.

(** A run that did not reach the end of the file. *)
Definition stopped (c : Control) : Prop :=
  match c with
  | Continue _ => False
  | _ => True
  end.

End Invariants.

(** ** More sample inputs *)

Module Cases.
Import Exact.
Import Samples.

(** The condition row [1:proxy:mob:zombie:mob:skeleton:5]. *)
Definition near_skeleton : Condition :=
  mkCondition 1 condObjectProximity otMob (Some "zombie") otMob
    (Some "skeleton") (Rat 5) None.

(** A task that searches the scene before it tests the object of an
    event. *)
Definition task_near : UrsulaCheckerTask :=
  mkTask "T" [] [] [near_skeleton; on_zombie 2 condDestroyed 0].

Definition three_objects : list Object := [skeleton; zombie; player].

(** A second object with the id of [zombie]. *)
Definition zombie_twin : Object := mob "zombie" "zombie_1" 1 1.

(** The requirement [one_zombie] with its counter at 255. *)
Definition full_counter : ObjectReq :=
  mkObjectReq otMob (Some "zombie") 1 1 255.

(** The locals after [log_won] for a task whose only condition is a won
    game. *)
Definition game_won (t : UrsulaCheckerTask) : Locals :=
  mkLocals t (Some [zombie; player]) 2
    (Some (<[0 := [true; true]]> (zero_matrix 2))) MAX_CONDITIONS "l"
    (pt 4 5).

(** The lines of a task file, conditions 1, 3 and 2 in this order. *)
Definition task_file : list string :=
  ["id:type"; "base:mob:zombie::0:0:"; "req:mob:zombie:1:1::";
   "1:win::::::0"; "3:win::::::0"; "2:win::::::0"].

(** A digest of 32 zero bytes. *)
Definition zero_hash (text : string) : list Z := replicate 32 0%Z.

End Cases.

(** * Properties *)

(** ** C strings and induction on conditions *)

Lemma strcmp_eq0_iff (a b : string) :
  strcmp_eq0 (Some a) (Some b) = true <-> a = b.
Proof.
  unfold strcmp_eq0, CStr.strcmp.
  destruct (String.compare a b) eqn:E; simpl.
  - split; [intros _; now apply String.compare_eq_iff | intros _; reflexivity].
  - split; [discriminate | intros ->].
    pose proof (String.compare_antisym b b) as A.
    rewrite E in A. discriminate.
  - split; [discriminate | intros ->].
    pose proof (String.compare_antisym b b) as A.
    rewrite E in A. discriminate.
Qed.

Lemma strcmp_nonzero_iff (a b : string) :
  strcmp_nonzero (Some a) (Some b) = true <-> a <> b.
Proof.
  pose proof (strcmp_eq0_iff a b) as E.
  unfold strcmp_nonzero, strcmp_eq0 in *.
  destruct (CStr.strcmp (Some a) (Some b)) as [z|] eqn:S.
  - destruct (Z.eqb z 0); simpl; split.
    + discriminate.
    + intros Hne. exfalso. apply Hne, E. reflexivity.
    + intros _ Heq. apply E in Heq. discriminate.
    + intros _. reflexivity.
  - discriminate.
Qed.

Lemma ObjectType_eqb_eq (a b : ObjectType) :
  ObjectType_eqb a b = true <-> a = b.
Proof. destruct a, b; simpl; split; congruence. Qed.

Section ConditionInduction.
Context `{FloatOps}.


End ConditionInduction.
(** ** Lines of the event section *)

Section EventLines.
Context `{FloatOps}.

(** C9.  In the state ['l'] a line whose first character is not
    [TIME_START_CHAR] (an empty line too) is skipped: the iteration ends
    with [continue] and every local, the objects and the matrix among them,
    is as before, so that the loop goes on with the next line from the same
    state. *)
Theorem line_without_time_section_is_skipped (st : Locals) (buffer : string)
    (rest : list string) :
  state st = "l"%char ->
  first_char buffer <> Some TIME_START_CHAR ->
  log_step st buffer = Continue st /\
  read_lines (buffer :: rest) st = read_lines rest st.
Proof.
  intros Hl Hc.
  assert (Hs : log_step st buffer = Continue st).
  { unfold log_step. rewrite Hl. simpl.
    unfold event_step. destruct buffer as [|c s]; [reflexivity|].
    destruct (Ascii.eqb_spec c TIME_START_CHAR) as [->|Hne]; simpl.
    - exfalso. apply Hc. reflexivity.
    - reflexivity. }
  split; [exact Hs|]. simpl. now rewrite Hs.
Qed.

End EventLines.

(** ** The satisfaction matrix *)

Lemma existsb_seq_agree (f g : nat -> bool) (a n : nat) :
  (forall j, a <= j < a + n -> f j = g j) ->
  existsb f (seq a n) = existsb g (seq a n).
Proof.
  revert a. induction n as [|n IH]; intros a Hfg; simpl; [reflexivity|].
  rewrite Hfg by lia. f_equal. apply IH. intros j Hj. apply Hfg. lia.
Qed.

Lemma cell_set_cell_ne (m : Matrix) (i k a b : nat) :
  a <> i \/ b <> k -> cell (set_cell m i k) a b = cell m a b.
Proof.
  intros Hne. unfold cell, set_cell.
  destruct (decide (a = i)) as [->|Ha].
  - rewrite list_lookup_alter_eq. destruct (m !! i) as [row|]; simpl; [|reflexivity].
    rewrite list_lookup_insert_ne; [reflexivity|]. destruct Hne; congruence.
  - rewrite list_lookup_alter_ne by congruence. reflexivity.
Qed.

Lemma cell_set_cell_eq (m : Matrix) (i k : nat) (row : list bool) :
  m !! i = Some row -> k < length row -> cell (set_cell m i k) i k = true.
Proof.
  intros Hrow Hk. unfold cell, set_cell.
  rewrite list_lookup_alter_eq, Hrow. simpl.
  rewrite list_lookup_insert_eq by exact Hk. reflexivity.
Qed.

Lemma cell_set_cell_mono (m : Matrix) (i k a b : nat) :
  cell m a b = true -> cell (set_cell m i k) a b = true.
Proof.
  intros Hc. destruct (decide (a = i /\ b = k)) as [[-> ->]|Hne].
  - unfold cell in Hc. destruct (m !! i) as [row|] eqn:Hrow; [|discriminate].
    apply cell_set_cell_eq with row; [exact Hrow|].
    destruct (row !! k) eqn:Hk; [|discriminate].
    apply lookup_lt_Some in Hk. exact Hk.
  - rewrite cell_set_cell_ne; [exact Hc|].
    destruct (decide (a = i)); [right|left]; intros ->; tauto.
Qed.

Lemma matrix_shape_row (m : Matrix) (count i : nat) :
  matrix_shape m count -> i < MAX_CONDITIONS ->
  exists row, m !! i = Some row /\ length row = count.
Proof.
  intros [Hlen Hrows] Hi.
  destruct (lookup_lt_is_Some_2 m i) as [row Hrow]; [lia|].
  exists row. split; [exact Hrow|].
  rewrite Forall_lookup in Hrows. eapply Hrows, Hrow.
Qed.

Lemma set_cell_shape (m : Matrix) (count i k : nat) :
  matrix_shape m count -> matrix_shape (set_cell m i k) count.
Proof.
  intros [Hlen Hrows]. unfold set_cell. split.
  - rewrite length_alter. exact Hlen.
  - rewrite Forall_lookup in *. intros j row Hj.
    destruct (decide (j = i)) as [->|Hne].
    + rewrite list_lookup_alter_eq in Hj.
      destruct (m !! i) as [row0|] eqn:E; [|discriminate].
      simpl in Hj. injection Hj as <-. rewrite length_insert. eapply Hrows, E.
    + rewrite list_lookup_alter_ne in Hj by congruence. eapply Hrows, Hj.
Qed.

Lemma later_found_set_cell (m : Matrix) (n i k k' : nat) :
  later_found (set_cell m i k) n i k' = later_found m n i k'.
Proof.
  unfold later_found. apply existsb_seq_agree. intros j Hj.
  apply cell_set_cell_ne. left. lia.
Qed.

Lemma credit_shape (m : Matrix) (count n i k : nat) :
  matrix_shape m count -> matrix_shape (credit m n i k) count.
Proof.
  intros Hm. unfold credit. destruct (later_found m n i k); [exact Hm|].
  now apply set_cell_shape.
Qed.

Lemma credit_mono (m : Matrix) (n i k a b : nat) :
  cell m a b = true -> cell (credit m n i k) a b = true.
Proof.
  intros Hc. unfold credit. destruct (later_found m n i k); [exact Hc|].
  now apply cell_set_cell_mono.
Qed.

Lemma credit_other (m : Matrix) (n i k a b : nat) :
  a <> i \/ b <> k -> cell (credit m n i k) a b = cell m a b.
Proof.
  intros Hne. unfold credit. destruct (later_found m n i k); [reflexivity|].
  now apply cell_set_cell_ne.
Qed.

Lemma credit_later_found (m : Matrix) (n i k k' : nat) :
  later_found (credit m n i k) n i k' = later_found m n i k'.
Proof.
  unfold credit. destruct (later_found m n i k); [reflexivity|].
  apply later_found_set_cell.
Qed.

Lemma credit_cell (m : Matrix) (count n i k : nat) :
  matrix_shape m count -> i < MAX_CONDITIONS -> k < count ->
  cell (credit m n i k) i k = cell m i k || negb (later_found m n i k).
Proof.
  intros Hm Hi Hk. unfold credit.
  destruct (later_found m n i k); simpl.
  - now rewrite orb_false_r.
  - rewrite orb_true_r.
    destruct (matrix_shape_row m count i Hm Hi) as (row & Hrow & Hlen).
    apply cell_set_cell_eq with row; [exact Hrow | lia].
Qed.

Lemma credit_all_S (m : Matrix) (n i count : nat) :
  credit_all m n i (S count) = credit (credit_all m n i count) n i count.
Proof. unfold credit_all. rewrite seq_S, foldl_app. reflexivity. Qed.

Lemma credit_all_facts (m : Matrix) (n i count total : nat) :
  matrix_shape m total -> i < MAX_CONDITIONS -> count <= total ->
  matrix_shape (credit_all m n i count) total /\
  (forall k, later_found (credit_all m n i count) n i k = later_found m n i k) /\
  (forall a b, cell m a b = true -> cell (credit_all m n i count) a b = true) /\
  (forall a b, a <> i -> cell (credit_all m n i count) a b = cell m a b) /\
  (forall k, cell (credit_all m n i count) i k =
             cell m i k || (Nat.ltb k count && negb (later_found m n i k))).
Proof.
  intros Hm Hi. induction count as [|count IH]; intros Hc.
  - unfold credit_all. simpl.
    split; [exact Hm|]. split; [reflexivity|]. split; [tauto|].
    split; [reflexivity|]. intros k. now rewrite orb_false_r.
  - destruct IH as (Hs & Hl & Hmono & Hrow & Hcell); [lia|].
    rewrite credit_all_S.
    split; [apply credit_shape, Hs|].
    split; [intros k; rewrite credit_later_found; apply Hl|].
    split; [intros a b Hab; apply credit_mono, Hmono, Hab|].
    split.
    { intros a b Ha. rewrite credit_other by (left; exact Ha). now apply Hrow. }
    intros k. destruct (decide (k = count)) as [->|Hne].
    + rewrite (credit_cell _ total) by (try assumption; lia).
      rewrite Hcell, Hl.
      assert (E1 : Nat.ltb count count = false) by (apply Nat.ltb_ge; lia).
      assert (E2 : Nat.ltb count (S count) = true) by (apply Nat.ltb_lt; lia).
      rewrite E1, E2. simpl. now rewrite orb_false_r.
    + rewrite credit_other by (right; exact Hne). rewrite Hcell.
      assert (E : Nat.ltb k count = Nat.ltb k (S count)).
      { destruct (Nat.ltb_spec k count), (Nat.ltb_spec k (S count));
          try reflexivity; lia. }
      now rewrite E.
Qed.

Section NoLaterWins.
Context `{FloatOps}.



Lemma test_condition_unfold (cond : Condition) (objects : list Object)
    primary primary_index secondary argument_ won :
  cyberiada_test_condition cond objects primary primary_index secondary
    argument_ won =
  let '(found_, primary_index) :=
    condition_found cond objects primary primary_index secondary argument_
      won in
  if found_ then
    match second_cond cond with
    | Some second =>
        cyberiada_test_condition second objects None primary_index None
          float_zero false
    | None => (true, primary_index)
    end
  else (false, primary_index).
Proof. destruct cond; reflexivity. Qed.


Lemma credit_all_mono (m : Matrix) (n i count a b : nat) :
  cell m a b = true -> cell (credit_all m n i count) a b = true.
Proof.
  intros Hc. induction count as [|count IH]; [exact Hc|].
  rewrite credit_all_S. now apply credit_mono.
Qed.

Lemma test_all_body_mono (n : nat) (objects : list Object)
    primary secondary argument_ won (i : nat) (cond : Condition)
    (st : list (list bool) * nat) (a b : nat) :
  cell (fst st) a b = true ->
  cell (fst (test_all_body n objects primary secondary argument_ won i cond
               st)) a b = true.
Proof.
  intros Hc. destruct st as [m p]. unfold test_all_body.
  destruct (cyberiada_test_condition cond objects primary p secondary
              argument_ won) as [matched k].
  destruct matched; [|exact Hc].
  destruct (cond_type cond); simpl;
    solve [apply credit_mono, Hc | apply credit_all_mono, Hc].
Qed.

Lemma test_all_loop_mono (n : nat) (objects : list Object)
    primary secondary argument_ won (conds : list Condition) :
  forall (i : nat) (st : list (list bool) * nat) (a b : nat),
  cell (fst st) a b = true ->
  cell (fst (test_all_loop n objects primary secondary argument_ won conds i
               st)) a b = true.
Proof.
  induction conds as [|cond rest IH]; intros i st a b Hc; simpl; [exact Hc|].
  apply IH. now apply test_all_body_mono.
Qed.


End NoLaterWins.



(** ** The check of the scene *)

Section SceneProofs.
Context `{FloatOps}.

Lemma count_requirement_type (o : Object) (r r' : ObjectReq) :
  count_requirement o r = Some r' -> req_type r' = req_type r.
Proof.
  unfold count_requirement.
  destruct (ObjectType_eqb (req_type r) (type o)); [|congruence].
  destruct (CStr.strcmp (req_class r) (class o)) as [z|]; [|discriminate].
  destruct (Z.eqb z 0); intros [= <-]; reflexivity.
Qed.

Lemma count_requirements_player (o : Object) (reqs reqs' : list ObjectReq) :
  count_requirements o reqs = Some reqs' ->
  existsb player_requirement reqs' = existsb player_requirement reqs.
Proof.
  revert reqs'. induction reqs as [|r rest IH]; intros reqs' Hc; simpl in Hc.
  - injection Hc as <-. reflexivity.
  - destruct (count_requirement o r) as [r'|] eqn:Er; [|discriminate].
    destruct (count_requirements o rest) as [rest'|]; [|discriminate].
    simpl in Hc. injection Hc as <-. simpl.
    rewrite (IH rest' eq_refl). unfold player_requirement.
    now rewrite (count_requirement_type o r r' Er).
Qed.

Lemma count_requirements_null_class (o : Object) (reqs : list ObjectReq) :
  type o = otPlayer -> class o = None ->
  existsb player_requirement reqs = true ->
  count_requirements o reqs = None.
Proof.
  intros Ht Hc. induction reqs as [|r rest IH]; simpl; [discriminate|].
  intros Hex. unfold count_requirement at 1. rewrite Ht, Hc.
  unfold player_requirement at 1 in Hex.
  destruct (ObjectType_eqb (req_type r) otPlayer); simpl in *.
  - destruct (req_class r); reflexivity.
  - rewrite (IH Hex). reflexivity.
Qed.

Lemma check_objects_null_class (objs bases : list Object)
    (reqs : list ObjectReq) (o : Object) :
  In o objs -> type o = otPlayer -> class o = None ->
  existsb player_requirement reqs = true ->
  check_objects objs bases reqs = None.
Proof.
  intros Hin Ht Hc. revert bases reqs.
  induction objs as [|o' rest IH]; intros bases reqs Hex; [destruct Hin|].
  simpl. destruct (count_requirements o' reqs) as [reqs'|] eqn:E;
    [|reflexivity].
  simpl. destruct Hin as [->|Hin].
  - rewrite (count_requirements_null_class o reqs Ht Hc Hex) in E.
    discriminate.
  - apply IH; [exact Hin|].
    now rewrite (count_requirements_player o' reqs reqs' E).
Qed.

(** C10.  When the rule that closes the rows is read and the task has a
    requirement on the player, the comparison of the classes is reached
    with the class of the synthesized player, which is [NULL]: [strcmp] is
    undefined there, and so is the step. *)
Theorem player_requirement_compares_null_class (st : Locals)
    (objs : list Object) (r : ObjectReq) :
  i st = objects_count st - 1 ->
  i st < length objs ->
  In r (object_reqs (task st)) ->
  req_type r = otPlayer ->
  CStr.strcmp (req_class r) (class (add_player (player_pos st) zero_object))
    = None /\
  close_scene st objs = Undefined.
Proof.
  intros Hi Hlen Hin Hr. split.
  - simpl. destruct (req_class r); reflexivity.
  - unfold close_scene. rewrite Hi, Nat.eqb_refl. simpl. rewrite <- Hi.
    destruct (lookup_lt_is_Some_2 objs (i st) Hlen) as [slot Hslot].
    rewrite Hslot.
    rewrite (check_objects_null_class _ _ _
               (add_player (player_pos st) slot)); try reflexivity.
    + apply list_elem_of_In, list_elem_of_lookup. exists (i st).
      apply list_lookup_insert_eq. exact Hlen.
    + apply existsb_exists. exists r. split; [exact Hin|].
      unfold player_requirement. now rewrite Hr.
Qed.

(** ** Base objects *)

Lemma base_matches_set_valid (b o : Object) :
  base_matches (set_valid b) o = base_matches b o.
Proof. reflexivity. Qed.

Lemma check_objects_bases (objs : list Object) :
  forall (bases : list Object) (reqs : list ObjectReq) bases' reqs',
  check_objects objs bases reqs = Some (bases', reqs') ->
  map valid bases' = map (base_found objs) bases.
Proof.
  induction objs as [|o rest IH]; intros bases reqs bases' reqs' Hc;
    simpl in Hc.
  - injection Hc as <- <-. unfold base_found. simpl.
    apply map_ext. intros b. now rewrite orb_false_r.
  - destruct (count_requirements o reqs) as [reqs1|]; [|discriminate].
    simpl in Hc. rewrite (IH _ _ _ _ Hc). unfold mark_base_objects.
    rewrite map_map. apply map_ext. intros b. unfold base_found. simpl.
    destruct (base_matches b o) eqn:Em, (valid b) eqn:Ev; simpl;
      rewrite ?Ev; reflexivity.
Qed.

Lemma all_valid_iff (objs bases : list Object) (flags : list bool) :
  flags = map (base_found objs) bases ->
  (existsb negb flags = false <->
   forall b, In b bases ->
     valid b = true \/ exists o, In o objs /\ base_matches b o = true).
Proof.
  intros ->. induction bases as [|b rest IH]; simpl.
  - split; [intros _ b [] | reflexivity].
  - rewrite orb_false_iff, IH. unfold base_found at 1.
    rewrite negb_false_iff, orb_true_iff, existsb_exists. split.
    + intros [Hb Hrest] b' [<-|Hin]; [exact Hb | now apply Hrest].
    + intros Hall. split; [apply Hall; now left|].
      intros b' Hin. apply Hall. now right.
Qed.

(** C7.  If the scene passes its check, every base object of the task
    was already marked or some object of the log satisfies its type,
    class, position, hp and damage tests.  The objects are not used up: an
    object that satisfies a base object marks every copy of it. *)
Theorem base_objects_do_not_consume (st st' : Locals) (objs : list Object) :
  close_scene st objs = Continue st' ->
  (exists objs',
     objects st' = Some objs' /\
     forall b, In b (base_objects (task st)) ->
       valid b = true \/ exists o, In o objs' /\ base_matches b o = true) /\
  (forall (b o : Object) (count : nat),
     base_matches b o = true ->
     Forall (fun b' => valid b' = true)
            (mark_base_objects o (replicate count b))).
Proof.
  intros Hc. split.
  - unfold close_scene in Hc.
    destruct (negb (Nat.eqb (i st) (objects_count st - 1))); [discriminate|].
    destruct (objs !! i st) as [slot|]; [|discriminate].
    set (objs' := <[i st := add_player (player_pos st) slot]> objs) in *.
    destruct (check_objects objs' (base_objects (task st))
                (object_reqs (task st))) as [[bases reqs]|] eqn:E;
      [|discriminate].
    destruct (existsb (fun b => negb (valid b)) bases) eqn:Ev;
      [discriminate|].
    destruct (existsb requirement_failed reqs); [discriminate|].
    injection Hc as <-. simpl. exists objs'. split; [reflexivity|].
    apply (all_valid_iff objs' _ (map valid bases)).
    + eapply check_objects_bases; exact E.
    + rewrite <- Ev. clear. induction bases as [|b rest IH]; simpl;
        [reflexivity | now rewrite IH].
  - intros b o count Hm. unfold mark_base_objects.
    apply List.Forall_forall. intros b' Hin.
    apply in_map_iff in Hin. destruct Hin as (b0 & <- & Hin).
    apply list_elem_of_In, elem_of_replicate in Hin.
    destruct Hin as [-> _]. rewrite Hm. simpl.
    destruct (valid b) eqn:Ev; simpl; [exact Ev | reflexivity].
Qed.
End SceneProofs.


(** ** The two readings of the scene *)

Section TwoPhase.
Context `{FloatOps}.

Lemma log_step_scene (st : Locals) (buffer : string) :
  state st = "o"%char -> log_step st buffer = scene_step st buffer.
Proof. intros Hs. unfold log_step. rewrite Hs. reflexivity. Qed.

Lemma first_reading (rows : list string) :
  forall (st : Locals) (hline : string) (rest : list string),
  state st = "o"%char ->
  objects st = None ->
  Forall (fun l => CStr.starts_with LOG_HLINE l = false) rows ->
  CStr.starts_with LOG_HLINE hline = true ->
  exists st',
    read_lines (rows ++ hline :: rest) st = Rewind st' /\
    objects_count st' = objects_count st + length rows + 1 /\
    objects st' = Some (replicate (objects_count st') zero_object) /\
    i st' = 0 /\ state st' = "s"%char /\ task st' = task st.
Proof.
  induction rows as [|row rows IH]; intros st hline rest Hs Ho Hrows Hh.
  - simpl. rewrite log_step_scene by exact Hs.
    unfold scene_step. rewrite Ho, Hh. eexists. split; [reflexivity|].
    simpl. split; [lia|]. repeat split.
  - apply Forall_cons in Hrows. destruct Hrows as [Hrow Hrows].
    simpl. rewrite log_step_scene by exact Hs.
    unfold scene_step. rewrite Ho, Hrow.
    edestruct IH as (st' & Hr & Hc & Hobjs & Hi & Hst & Ht);
      [| | exact Hrows | exact Hh |].
    3: { exists st'. split; [exact Hr|]. simpl in Hc.
         split; [lia|]. split; [exact Hobjs|]. split; [exact Hi|].
         split; [exact Hst | exact Ht]. }
    + exact Hs.
    + reflexivity.
Qed.

(** C8.  The first reading counts the lines that follow the scene header
    up to the first line that starts with [LOG_HLINE], allocates that
    number plus one elements and rewinds.  On the second reading every
    row that is parsed advances [i] by one, and the rule that closes the
    rows lets the loop go on only if [i] is [objects_count - 1]; the
    player is then written into that last element. *)
Theorem scene_is_read_twice :
  (forall (st : Locals) (rows : list string) (hline : string)
          (rest : list string),
     state st = "o"%char -> objects st = None -> objects_count st = 0 ->
     Forall (fun l => CStr.starts_with LOG_HLINE l = false) rows ->
     CStr.starts_with LOG_HLINE hline = true ->
     exists st',
       read_lines (rows ++ hline :: rest) st = Rewind st' /\
       objects_count st' = length rows + 1 /\
       objects st' = Some (replicate (length rows + 1) zero_object) /\
       i st' = 0 /\ state st' = "s"%char) /\
  (forall (st st' : Locals) (objs : list Object) (buffer : string),
     state st = "o"%char -> objects st = Some objs ->
     log_step st buffer = Continue st' ->
     (state st' = "o"%char /\ i st' = S (i st) /\
      objects_count st' = objects_count st) \/
     (state st' = "l"%char /\ i st = objects_count st - 1 /\
      objects_count st' = objects_count st /\
      exists slot,
        objs !! (objects_count st - 1) = Some slot /\
        objects st' =
          Some (<[objects_count st - 1 := add_player (player_pos st) slot]>
                  objs) /\
        type (add_player (player_pos st) slot) = otPlayer)).
Proof.
  split.
  - intros st rows hline rest Hs Ho Hc Hrows Hh.
    destruct (first_reading rows st hline rest Hs Ho Hrows Hh)
      as (st' & Hr & Hc' & Hobjs & Hi & Hst & _).
    exists st'. rewrite Hc in Hc'. simpl in Hc'.
    split; [exact Hr|]. split; [exact Hc'|].
    split; [now rewrite Hobjs, Hc'|]. split; [exact Hi | exact Hst].
  - intros st st' objs buffer Hs Ho Hstep.
    rewrite log_step_scene in Hstep by exact Hs.
    unfold scene_step in Hstep. rewrite Ho in Hstep.
    destruct (CStr.starts_with LOG_HLINE buffer).
    + right. unfold close_scene in Hstep.
      destruct (Nat.eqb (i st) (objects_count st - 1)) eqn:Ei; simpl in Hstep;
        [|discriminate].
      apply Nat.eqb_eq in Ei. rewrite Ei in Hstep.
      destruct (objs !! (objects_count st - 1)) as [slot|] eqn:Eslot;
        [|discriminate].
      destruct (check_objects _ _ _) as [[bases reqs]|]; [|discriminate].
      destruct (existsb _ bases); [discriminate|].
      destruct (existsb requirement_failed reqs); [discriminate|].
      injection Hstep as <-. simpl.
      split; [reflexivity|]. split; [exact Ei|]. split; [reflexivity|].
      exists slot. repeat split.
    + left. destruct (objs !! i st) as [slot|].
      * destruct (parse_object_row buffer slot); [|discriminate].
        injection Hstep as <-. simpl. repeat split. exact Hs.
      * destruct (so_field buffer) as [[f_id r]|]; [|discriminate].
        destruct (CStr.is_empty f_id); discriminate.
Qed.

End TwoPhase.


(** ** The result byte *)

Lemma to_char_small (z : Z) : (0 <= z < 128)%Z -> to_char z = z.
Proof.
  intros Hz. unfold to_char. rewrite Z.mod_small; lia.
Qed.

Lemma small_of_bits (z : Z) (c : nat) :
  (0 <= z)%Z ->
  (forall k, (Z.of_nat c <= k)%Z -> Z.testbit z k = false) ->
  (z < 2 ^ Z.of_nat c)%Z.
Proof.
  intros Hz Hbits.
  destruct (Z.eq_dec z 0%Z) as [->|Hnz]; [apply Z.pow_pos_nonneg; lia|].
  assert (Hpos : (0 < z)%Z) by lia.
  apply Z.log2_lt_pow2; [exact Hpos|].
  destruct (Z_lt_le_dec (Z.log2 z) (Z.of_nat c)) as [Hlt|Hge]; [exact Hlt|].
  pose proof (Z.bit_log2 z Hpos) as Hb.
  rewrite (Hbits _ Hge) in Hb. discriminate.
Qed.

Lemma result_loop_bits (m : Matrix) (objects_count c : nat) :
  c <= MAX_CONDITIONS ->
  (0 <= result_loop m objects_count c)%Z /\
  forall k : nat,
    Z.testbit (result_loop m objects_count c) (Z.of_nat k) =
    Nat.ltb k c && cond_bit m objects_count k.
Proof.
  induction c as [|c IH]; intros Hc.
  - unfold result_loop. simpl. split; [lia|]. intros k. apply Z.testbit_0_l.
  - destruct IH as [Hpos Hbits]; [lia|].
    unfold result_loop in *. rewrite seq_S, foldl_app. simpl.
    set (res := foldl _ 0%Z (seq 0 c)) in *.
    set (b := cond_bit m objects_count c).
    set (res' := Z.lor res (Z.shiftl (Z.b2z b) (Z.of_nat c))).
    assert (Hb0 : (0 <= Z.shiftl (Z.b2z b) (Z.of_nat c))%Z).
    { apply Z.shiftl_nonneg. destruct b; simpl; lia. }
    assert (Hpos' : (0 <= res')%Z) by (apply Z.lor_nonneg; split; assumption).
    assert (Hbit : forall k : nat,
               Z.testbit res' (Z.of_nat k) =
               Nat.ltb k (S c) && cond_bit m objects_count k).
    { intros k. unfold res'. rewrite Z.lor_spec, Hbits.
      rewrite Z.shiftl_spec by lia.
      destruct (lt_eq_lt_dec k c) as [[Hlt| ->]|Hgt].
      - rewrite Z.testbit_neg_r by lia.
        assert (E1 : Nat.ltb k c = true) by (apply Nat.ltb_lt; lia).
        assert (E2 : Nat.ltb k (S c) = true) by (apply Nat.ltb_lt; lia).
        rewrite E1, E2. now rewrite orb_false_r.
      - replace (Z.of_nat c - Z.of_nat c)%Z with 0%Z by lia.
        assert (E1 : Nat.ltb c c = false) by (apply Nat.ltb_ge; lia).
        assert (E2 : Nat.ltb c (S c) = true) by (apply Nat.ltb_lt; lia).
        rewrite E1, E2. simpl. fold b. destruct b; reflexivity.
      - assert (E1 : Nat.ltb k c = false) by (apply Nat.ltb_ge; lia).
        assert (E2 : Nat.ltb k (S c) = false) by (apply Nat.ltb_ge; lia).
        rewrite E1, E2. simpl.
        destruct b; simpl.
        + change 1%Z with (2 ^ 0)%Z. rewrite Z.pow2_bits_eqb by lia.
          apply Z.eqb_neq. lia.
        + apply Z.testbit_0_l. }
    assert (Hsmall : (res' < 128)%Z).
    { apply Z.lt_le_trans with (2 ^ Z.of_nat (S c))%Z.
      - apply small_of_bits; [exact Hpos'|]. intros k Hk.
        rewrite <- (Z2Nat.id k) by lia. rewrite Hbit.
        assert (E : Nat.ltb (Z.to_nat k) (S c) = false)
          by (apply Nat.ltb_ge; lia).
        now rewrite E.
      - change 128%Z with (2 ^ 7)%Z. apply Z.pow_le_mono_r; [lia|].
        unfold MAX_CONDITIONS in Hc. lia. }
    fold b. fold res'. rewrite to_char_small by lia.
    split; [exact Hpos' | exact Hbit].
Qed.

Lemma result_byte_bits (conditions_count objects_count : nat)
    (m : Matrix) (i : nat) :
  conditions_count <= MAX_CONDITIONS ->
  (Z.testbit (result_byte conditions_count objects_count (Some m))
             (Z.of_nat i) = true <->
   i < conditions_count /\
   exists k, k < objects_count /\ cell m i k = true).
Proof.
  intros Hc.
  simpl result_byte.
  destruct (result_loop_bits m objects_count conditions_count Hc) as [_ Hb].
  rewrite Hb, andb_true_iff, Nat.ltb_lt. unfold cond_bit.
  rewrite existsb_exists. split.
  - intros [Hi (k & Hk & Hcell)]. split; [exact Hi|]. exists k.
    apply in_seq in Hk. split; [lia | exact Hcell].
  - intros [Hi (k & Hk & Hcell)]. split; [exact Hi|]. exists k.
    split; [apply in_seq; lia | exact Hcell].
Qed.

Section ResultByte.
Context `{FloatOps}.

(** C2.  A run of the checker that reaches the end of the log or the end
    of the session with the matrix [m], for a task of at most
    [MAX_CONDITIONS] conditions, returns [URSULA_CHECK_NO_ERROR] and a
    result whose bit [i] is set exactly when [i] is the index of a
    condition in the array of the task and some object [k] has the cell
    [(i, k)] set. *)
Theorem result_bits_follow_array_index (checker : UrsulaLogCheckerData)
    (task_name : string) (log : list string) (k : nat)
    (t : UrsulaCheckerTask) (st : Locals) (m : Matrix) :
  find_task (tasks checker) task_name 0 = Some (k, t) ->
  run_task t log = Continue st \/ run_task t log = Break st ->
  cond_matrix st = Some m ->
  length (conditions (task st)) <= MAX_CONDITIONS ->
  exists res,
    snd (cyberiada_ursula_log_checker_check_log checker task_name log) =
      Returned URSULA_CHECK_NO_ERROR res /\
    forall i : nat,
      Z.testbit res (Z.of_nat i) = true <->
      i < length (conditions (task st)) /\
      exists k', k' < objects_count st /\ cell m i k' = true.
Proof.
  intros Hfind Hrun Hm Hc. exists (final_result st). split.
  - unfold cyberiada_ursula_log_checker_check_log. rewrite Hfind.
    destruct Hrun as [-> | ->]; reflexivity.
  - intros i. unfold final_result. rewrite Hm.
    now apply result_byte_bits.
Qed.

End ResultByte.

(** ** The loops end *)



Section Totality.
Context `{FloatOps}.








Lemma read_lines_app (pre more : list string) :
  forall st,
  read_lines (pre ++ more) st =
  match read_lines pre st with
  | Continue st' => read_lines more st'
  | c => c
  end.
Proof.
  induction pre as [|buffer pre IH]; intros st; simpl; [reflexivity|].
  destruct (log_step st buffer); try reflexivity. apply IH.
Qed.

End Totality.


(** ** The error code of the checker *)

Section Violations.
Context `{FloatOps}.



End Violations.


(** ** The filters of the moving, damaged and destroyed conditions *)

Section Filters.
Context `{FloatOps}.

Lemma filter_strcmp_eq0_class (o : Object) (t : ObjectType) (c c' : string) :
  class o = Some c' ->
  (filter_strcmp_eq0 o t (Some c) = true <->
   type o = t /\ (type o = otPlayer \/ c' = c)).
Proof.
  intros Hc. unfold filter_strcmp_eq0. rewrite Hc.
  rewrite andb_true_iff, orb_true_iff, andb_true_iff, !ObjectType_eqb_eq.
  rewrite strcmp_eq0_iff, negb_true_iff. split.
  - intros [Ht [Hp | [_ He]]]; auto.
  - intros [Ht [Hp | He]]; split; auto.
    destruct (ObjectType_eqb (type o) otPlayer) eqn:E; auto.
    apply ObjectType_eqb_eq in E. auto.
Qed.

Lemma filter_strcmp_class (o : Object) (t : ObjectType) (c c' : string) :
  class o = Some c' ->
  (filter_strcmp o t (Some c) = true <->
   type o = t /\ (type o = otPlayer \/ c' <> c)).
Proof.
  intros Hc. unfold filter_strcmp. rewrite Hc.
  rewrite andb_true_iff, orb_true_iff, andb_true_iff, !ObjectType_eqb_eq.
  rewrite strcmp_nonzero_iff, negb_true_iff. split.
  - intros [Ht [Hp | [_ He]]]; auto.
  - intros [Ht [Hp | He]]; split; auto.
    destruct (ObjectType_eqb (type o) otPlayer) eqn:E; auto.
    apply ObjectType_eqb_eq in E. auto.
Qed.

Lemma add_player_positions (player_pos : Point) (o : Object) :
  pos (add_player player_pos o) = player_pos /\
  prev_pos (add_player player_pos o) =
    mkPoint (y player_pos) (y (prev_pos o)).
Proof. destruct player_pos. split; reflexivity. Qed.

End Filters.

Import Samples.

(** C5.  The conditions on the class [zombie] evaluated on a zombie and on
    a skeleton: the destroyed, damaged and moving conditions reject the
    zombie and accept the skeleton, the attacked condition, whose filter
    compares [strcmp] with 0, accepts the zombie. *)
Theorem class_filter_is_inverted :
  cyberiada_test_condition (on_zombie 1 condDestroyed 0) [zombie; skeleton]
    (Some zombie) 0 None (Exact.Rat 0) false = (false, 0) /\
  cyberiada_test_condition (on_zombie 1 condDestroyed 0) [zombie; skeleton]
    (Some skeleton) 1 None (Exact.Rat 0) false = (true, 1) /\
  cyberiada_test_condition (on_zombie 1 condDamaged 5) [zombie; skeleton]
    (Some zombie) 0 None (Exact.Rat 1) false = (false, 0) /\
  cyberiada_test_condition (on_zombie 1 condDamaged 5) [zombie; skeleton]
    (Some skeleton) 1 None (Exact.Rat 1) false = (true, 1) /\
  cyberiada_test_condition (on_zombie 1 condObjectMoving 0)
    [move_object zombie (pt 6 5); skeleton] None 0 None (Exact.Rat 0) false
    = (false, 1) /\
  cyberiada_test_condition (on_zombie 1 condObjectMoving 0)
    [zombie; move_object skeleton (pt 8 8)] None 0 None (Exact.Rat 0) false
    = (true, 1) /\
  cyberiada_test_condition (on_zombie 1 condAttacked 5) [zombie; player]
    (Some zombie) 0 (Some player) (Exact.Rat 1) false = (true, 0).
Proof. repeat split; reflexivity. Qed.

(** C6.  For the start position (4,5) the checker leaves the player at
    the position (4,5) with the previous position (5,0): [prev_pos.x] holds
    [player_pos.y] and [prev_pos.y] the zero of [memset]. *)
Theorem player_previous_position :
  run_task task_win empty_scene =
    Continue (mkLocals task_win (Some [player]) 1 (Some (zero_matrix 1))
                MAX_CONDITIONS "l" (pt 4 5)) /\
  pos player = pt 4 5 /\
  prev_pos player = pt 5 0 /\
  prev_pos player <> pt 4 5.
Proof.
  split; [reflexivity|]. split; [reflexivity|].
  split; [reflexivity|]. discriminate.
Qed.

(** C4.  Two runs of the checker on one handle, for a task that requires
    exactly one zombie and a log with one zombie that ends in a win: the
    first run returns the result 1 and leaves [found] at 1, the second run
    counts on to 2, past the limit, and returns
    [URSULA_CHECK_BAD_PARAMETERS] with the result 0. *)
Theorem second_run_differs :
  cyberiada_ursula_log_checker_check_log (checker_of task_one_zombie) "T"
    log_won =
    (checker_of (mkTask "T" [] [mkObjectReq otMob (Some "zombie") 1 1 1]
                   [win 1]),
     Returned URSULA_CHECK_NO_ERROR 1) /\
  cyberiada_ursula_log_checker_check_log
    (fst (cyberiada_ursula_log_checker_check_log
            (checker_of task_one_zombie) "T" log_won)) "T" log_won =
    (checker_of (mkTask "T" [] [mkObjectReq otMob (Some "zombie") 1 1 2]
                   [win 1]),
     Returned URSULA_CHECK_BAD_PARAMETERS URSULA_CHECK_RESULT_ERROR).
Proof. split; reflexivity. Qed.


(** ** The properties on the sample logs *)



(** The result of a won game for the conditions of ordinals 1, 3, 5. *)
Lemma result_bits_follow_array_index_witness :
  exists res,
    snd (cyberiada_ursula_log_checker_check_log (checker_of task_135) "T"
           log_won) = Returned URSULA_CHECK_NO_ERROR res /\
    forall i : nat,
      Z.testbit res (Z.of_nat i) = true <->
      i < 3 /\ exists k', k' < 2 /\ cell row_one_set i k' = true.
Proof.
  apply (result_bits_follow_array_index (checker_of task_135) "T" log_won 0
           task_135
           (mkLocals task_135 (Some [zombie; player]) 2 (Some row_one_set)
              MAX_CONDITIONS "l" (pt 4 5))
           row_one_set).
  - reflexivity.
  - left. reflexivity.
  - reflexivity.
  - unfold MAX_CONDITIONS. simpl. lia.
Defined.

(** C2, as the specification states it, fails: for the ordinals 1, 3, 5
    and a won game the condition of ordinal 3 is satisfied, yet the result
    is 2: bit 1 is set, for which no ordinal 2 exists, and bit 2 is not. *)
Lemma ordinal_three_sets_bit_one :
  run_task task_135 log_won =
    Continue (mkLocals task_135 (Some [zombie; player]) 2 (Some row_one_set)
                MAX_CONDITIONS "l" (pt 4 5)) /\
  snd (cyberiada_ursula_log_checker_check_log (checker_of task_135) "T"
         log_won) = Returned URSULA_CHECK_NO_ERROR 2 /\
  ordinal_satisfied (conditions task_135) row_one_set 2 3 = true /\
  Z.testbit 2 2 = false /\
  ordinal_satisfied (conditions task_135) row_one_set 2 2 = false /\
  Z.testbit 2 1 = true.
Proof. repeat split; reflexivity. Qed.


(** C7, as the specification states it, fails: a task with two identical
    base objects passes the check on a scene with one matching object. *)
Lemma two_bases_one_object :
  base_objects task_two_bases = [base_zombie; base_zombie] /\
  run_task task_two_bases scene =
    Continue (mkLocals
                (mkTask "T" [set_valid base_zombie; set_valid base_zombie]
                   [] [win 1])
                (Some [zombie; player]) 2 (Some (zero_matrix 2))
                MAX_CONDITIONS "l" (pt 4 5)) /\
  List.filter (base_matches base_zombie) [zombie; player] = [zombie] /\
  snd (cyberiada_ursula_log_checker_check_log (checker_of task_two_bases) "T"
         scene) = Returned URSULA_CHECK_NO_ERROR 0 /\
  Returned URSULA_CHECK_NO_ERROR 0 <>
    Returned URSULA_CHECK_BAD_PARAMETERS URSULA_CHECK_RESULT_ERROR.
Proof.
  split; [reflexivity|]. split; [reflexivity|].
  split; [reflexivity|]. split; [reflexivity|].
  discriminate.
Qed.

(** One zombie marks both copies of the base object. *)
Lemma base_objects_do_not_consume_witness :
  Forall (fun b => valid b = true)
         (mark_base_objects zombie (replicate 2 base_zombie)).
Proof.
  refine (proj2 (base_objects_do_not_consume (closing_scene task_two_bases)
                   (mkLocals
                      (mkTask "T"
                         [set_valid base_zombie; set_valid base_zombie]
                         [] [win 1])
                      (Some [zombie; player]) 2 (Some (zero_matrix 2))
                      MAX_CONDITIONS "l" (pt 4 5))
                   [zombie; zero_object] _) base_zombie zombie 2 _).
  - reflexivity.
  - reflexivity.
Defined.

(** The first reading of one row and the rule. *)
Lemma scene_is_read_twice_witness :
  exists st',
    read_lines ([zombie_row] ++ "---" :: []) (counting_rows task_win)
      = Rewind st' /\
    objects_count st' = length [zombie_row] + 1 /\
    objects st' = Some (replicate (length [zombie_row] + 1) zero_object) /\
    i st' = 0 /\ state st' = "s"%char.
Proof.
  apply (proj1 scene_is_read_twice (counting_rows task_win) [zombie_row]
           "---" []).
  - reflexivity.
  - reflexivity.
  - reflexivity.
  - repeat constructor.
  - reflexivity.
Defined.

(** C8, as the specification states it, fails: with a rule under the
    header the count stops there; one element is allocated, not two, and
    the scene is the player alone. *)
Lemma banded_scene_drops_rows :
  rows_until_second_rule banded_scene = [zombie_row] /\
  read_lines banded_scene (initial_locals task_win) =
    Rewind (mkLocals task_win (Some [zero_object]) 1 None 0 "s" (pt 4 5)) /\
  1 <> length (rows_until_second_rule banded_scene) + 1 /\
  run_task task_win banded_scene =
    Continue (mkLocals task_win (Some [player]) 1 (Some (zero_matrix 1))
                MAX_CONDITIONS "l" (pt 4 5)).
Proof.
  split; [reflexivity|]. split; [reflexivity|].
  split; [simpl; lia|]. reflexivity.
Qed.

(** A session end without time section is skipped as well. *)
Lemma line_without_time_section_is_skipped_witness :
  log_step (reading_events task_win) "Session ended"
    = Continue (reading_events task_win) /\
  read_lines ["Session ended"; "[9] Game Over: Win"]
    (reading_events task_win)
    = read_lines ["[9] Game Over: Win"] (reading_events task_win).
Proof.
  apply line_without_time_section_is_skipped;
    [reflexivity | discriminate].
Defined.

(** The check of [scene] for a task with a requirement on the player. *)
Lemma player_requirement_compares_null_class_witness :
  CStr.strcmp (req_class one_player)
    (class (add_player (player_pos (closing_scene task_player_req))
              zero_object)) = None /\
  close_scene (closing_scene task_player_req) [zombie; zero_object]
    = Undefined.
Proof.
  apply player_requirement_compares_null_class.
  - reflexivity.
  - simpl. lia.
  - simpl. left. reflexivity.
  - reflexivity.
Defined.

(** The whole check of a task with a requirement on the player. *)
Example player_requirement_run :
  snd (cyberiada_ursula_log_checker_check_log (checker_of task_player_req)
         "T" scene) = UndefinedBehaviour.
Proof. reflexivity. Qed.

(** * More properties of the code *)

(** ** The lexical helpers *)

Lemma has_char_cons (c a : ascii) (s : string) :
  has_char c (String a s) = Ascii.eqb a c || has_char c s.
Proof.
  unfold has_char. simpl. destruct (Ascii.eqb a c); [reflexivity|].
  destruct (CStr.strchr s c) as [[t r]|]; reflexivity.
Qed.

Lemma has_char_none (c : ascii) (s : string) :
  CStr.strchr s c = None <-> has_char c s = false.
Proof.
  unfold has_char. destruct (CStr.strchr s c); split; congruence.
Qed.

Lemma has_char_skip_while (p : ascii -> bool) (c : ascii) (s : string) :
  p c = false -> has_char c (CStr.skip_while p s) = has_char c s.
Proof.
  intros Hp. induction s as [|a s IH]; [reflexivity|].
  simpl CStr.skip_while. destruct (p a) eqn:Ea; [|reflexivity].
  rewrite IH, has_char_cons.
  destruct (Ascii.eqb_spec a c) as [->|Hne]; [congruence | reflexivity].
Qed.

Lemma has_char_drop_tail (p : ascii -> bool) (c : ascii) (s : string) :
  p c = false -> has_char c (CStr.drop_tail p s) = has_char c s.
Proof.
  intros Hp. induction s as [|a s IH]; [reflexivity|].
  simpl CStr.drop_tail. rewrite has_char_cons, <- IH.
  destruct (CStr.drop_tail p s) as [|b t].
  - destruct (p a) eqn:Ea.
    + destruct (Ascii.eqb_spec a c) as [->|Hne]; [congruence | reflexivity].
    + rewrite has_char_cons. reflexivity.
  - rewrite has_char_cons. reflexivity.
Qed.

Lemma has_char_trim_tail (p : ascii -> bool) (c : ascii) (s : string) :
  p c = false -> has_char c (CStr.trim_tail p s) = has_char c s.
Proof.
  intros Hp. destruct s as [|a s]; [reflexivity|].
  simpl CStr.trim_tail. rewrite !has_char_cons.
  now rewrite has_char_drop_tail.
Qed.

Section Coordinates.
Context `{FloatOps}.

(** X1.  [parse_coordinates] returns [URSULA_CHECK_FORMAT_ERROR] exactly
    for the texts without a comma and a point for every text with one:
    what stands around the comma is given to [atof] as it is, so no text
    with a comma is refused. *)
Theorem parse_coordinates_needs_a_comma (s : string) :
  (parse_coordinates s = Error URSULA_CHECK_FORMAT_ERROR <->
   CStr.strchr s COORD_DELIMITER = None) /\
  ((exists p, parse_coordinates s = Ok p) <->
   CStr.strchr s COORD_DELIMITER <> None).
Proof.
  assert (E : has_char COORD_DELIMITER
                (CStr.trim_tail coord_trail (CStr.skip_while coord_lead s))
              = has_char COORD_DELIMITER s).
  { rewrite has_char_trim_tail by reflexivity.
    apply has_char_skip_while. reflexivity. }
  rewrite !has_char_none, <- E. unfold parse_coordinates, has_char.
  destruct (CStr.strchr (CStr.trim_tail coord_trail
                           (CStr.skip_while coord_lead s)) COORD_DELIMITER)
    as [[sx sy]|]; split; split; try congruence.
  - intros _. eexists. reflexivity.
  - intros [p Hp]. discriminate.
Qed.

End Coordinates.

Lemma skip_while_app (p : ascii -> bool) (lead rest : string) :
  CStr.skip_while p lead = EmptyString ->
  CStr.skip_while p (String.append lead rest) = CStr.skip_while p rest.
Proof.
  induction lead as [|a lead IH]; simpl; [reflexivity|].
  destruct (p a); [exact IH | discriminate].
Qed.

Lemma drop_tail_app (p : ascii -> bool) (s trail : string) :
  CStr.skip_while p trail = EmptyString ->
  CStr.drop_tail p (String.append s trail) = CStr.drop_tail p s.
Proof.
  intros Ht. induction s as [|a s IH]; simpl.
  - induction trail as [|b trail IHt]; simpl in *; [reflexivity|].
    destruct (p b); [|discriminate]. now rewrite (IHt Ht).
  - now rewrite IH.
Qed.

Lemma drop_tail_fixed_app (p : ascii -> bool) (a b : string) (c : ascii) :
  p c = false -> CStr.drop_tail p b = b ->
  CStr.drop_tail p (String.append a (String c b)) =
  String.append a (String c b).
Proof.
  intros Hc Hb. induction a as [|d a IH]; simpl.
  - rewrite Hb. destruct b; [now rewrite Hc | reflexivity].
  - rewrite IH. destruct a; reflexivity.
Qed.

Lemma strchr_app (a b : string) (c : ascii) :
  CStr.strchr a c = None ->
  CStr.strchr (String.append a (String c b)) c = Some (a, b).
Proof.
  induction a as [|d a IH]; simpl; intros Ha.
  - now rewrite Ascii.eqb_refl.
  - destruct (Ascii.eqb d c); [discriminate|].
    destruct (CStr.strchr a c) as [[t r]|]; [discriminate|].
    now rewrite IH.
Qed.

Section Brackets.
Context `{FloatOps}.

(** X2.  Blanks and opening brackets before the first number, blanks and
    closing brackets after the second one are dropped: for numbers [a] and
    [b] that neither start nor end with such a character, [a] without
    comma, the point read from [lead a , b trail] is [(atof a, atof b)]. *)
Theorem parse_coordinates_ignores_brackets (lead a b trail : string) :
  CStr.skip_while coord_lead lead = EmptyString ->
  CStr.skip_while coord_trail trail = EmptyString ->
  CStr.skip_while coord_lead a = a ->
  CStr.drop_tail coord_trail b = b ->
  CStr.strchr a COORD_DELIMITER = None ->
  parse_coordinates
    (String.append lead
       (String.append (String.append a (String COORD_DELIMITER b)) trail))
  = Ok (mkPoint (atof a) (atof b)).
Proof.
  intros Hlead Htrail Ha Hb Hcomma. unfold parse_coordinates.
  rewrite skip_while_app by exact Hlead.
  set (body := String.append a (String COORD_DELIMITER b)).
  assert (Hskip : CStr.skip_while coord_lead (String.append body trail)
                  = String.append body trail).
  { unfold body. destruct a as [|d a]; [reflexivity|].
    simpl in *. destruct (coord_lead d); [|reflexivity].
    exfalso. clear -Ha.
    assert (L : forall s, String.length (CStr.skip_while coord_lead s)
                          <= String.length s).
    { induction s as [|e s IH]; simpl; [lia|].
      destruct (coord_lead e); simpl; lia. }
    specialize (L a). rewrite Ha in L. simpl in L. lia. }
  rewrite Hskip.
  assert (Htrim : CStr.trim_tail coord_trail (String.append body trail)
                  = body).
  { unfold body. destruct a as [|d a]; simpl.
    - rewrite drop_tail_app by exact Htrail. now rewrite Hb.
    - rewrite drop_tail_app by exact Htrail.
      now rewrite drop_tail_fixed_app. }
  rewrite Htrim. unfold body. now rewrite strchr_app.
Qed.

End Brackets.

(** X3.  [copy_string] of a source that is not [NULL] always yields a
    string: the first [MAX_STR_LEN - 1] characters of the source, which is
    the source itself when it is no longer than that. *)
Theorem copy_string_truncates (s : string) :
  exists t,
    CStr.copy_string (Some s) = Some t /\
    String.length t = Nat.min (String.length s) (MAX_STR_LEN - 1) /\
    String.prefix t s = true /\
    (String.length s <= MAX_STR_LEN - 1 -> t = s).
Proof.
  unfold CStr.copy_string. eexists. split; [reflexivity|].
  generalize (MAX_STR_LEN - 1). intros k. revert s.
  induction k as [|k IH]; intros s.
  - simpl. destruct s; simpl; repeat split; try reflexivity; try lia.
  - destruct s as [|a s]; simpl.
    + repeat split.
    + destruct (IH s) as (Hlen & Hpre & Hid).
      split; [now rewrite Hlen|]. split.
      * destruct (ascii_dec a a); [exact Hpre | congruence].
      * intros Hl. f_equal. apply Hid. lia.
Qed.

Ltac keyword_cases :=
  simpl find_keyword;
  repeat match goal with
         | |- context [String.eqb ?a ?b] =>
             destruct (String.eqb_spec a b) as [->|?]
         end.

(** X4.  [find_condition] and [find_object_type] invert the keyword
    tables: the index found, cast to the enumeration, is the constant [c]
    exactly when the text is the keyword of [c], and [-1] is returned
    exactly for the texts that are not in the table. *)
Theorem keywords_round_trip :
  (forall (s : string) (c : ConditionType),
     ConditionType_of_index (find_condition s) = Some c <->
     s = condition_keyword c) /\
  (forall s : string,
     find_condition s = (-1)%Z <-> ~ In s CONDITION_TYPE_STR) /\
  (forall (s : string) (t : ObjectType),
     ObjectType_of_index (find_object_type s) = Some t <->
     s = object_keyword t) /\
  (forall s : string,
     find_object_type s = (-1)%Z <-> ~ In s OBJECT_TYPE_STR).
Proof.
  unfold find_condition, find_object_type, CONDITION_TYPE_STR,
    OBJECT_TYPE_STR.
  split; [|split; [|split]].
  - intros s c. keyword_cases; destruct c; simpl; split; intros E;
      solve [reflexivity | discriminate | congruence].
  - intros s. keyword_cases; simpl; split; intros E;
      solve [reflexivity | discriminate | intuition congruence].
  - intros s t. keyword_cases; destruct t; simpl; split; intros E;
      solve [reflexivity | discriminate | congruence].
  - intros s. keyword_cases; simpl; split; intros E;
      solve [reflexivity | discriminate | intuition congruence].
Qed.

(** ** The searches of the evaluator *)

Section Searches.
Context `{FloatOps}.

Lemma inner_loop_true (body : Object -> bool) (i : nat) (objs : list Object) :
  forall j0,
  inner_loop body i objs j0 = true <->
  exists j s, objs !! j = Some s /\ j0 + j <> i /\ body s = true.
Proof.
  induction objs as [|o rest IH]; intros j0; simpl.
  - split; [discriminate | intros (j & s & Hj & _); discriminate].
  - rewrite orb_true_iff, IH. split.
    + intros [Hh | (j & s & Hj & Hne & Hb)].
      * destruct (Nat.eqb_spec i j0) as [->|Hne]; [discriminate|].
        exists 0, o. simpl. repeat split; [lia | exact Hh].
      * exists (S j), s. simpl. repeat split; [exact Hj | lia | exact Hb].
    + intros ([|j] & s & Hj & Hne & Hb); simpl in Hj.
      * injection Hj as ->. left.
        destruct (Nat.eqb_spec i j0) as [->|_]; [lia | exact Hb].
      * right. exists j, s. repeat split; [exact Hj | lia | exact Hb].
Qed.

Lemma outer_loop_result (body : nat -> Object -> bool) (objs : list Object) :
  forall i p found_ k,
  outer_loop body objs i p = (found_, k) ->
  (found_ = true ->
   exists o, objs !! (k - i) = Some o /\ i <= k /\ body k o = true) /\
  (forall j o, objs !! j = Some o -> (found_ = true -> i + j < k) ->
               body (i + j) o = false) /\
  (found_ = false -> k = match objs with
                         | [] => p
                         | _ => i + length objs - 1
                         end).
Proof.
  induction objs as [|o rest IH]; intros i p found_ k Hl; simpl in Hl.
  - injection Hl as <- <-. repeat split; discriminate.
  - destruct (body i o) eqn:Eb.
    + injection Hl as <- <-. split; [|split; [|discriminate]].
      * intros _. exists o. rewrite Nat.sub_diag. repeat split; [lia|exact Eb].
      * intros j o' _ Hlt. specialize (Hlt eq_refl). lia.
    + destruct (IH _ _ _ _ Hl) as (Hfound & Hbefore & Hnone).
      split; [|split].
      * intros Hf. destruct (Hfound Hf) as (o' & Ho' & Hle & Hb).
        exists o'. replace (k - i) with (S (k - S i)) by lia.
        repeat split; [exact Ho' | lia | exact Hb].
      * intros [|j] o' Hj Hlt; simpl in Hj.
        -- injection Hj as <-. now rewrite Nat.add_0_r.
        -- replace (i + S j) with (S i + j) by lia.
           apply Hbefore; [exact Hj|]. intros Hf. specialize (Hlt Hf). lia.
      * intros Hf. rewrite (Hnone Hf). simpl.
        destruct rest; simpl; lia.
Qed.

Lemma condition_found_pairs (cond : Condition) (objects : list Object)
    primary primary_index secondary argument_ won :
  cond_type cond = condObjectProximity \/
  cond_type cond = condObjectApproaching \/
  cond_type cond = condObjectRetiring ->
  condition_found cond objects primary primary_index secondary argument_ won
  = outer_loop (fun i p => inner_loop (pair_test cond p) i objects 0)
      objects 0 primary_index.
Proof.
  intros Hk. unfold condition_found, pair_test.
  destruct Hk as [-> | [-> | ->]]; reflexivity.
Qed.

(** X5.  The search of the proximity, approaching and retiring conditions
    stops at the first primary object that has a partner.  When it finds
    one, [primary_index] is the least index of an object with a partner;
    when it finds none, no object has a partner and [primary_index] is
    left at the last index of the scene (untouched for an empty scene). *)
Theorem pair_search_finds_least_index (cond : Condition)
    (objects : list Object) (primary secondary : option Object)
    (primary_index : nat) (argument_ : float) (won found_ : bool) (k : nat) :
  cond_type cond = condObjectProximity \/
  cond_type cond = condObjectApproaching \/
  cond_type cond = condObjectRetiring ->
  condition_found cond objects primary primary_index secondary argument_ won
    = (found_, k) ->
  (found_ = true ->
   has_partner cond objects k /\
   forall k', k' < k -> ~ has_partner cond objects k') /\
  (found_ = false ->
   (forall k', ~ has_partner cond objects k') /\
   k = match objects with
       | [] => primary_index
       | _ => length objects - 1
       end).
Proof.
  intros Hk Hf. rewrite condition_found_pairs in Hf by exact Hk.
  apply outer_loop_result in Hf. destruct Hf as (Hfound & Hbefore & Hnone).
  split.
  - intros ->. destruct (Hfound eq_refl) as (p & Hp & _ & Hb).
    rewrite Nat.sub_0_r in Hp. apply inner_loop_true in Hb.
    destruct Hb as (j & s & Hj & Hne & Hb). split.
    + exists p, j, s. repeat split; [exact Hp | exact Hj | lia | exact Hb].
    + intros k' Hlt (p' & j' & s' & Hp' & Hj' & Hne' & Hb').
      specialize (Hbefore k' p' Hp' (fun _ => Hlt)). simpl in Hbefore.
      assert (Ht : inner_loop (pair_test cond p') k' objects 0 = true).
      { apply inner_loop_true. exists j', s'. repeat split; auto. }
      congruence.
  - intros ->. split.
    + intros k' (p' & j' & s' & Hp' & Hj' & Hne' & Hb').
      assert (Hfalse : inner_loop (pair_test cond p') k' objects 0 = false).
      { apply (Hbefore k' p' Hp'). discriminate. }
      assert (Ht : inner_loop (pair_test cond p') k' objects 0 = true).
      { apply inner_loop_true. exists j', s'. repeat split; auto. }
      congruence.
    + rewrite (Hnone eq_refl). destruct objects; simpl; lia.
Qed.

End Searches.

Section EventKinds.
Context `{FloatOps}.

Lemma condition_found_without_event (cond : Condition)
    (objects : list Object) (primary_index : nat) (argument_ : float) :
  event_kind (cond_type cond) = true ->
  condition_found cond objects None primary_index None argument_ false
  = (false, primary_index).
Proof.
  unfold condition_found. destruct (cond_type cond); simpl;
    solve [discriminate | reflexivity].
Qed.

(** X6.  The conditions on events (win, attack, damage, destroy) do not
    hold when the test is called without an object of an event and for a
    game that is not won.  The AND operand of a condition is tested in this
    way, so a condition whose AND operand is of such a kind never holds. *)
Theorem event_kinds_need_an_event :
  (forall (cond : Condition) (objects : list Object) (primary_index : nat)
          (argument_ : float),
     event_kind (cond_type cond) = true ->
     cyberiada_test_condition cond objects None primary_index None argument_
       false = (false, primary_index)) /\
  (forall (cond second : Condition) (objects : list Object)
          (primary secondary : option Object) (primary_index : nat)
          (argument_ : float) (won : bool),
     second_cond cond = Some second ->
     event_kind (cond_type second) = true ->
     fst (cyberiada_test_condition cond objects primary primary_index
            secondary argument_ won) = false).
Proof.
  assert (Hfirst : forall (cond : Condition) (objects : list Object)
                     (primary_index : nat) (argument_ : float),
             event_kind (cond_type cond) = true ->
             cyberiada_test_condition cond objects None primary_index None
               argument_ false = (false, primary_index)).
  { intros cond objects primary_index argument_ Hk.
    rewrite test_condition_unfold, condition_found_without_event by exact Hk.
    reflexivity. }
  split; [exact Hfirst|].
  intros cond second objects primary secondary primary_index argument_ won
    Hs Hk.
  rewrite test_condition_unfold.
  destruct (condition_found cond objects primary primary_index secondary
              argument_ won) as [[] p]; [|reflexivity].
  rewrite Hs, Hfirst by exact Hk. reflexivity.
Qed.

Lemma condition_found_search (cond : Condition) (objects : list Object)
    primary primary_index primary_index' secondary argument_ won :
  search_kind (cond_type cond) = true -> objects <> [] ->
  condition_found cond objects primary primary_index secondary argument_ won
  = condition_found cond objects primary primary_index' secondary argument_
      won.
Proof.
  intros Hk Hne. unfold condition_found.
  destruct objects as [|o rest]; [congruence|].
  destruct (cond_type cond); try discriminate; simpl;
    match goal with
    | |- (if ?b then _ else _) = _ => destruct b; reflexivity
    end.
Qed.

(** X7.  When the first condition of a task searches the scene (proxy,
    approach, retire, move) and the scene is not empty, the matrix after
    [cyberiada_test_all_conditions] does not depend on the index of the
    object of the event: the search overwrites [primary_index] before a
    later condition is credited to it. *)
Theorem search_condition_hides_event_index (task : UrsulaCheckerTask)
    (objects : list Object) (m : Matrix) (primary secondary : option Object)
    (primary_index primary_index' : nat) (argument_ : float) (won : bool)
    (first : Condition) (rest : list Condition) :
  conditions task = first :: rest ->
  search_kind (cond_type first) = true ->
  objects <> [] ->
  cyberiada_test_all_conditions task objects m primary primary_index
    secondary argument_ won =
  cyberiada_test_all_conditions task objects m primary primary_index'
    secondary argument_ won.
Proof.
  intros Hc Hk Hne. unfold cyberiada_test_all_conditions. rewrite Hc.
  simpl test_all_loop. f_equal. f_equal. unfold test_all_body.
  rewrite !test_condition_unfold.
  rewrite (condition_found_search first objects primary primary_index
             primary_index') by assumption.
  reflexivity.
Qed.

End EventKinds.

(** ** The shape of the matrix *)

Lemma credit_all_other_row (m : Matrix) (n i count a b : nat) :
  a <> i -> cell (credit_all m n i count) a b = cell m a b.
Proof.
  intros Ha. induction count as [|count IH]; [reflexivity|].
  rewrite credit_all_S, credit_other by (left; exact Ha). exact IH.
Qed.

Lemma credit_all_shape (m : Matrix) (total n i count : nat) :
  matrix_shape m total -> matrix_shape (credit_all m n i count) total.
Proof.
  intros Hm. induction count as [|count IH]; [exact Hm|].
  rewrite credit_all_S. now apply credit_shape.
Qed.

Section MatrixShape.
Context `{FloatOps}.

Lemma test_all_body_shape (n : nat) (objects : list Object)
    primary secondary argument_ won (i : nat) (cond : Condition)
    (st : list (list bool) * nat) (total : nat) :
  matrix_shape (fst st) total ->
  matrix_shape
    (fst (test_all_body n objects primary secondary argument_ won i cond st))
    total /\
  forall a b, a <> i ->
    cell (fst (test_all_body n objects primary secondary argument_ won i
                 cond st)) a b = cell (fst st) a b.
Proof.
  intros Hm. destruct st as [m p]. unfold test_all_body.
  destruct (cyberiada_test_condition cond objects primary p secondary
              argument_ won) as [[] k]; simpl; [|split; [exact Hm|reflexivity]].
  destruct (cond_type cond); simpl; split;
    solve [ apply credit_shape, Hm | apply credit_all_shape, Hm
          | intros a b Ha; apply credit_other; left; exact Ha
          | intros a b Ha; apply credit_all_other_row; exact Ha ].
Qed.

Lemma test_all_loop_shape (n : nat) (objects : list Object)
    primary secondary argument_ won (conds : list Condition) (total : nat) :
  forall (i : nat) (st : list (list bool) * nat),
  matrix_shape (fst st) total ->
  matrix_shape
    (fst (test_all_loop n objects primary secondary argument_ won conds i st))
    total /\
  forall a b, (a < i \/ i + length conds <= a) ->
    cell (fst (test_all_loop n objects primary secondary argument_ won conds
                 i st)) a b = cell (fst st) a b.
Proof.
  induction conds as [|cond rest IH]; intros i st Hm; simpl.
  - split; [exact Hm | reflexivity].
  - destruct (test_all_body_shape n objects primary secondary argument_ won
                i cond st total Hm) as [Hs Hrow].
    destruct (IH (S i) _ Hs) as [Hs' Hrows]. split; [exact Hs'|].
    intros a b Ha. rewrite Hrows by lia. apply Hrow. lia.
Qed.

(** X8.  [cyberiada_test_all_conditions] keeps the shape of the matrix,
    clears no cell, and leaves the rows that have no condition as they
    are. *)
Theorem test_all_conditions_keeps_shape (task : UrsulaCheckerTask)
    (objects : list Object) (m : Matrix) (primary secondary : option Object)
    (primary_index : nat) (argument_ : float) (won : bool) (total : nat) :
  matrix_shape m total ->
  matrix_shape
    (cyberiada_test_all_conditions task objects m primary primary_index
       secondary argument_ won) total /\
  (forall a b, cell m a b = true ->
     cell (cyberiada_test_all_conditions task objects m primary
             primary_index secondary argument_ won) a b = true) /\
  forall a b, length (conditions task) <= a ->
    cell (cyberiada_test_all_conditions task objects m primary primary_index
            secondary argument_ won) a b = cell m a b.
Proof.
  intros Hm. unfold cyberiada_test_all_conditions.
  destruct (test_all_loop_shape (length (conditions task)) objects primary
              secondary argument_ won (conditions task) total 0
              (m, primary_index) Hm) as [Hs Hrows].
  split; [exact Hs|]. split.
  - intros a b Hc. now apply test_all_loop_mono.
  - intros a b Ha. apply Hrows. right. simpl. lia.
Qed.

End MatrixShape.

(** ** What a run of the checker keeps *)

Ltac option_cases H :=
  repeat (match type of H with
          | context [mbind _ ?o] =>
              let E := fresh "E" in destruct o eqn:E; simpl in H
          | context [let '(_, _) := ?p in _] => destruct p; simpl in H
          | context [if ?b then _ else _] =>
              let E := fresh "E" in destruct b eqn:E; simpl in H
          | context [match ?o with Ok _ => _ | Error _ => _ end] =>
              let E := fresh "E" in destruct o eqn:E; simpl in H
          end; try discriminate H).

Section RunInvariant.
Context `{FloatOps}.

Lemma same_but_position_refl (o : Object) : same_but_position o o.
Proof. repeat split. Qed.

Lemma same_but_position_trans (a b c : Object) :
  same_but_position a b -> same_but_position b c -> same_but_position a c.
Proof.
  intros (A1 & A2 & A3 & A4 & A5 & A6 & A7) (B1 & B2 & B3 & B4 & B5 & B6 & B7).
  repeat split; congruence.
Qed.

Lemma Forall2_same_refl (objs : list Object) :
  Forall2 same_but_position objs objs.
Proof.
  induction objs; constructor; [apply same_but_position_refl | assumption].
Qed.

Lemma Forall2_same_trans (a b c : list Object) :
  Forall2 same_but_position a b -> Forall2 same_but_position b c ->
  Forall2 same_but_position a c.
Proof.
  intros Hab. revert c. induction Hab as [|x y l k Hxy Hlk IH]; intros c Hbc.
  - inversion Hbc. constructor.
  - inversion Hbc as [|y' z k' m Hyz Hkm]; subst. constructor.
    + eapply same_but_position_trans; eauto.
    + now apply IH.
Qed.

Lemma Forall2_same_insert (objs : list Object) (k : nat) (o o' : Object) :
  objs !! k = Some o -> same_but_position o o' ->
  Forall2 same_but_position objs (<[k := o']> objs).
Proof.
  revert k. induction objs as [|a rest IH]; intros k Hk Hs; [discriminate|].
  destruct k as [|k]; simpl in *.
  - injection Hk as ->. constructor; [exact Hs | apply Forall2_same_refl].
  - constructor; [apply same_but_position_refl | now apply IH].
Qed.

Lemma position_entry_same (entry : string) (objs objs' : list Object) :
  position_entry entry objs = Some objs' ->
  Forall2 same_but_position objs objs'.
Proof.
  unfold position_entry. intros He. option_cases He.
  injection He as <-. eapply Forall2_same_insert; [eassumption|].
  repeat split.
Qed.

Lemma position_loop_same (fuel : nat) :
  forall (s : string) (objs objs' : list Object),
  position_loop fuel s objs = EntriesDone objs' ->
  Forall2 same_but_position objs objs'.
Proof.
  induction fuel as [|fuel IH]; intros s objs objs' Hl; simpl in Hl;
    [discriminate|].
  destruct (CStr.is_empty s).
  - injection Hl as <-. apply Forall2_same_refl.
  - destruct (first_entry s) as [entry rest].
    destruct (position_entry entry objs) as [objs1|] eqn:E; [|discriminate].
    eapply Forall2_same_trans; [eapply position_entry_same, E|].
    eapply IH, Hl.
Qed.

Lemma scene_objects_same (objs objs' : list Object) :
  scene_objects objs -> Forall2 same_but_position objs objs' ->
  scene_objects objs'.
Proof.
  intros (rows & pl & -> & Hrows & Hpl) Hs.
  apply Forall2_app_inv_l in Hs.
  destruct Hs as (rows' & last' & Hr & Hl & ->).
  inversion Hl as [|pl0 pl' l0 l0' Hp Hnil]; subst. inversion Hnil; subst.
  exists rows', pl'. split; [reflexivity|]. split.
  - clear -Hrows Hr. induction Hr as [|a b l k Hab Hlk IH]; [constructor|].
    inversion Hrows; subst. constructor; [|now apply IH].
    destruct Hab as (A1 & A2 & A3 & _).
    match goal with Hrow : row_object a |- _ =>
      destruct Hrow as (R1 & R2 & R3) end.
    repeat split; congruence.
  - destruct Hp as (A1 & A2 & A3 & _). destruct Hpl as (P1 & P2 & P3).
    repeat split; congruence.
Qed.

Lemma same_task_refl (t : UrsulaCheckerTask) : same_task t t.
Proof.
  repeat split.
  - induction (base_objects t); constructor; [now left | assumption].
  - induction (object_reqs t); constructor; [repeat split | assumption].
Qed.

End RunInvariant.

Section RunInvariantSteps.
Context `{FloatOps}.

Lemma copy_string_nonempty (s : string) :
  CStr.is_empty s = false -> nonempty (CStr.copy_string (Some s)) = true.
Proof.
  destruct s as [|a s]; [discriminate|]. intros _.
  unfold CStr.copy_string. change (MAX_STR_LEN - 1) with (S 4094).
  reflexivity.
Qed.

Lemma log_object_type_not_player (s : string) :
  log_object_type s <> otPlayer.
Proof.
  unfold log_object_type.
  destruct (String.eqb s LOG_MOB); [discriminate|].
  destruct (String.eqb s LOG_INT_OBJECT); discriminate.
Qed.

Lemma parse_object_row_row (buffer : string) (slot o : Object) :
  parse_object_row buffer slot = Some o -> row_object o.
Proof.
  unfold parse_object_row. intros Hp. option_cases Hp.
  injection Hp as <-. split; [apply log_object_type_not_player|].
  split; simpl; now apply copy_string_nonempty.
Qed.

Lemma mark_base_objects_same (o : Object) (bases0 bases : list Object) :
  Forall2 same_base bases0 bases ->
  Forall2 same_base bases0 (mark_base_objects o bases).
Proof.
  induction 1 as [|b0 b l0 l Hb Hl IH]; simpl; constructor; [|exact IH].
  destruct Hb as [-> | ->].
  - destruct (base_matches b0 o && negb (valid b0)); [now right | now left].
  - simpl. rewrite andb_false_r. now right.
Qed.

Lemma count_requirements_same (o : Object) (reqs0 reqs reqs' : list ObjectReq) :
  Forall2 same_requirement reqs0 reqs ->
  count_requirements o reqs = Some reqs' ->
  Forall2 same_requirement reqs0 reqs'.
Proof.
  intros Hs. revert reqs'.
  induction Hs as [|r0 r l0 l Hr Hl IH]; intros reqs' Hc; simpl in Hc.
  - injection Hc as <-. constructor.
  - destruct (count_requirement o r) as [r'|] eqn:Er; [|discriminate].
    destruct (count_requirements o l) as [l'|]; [|discriminate].
    simpl in Hc. injection Hc as <-. constructor; [|now apply IH].
    unfold count_requirement in Er.
    destruct (ObjectType_eqb (req_type r) (type o)).
    + destruct (CStr.strcmp (req_class r) (class o)) as [z|]; [|discriminate].
      injection Er as <-. destruct (Z.eqb z 0); exact Hr.
    + injection Er as <-. exact Hr.
Qed.

Lemma check_objects_same (objs : list Object) :
  forall (bases0 bases bases' : list Object)
         (reqs0 reqs reqs' : list ObjectReq),
  Forall2 same_base bases0 bases ->
  Forall2 same_requirement reqs0 reqs ->
  check_objects objs bases reqs = Some (bases', reqs') ->
  Forall2 same_base bases0 bases' /\ Forall2 same_requirement reqs0 reqs'.
Proof.
  induction objs as [|o rest IH];
    intros bases0 bases bases' reqs0 reqs reqs' Hb Hr Hc; simpl in Hc.
  - injection Hc as <- <-. now split.
  - destruct (count_requirements o reqs) as [reqs1|] eqn:E; [|discriminate].
    simpl in Hc. eapply IH; [| |exact Hc].
    + now apply mark_base_objects_same.
    + eapply count_requirements_same; eauto.
Qed.

Lemma zero_matrix_shape (count : nat) : matrix_shape (zero_matrix count) count.
Proof.
  unfold zero_matrix, matrix_shape. split.
  - apply length_replicate.
  - apply Forall_forall. intros row Hrow.
    apply elem_of_replicate in Hrow. destruct Hrow as [-> _].
    apply length_replicate.
Qed.

Lemma not_state (st : Locals) (c d : ascii) :
  state st = c -> c <> d -> state st <> d.
Proof. congruence. Qed.

Lemma close_scene_invariant (t : UrsulaCheckerTask) (st : Locals)
    (objs : list Object) :
  run_invariant t st -> state st = "o"%char -> objects st = Some objs ->
  control_invariant t (close_scene st objs).
Proof.
  intros Hinv Hs Ho.
  assert (Hnl : state st <> "l"%char) by (rewrite Hs; discriminate).
  pose proof (inv_fresh t st Hinv Hnl) as Ht.
  pose proof (inv_length t st Hinv objs Ho) as Hlen.
  pose proof (inv_rows t st Hinv objs Ho Hnl) as Hrows.
  unfold close_scene.
  destruct (Nat.eqb_spec (i st) (objects_count st - 1)) as [Hi|Hi]; simpl;
    [|apply (inv_task t st Hinv)].
  destruct (objs !! i st) as [slot|] eqn:Eslot; [|exact I].
  destruct (check_objects _ _ _) as [[bases reqs]|] eqn:Ec; [|exact I].
  destruct (check_objects_same _ (base_objects t) _ _ (object_reqs t) _ _
              (proj1 (proj2 (proj2 (same_task_refl t))))
              (proj2 (proj2 (proj2 (same_task_refl t))))
              ltac:(rewrite <- Ht; exact Ec)) as [Hb Hr].
  assert (Hsame : same_task t (set_task_checks (task st) bases reqs)).
  { rewrite Ht. repeat split; assumption. }
  destruct (existsb _ bases); [exact Hsame|].
  destruct (existsb requirement_failed reqs); [exact Hsame|].
  simpl. constructor; simpl.
  1: exact Hsame.
  1: congruence.
  2: congruence.
  2: congruence.
  - intros objs' [= <-]. rewrite length_insert. exact Hlen.
  - intros _. eexists _, _. split; [reflexivity|]. split; [reflexivity|].
    split; [|apply zero_matrix_shape].
    apply lookup_lt_Some in Eslot as Hlt.
    exists (take (i st) objs), (add_player (player_pos st) slot).
    split; [|split; [exact Hrows | repeat split]].
    rewrite <- (take_drop (i st) objs) at 1.
    rewrite insert_app_r_alt by (rewrite length_take; lia).
    rewrite length_take, Nat.min_l, Nat.sub_diag by lia. f_equal.
    destruct (drop (i st) objs) as [|d1 [|d2 ds]] eqn:Ed.
    + apply (f_equal length) in Ed. rewrite length_drop in Ed. simpl in Ed. lia.
    + reflexivity.
    + apply (f_equal length) in Ed. rewrite length_drop in Ed. simpl in Ed. lia.
Qed.

Lemma scene_step_invariant (t : UrsulaCheckerTask) (st : Locals)
    (buffer : string) :
  run_invariant t st -> state st = "o"%char ->
  control_invariant t (scene_step st buffer).
Proof.
  intros Hinv Hs.
  assert (Hnl : state st <> "l"%char) by (rewrite Hs; discriminate).
  pose proof (inv_fresh t st Hinv Hnl) as Ht.
  pose proof (inv_no_matrix t st Hinv Hnl) as Hm.
  unfold scene_step. destruct (objects st) as [objs|] eqn:Ho.
  - destruct (CStr.starts_with LOG_HLINE buffer);
      [now apply close_scene_invariant|].
    pose proof (inv_length t st Hinv objs Ho) as Hlen.
    pose proof (inv_rows t st Hinv objs Ho Hnl) as Hrows.
    destruct (objs !! i st) as [slot|] eqn:Eslot.
    + destruct (parse_object_row buffer slot) as [o|] eqn:Ep;
        [|apply (inv_task t st Hinv)].
      simpl. constructor; simpl.
      1: apply (inv_task t st Hinv).
      1: intros _; exact Ht.
      3: intros _; exact Hm.
      3: congruence.
      * intros objs' [= <-]. now rewrite length_insert.
      * intros objs' [= <-] _. apply lookup_lt_Some in Eslot as Hlt.
        rewrite (take_S_r _ _ o) by (now apply list_lookup_insert_eq).
        rewrite take_insert_ge by lia.
        apply Forall_app. split; [exact Hrows|].
        constructor; [|constructor]. eapply parse_object_row_row, Ep.
    + destruct (so_field buffer) as [[f r]|]; [|apply (inv_task t st Hinv)].
      destruct (CStr.is_empty f); [apply (inv_task t st Hinv) | exact I].
  - destruct (CStr.starts_with LOG_HLINE buffer); simpl.
    + constructor; simpl.
      1: apply (inv_task t st Hinv).
      1: intros _; exact Ht.
      3: intros _; exact Hm.
      3: discriminate.
      * intros objs [= <-]. simpl. now rewrite length_replicate.
      * intros objs _ _. constructor.
    + constructor; simpl.
      1: apply (inv_task t st Hinv).
      1: intros _; exact Ht.
      3: intros _; exact Hm.
      3: congruence.
      * discriminate.
      * discriminate.
Qed.

End RunInvariantSteps.

Section EventSteps.
Context `{FloatOps}.

Lemma test_all_good (task : UrsulaCheckerTask) (objs : list Object)
    (m : Matrix) primary primary_index secondary argument_ won (total : nat) :
  matrix_shape m total ->
  matrix_shape (cyberiada_test_all_conditions task objs m primary
                  primary_index secondary argument_ won) total /\
  forall a b, cell m a b = true ->
    cell (cyberiada_test_all_conditions task objs m primary primary_index
            secondary argument_ won) a b = true.
Proof.
  intros Hm. unfold cyberiada_test_all_conditions. split.
  - now apply test_all_loop_shape.
  - intros a b Hc. now apply test_all_loop_mono.
Qed.

Lemma event_result_successor (st : Locals) (objs : list Object) (m : Matrix)
    (r : option (list (list bool))) :
  objects st = Some objs -> cond_matrix st = Some m ->
  (forall m', r = Some m' ->
     matrix_shape m' (objects_count st) /\
     forall a b, cell m a b = true -> cell m' a b = true) ->
  match event_result st objs r with
  | Continue st' => event_successor st st'
  | Break st' | GotoErrorLog st' => st' = st
  | Rewind _ => False
  | Undefined => True
  end.
Proof.
  intros Ho Hm Hr. unfold event_result. destruct r as [m'|]; [|reflexivity].
  destruct (Hr m' eq_refl) as [Hs Hmono].
  right. exists objs, objs, m, m'. split; [exact Ho|]. split; [exact Hm|].
  split; [reflexivity|]. split; [apply Forall2_same_refl|].
  split; assumption.
Qed.

Lemma dispatch_event_successor (st : Locals) (objs : list Object)
    (m : Matrix) (s : string) :
  objects st = Some objs -> cond_matrix st = Some m ->
  matrix_shape m (objects_count st) ->
  match dispatch_event st s with
  | Continue st' => event_successor st st'
  | Break st' | GotoErrorLog st' => st' = st
  | Rewind _ => False
  | Undefined => True
  end.
Proof.
  intros Ho Hm Hshape. unfold dispatch_event, with_scene. rewrite Ho, Hm.
  destruct (CStr.contains LOG_POSITION s).
  { destruct (position_loop _ s objs) as [objs'| |] eqn:El;
      [|reflexivity|exact I].
    right. eexists objs, objs', m, _. split; [exact Ho|]. split; [exact Hm|].
    split; [reflexivity|]. split; [eapply position_loop_same, El|].
    now apply test_all_good. }
  destruct (CStr.starts_with LOG_ATTACK s).
  { apply (event_result_successor st objs m); try assumption.
    intros m' Hr. unfold attack_event in Hr. option_cases Hr.
    injection Hr as <-. now apply test_all_good. }
  destruct (CStr.starts_with LOG_ATTACKED s).
  { apply (event_result_successor st objs m); try assumption.
    intros m' Hr. unfold attacked_event in Hr. option_cases Hr.
    injection Hr as <-. now apply test_all_good. }
  destruct (CStr.contains LOG_DIED s).
  { apply (event_result_successor st objs m); try assumption.
    intros m' Hr. unfold died_event in Hr. option_cases Hr.
    injection Hr as <-. now apply test_all_good. }
  destruct (CStr.starts_with LOG_GAME_OVER s).
  { destruct (negb _); [now left|].
    right. eexists objs, objs, m, _. split; [exact Ho|]. split; [exact Hm|].
    split; [reflexivity|]. split; [apply Forall2_same_refl|].
    now apply test_all_good. }
  destruct (CStr.starts_with LOG_SESSION_ENDED s); reflexivity.
Qed.

Lemma event_step_successor (st : Locals) (objs : list Object) (m : Matrix)
    (buffer : string) :
  objects st = Some objs -> cond_matrix st = Some m ->
  matrix_shape m (objects_count st) ->
  match event_step st buffer with
  | Continue st' => event_successor st st'
  | Break st' | GotoErrorLog st' => st' = st
  | Rewind _ => False
  | Undefined => True
  end.
Proof.
  intros Ho Hm Hshape. unfold event_step.
  destruct buffer as [|c s]; [now left|].
  destruct (negb _); [now left|].
  destruct (CStr.strchr s TIME_FINISH_CHAR) as [[time tail]|]; [|reflexivity].
  now apply dispatch_event_successor with objs m.
Qed.

Lemma event_successor_invariant (t : UrsulaCheckerTask) (st st' : Locals) :
  run_invariant t st -> state st = "l"%char -> event_successor st st' ->
  run_invariant t st' /\ state st' = "l"%char.
Proof.
  intros Hinv Hl [-> | (objs & objs' & m & m' & Ho & Hm & -> & Hs & Hsh & _)];
    [now split|].
  split; [|exact Hl]. constructor; simpl.
  - apply (inv_task t st Hinv).
  - congruence.
  - intros o [= <-]. apply Forall2_length in Hs. rewrite <- Hs.
    apply (inv_length t st Hinv objs Ho).
  - congruence.
  - congruence.
  - intros _. exists objs', m'. repeat split; try apply Hsh.
    destruct (inv_scene t st Hinv Hl) as (objs0 & m0 & Ho0 & _ & Hsc & _).
    rewrite Ho in Ho0. injection Ho0 as <-.
    now apply scene_objects_same with objs.
Qed.

Lemma log_step_invariant (t : UrsulaCheckerTask) (st : Locals)
    (buffer : string) :
  run_invariant t st -> control_invariant t (log_step st buffer).
Proof.
  intros Hinv. unfold log_step.
  destruct (Ascii.eqb_spec (state st) "p") as [Hp|Hnp].
  { assert (Hnl : state st <> "l"%char) by (rewrite Hp; discriminate).
    destruct (CStr.starts_with _ buffer); [|exact Hinv].
    destruct (parse_coordinates _) as [p|]; [|apply (inv_task t st Hinv)].
    simpl. constructor; simpl.
    - apply (inv_task t st Hinv).
    - intros _. apply (inv_fresh t st Hinv Hnl).
    - apply (inv_length t st Hinv).
    - intros objs Ho _. apply (inv_rows t st Hinv objs Ho Hnl).
    - intros _. apply (inv_no_matrix t st Hinv Hnl).
    - discriminate. }
  destruct (Ascii.eqb_spec (state st) "s") as [Hs|Hns].
  { assert (Hnl : state st <> "l"%char) by (rewrite Hs; discriminate).
    destruct (CStr.starts_with _ buffer); [|exact Hinv].
    simpl. constructor; simpl.
    - apply (inv_task t st Hinv).
    - intros _. apply (inv_fresh t st Hinv Hnl).
    - apply (inv_length t st Hinv).
    - intros objs Ho _. apply (inv_rows t st Hinv objs Ho Hnl).
    - intros _. apply (inv_no_matrix t st Hinv Hnl).
    - discriminate. }
  destruct (Ascii.eqb_spec (state st) "o") as [Ho|Hno];
    [now apply scene_step_invariant|].
  destruct (Ascii.eqb_spec (state st) "l") as [Hl|Hnl];
    [|apply (inv_task t st Hinv)].
  destruct (inv_scene t st Hinv Hl) as (objs & m & Hobjs & Hm & _ & Hshape).
  pose proof (event_step_successor st objs m buffer Hobjs Hm Hshape) as Hstep.
  destruct (event_step st buffer) as [st'|st'|st'|st'|]; simpl.
  - now apply (event_successor_invariant t st st').
  - now subst.
  - destruct Hstep.
  - subst. apply (inv_task t st Hinv).
  - exact I.
Qed.

Lemma read_lines_invariant (t : UrsulaCheckerTask) (lines : list string) :
  forall st, run_invariant t st -> control_invariant t (read_lines lines st).
Proof.
  induction lines as [|buffer rest IH]; intros st Hinv; simpl; [exact Hinv|].
  pose proof (log_step_invariant t st buffer Hinv) as Hstep.
  destruct (log_step st buffer) as [st'|st'|st'|st'|]; simpl in *;
    try assumption.
  now apply IH.
Qed.

Lemma initial_invariant (t : UrsulaCheckerTask) :
  run_invariant t (initial_locals t).
Proof.
  constructor; simpl; try discriminate; try reflexivity.
  apply same_task_refl.
Qed.

Lemma run_task_invariant (t : UrsulaCheckerTask) (log : list string) :
  control_invariant t (run_task t log).
Proof.
  unfold run_task, read_log.
  pose proof (read_lines_invariant t log _ (initial_invariant t)) as H1.
  destruct (read_lines log (initial_locals t)) as [st|st|st|st|] eqn:E;
    try exact H1.
  now apply read_lines_invariant.
Qed.

End EventSteps.

(** ** The call as a whole *)

Section Calls.
Context `{FloatOps}.

Lemma find_task_spec (tasks : list UrsulaCheckerTask) (task_name : string) :
  forall (k0 k : nat) (t : UrsulaCheckerTask),
  find_task tasks task_name k0 = Some (k, t) ->
  k0 <= k /\ tasks !! (k - k0) = Some t /\ name t = task_name /\
  forall j t', j < k - k0 -> tasks !! j = Some t' -> name t' <> task_name.
Proof.
  induction tasks as [|t0 rest IH]; intros k0 k t; simpl; [discriminate|].
  destruct (String.eqb_spec (name t0) task_name) as [Hn|Hn].
  - intros [= <- <-]. rewrite Nat.sub_diag. repeat split; try assumption.
    + lia.
    + intros j t' Hj. lia.
  - intros Hf. destruct (IH _ _ _ Hf) as (Hk & Hl & Ht & Hfirst).
    split; [lia|]. replace (k - k0) with (S (k - S k0)) by lia.
    split; [exact Hl|]. split; [exact Ht|].
    intros [|j] t' Hj; simpl.
    + now intros [= <-].
    + apply Hfirst. lia.
Qed.

Lemma find_task_none (tasks : list UrsulaCheckerTask) (task_name : string) :
  forall k0,
  Forall (fun t => name t <> task_name) tasks ->
  find_task tasks task_name k0 = None.
Proof.
  induction tasks as [|t0 rest IH]; intros k0 Hall; simpl; [reflexivity|].
  apply Forall_cons in Hall as [Hn Hrest].
  destruct (String.eqb_spec (name t0) task_name) as [E|_]; [contradiction|].
  now apply IH.
Qed.

Lemma find_task_first (pre post : list UrsulaCheckerTask)
    (t : UrsulaCheckerTask) (task_name : string) :
  forall k0,
  Forall (fun t' => name t' <> task_name) pre -> name t = task_name ->
  find_task (pre ++ t :: post) task_name k0 = Some (k0 + length pre, t).
Proof.
  induction pre as [|t0 pre IH]; intros k0 Hall Hn; simpl.
  - rewrite <- Hn, String.eqb_refl. now rewrite Nat.add_0_r.
  - apply Forall_cons in Hall as [Hn0 Hrest].
    destruct (String.eqb_spec (name t0) task_name) as [E|_]; [contradiction|].
    rewrite IH by assumption. f_equal. f_equal. lia.
Qed.

Lemma run_task_left (t t' : UrsulaCheckerTask) (log : list string) :
  left_task (run_task t log) = Some t' -> same_task t t'.
Proof.
  pose proof (run_task_invariant t log) as Hinv.
  destruct (run_task t log) as [st|st|st|st|]; simpl; intros [= <-];
    simpl in Hinv; try apply (inv_task t st Hinv). exact Hinv.
Qed.

Lemma Forall2_same_task_refl (ts : list UrsulaCheckerTask) :
  Forall2 same_task ts ts.
Proof. induction ts; constructor; [apply same_task_refl | assumption]. Qed.

Lemma Forall2_same_task_insert (ts : list UrsulaCheckerTask) (k : nat)
    (t t' : UrsulaCheckerTask) :
  ts !! k = Some t -> same_task t t' -> Forall2 same_task ts (<[k := t']> ts).
Proof.
  revert k. induction ts as [|a ts IH]; intros [|k] Hk Hs; simpl in *;
    try discriminate.
  - injection Hk as ->. constructor; [exact Hs | apply Forall2_same_task_refl].
  - constructor; [apply same_task_refl | now apply IH].
Qed.

(** X9.  A call of the checker keeps the secret and changes, in the tasks,
    at most the marks [valid] of base objects, which it only sets, and the
    counters [found] of requirements; a task of another name is left as
    it is. *)
Theorem check_log_keeps_the_task_descriptions
    (checker : UrsulaLogCheckerData) (task_name : string)
    (log : list string) :
  let checker' :=
    fst (cyberiada_ursula_log_checker_check_log checker task_name log) in
  secret checker' = secret checker /\
  Forall2 same_task (tasks checker) (tasks checker') /\
  forall k t, tasks checker !! k = Some t -> name t <> task_name ->
              tasks checker' !! k = Some t.
Proof.
  unfold cyberiada_ursula_log_checker_check_log.
  destruct (find_task (tasks checker) task_name 0) as [[k t]|] eqn:Ef; simpl.
  2: { split; [reflexivity|]. split; [apply Forall2_same_task_refl|]. tauto. }
  destruct (find_task_spec _ _ _ _ _ Ef) as (_ & Hk & Hn & _).
  rewrite Nat.sub_0_r in Hk.
  pose proof (run_task_left t) as Hleft. specialize (fun t' => Hleft t' log).
  assert (Hstore : forall t', same_task t t' ->
            secret (store_task checker k t') = secret checker /\
            Forall2 same_task (tasks checker) (tasks (store_task checker k t')) /\
            forall k' t0, tasks checker !! k' = Some t0 -> name t0 <> task_name ->
                          tasks (store_task checker k t') !! k' = Some t0).
  { intros t' Hs. simpl. split; [reflexivity|].
    split; [now apply Forall2_same_task_insert with t|].
    intros k' t0 Hk' Hn'. rewrite list_lookup_insert_ne; [exact Hk'|].
    intros ->. rewrite Hk in Hk'. injection Hk' as <-. contradiction. }
  destruct (run_task t log) as [st|st|st|st|]; simpl in *.
  - now apply Hstore, Hleft.
  - now apply Hstore, Hleft.
  - split; [reflexivity|]. split; [apply Forall2_same_task_refl|]. tauto.
  - now apply Hstore, Hleft.
  - split; [reflexivity|]. split; [apply Forall2_same_task_refl|]. tauto.
Qed.

Lemma result_loop_range (m : Matrix) (count c : nat) :
  c <= MAX_CONDITIONS -> (0 <= result_loop m count c < 128)%Z.
Proof.
  intros Hc. destruct (result_loop_bits m count c Hc) as [Hpos Hbits].
  split; [exact Hpos|]. change 128%Z with (2 ^ Z.of_nat 7)%Z.
  apply small_of_bits; [exact Hpos|]. intros k Hk.
  replace k with (Z.of_nat (Z.to_nat k)) by lia.
  rewrite Hbits. apply andb_false_iff. left. apply Nat.ltb_ge.
  unfold MAX_CONDITIONS in Hc. lia.
Qed.

Lemma final_result_range (st : Locals) :
  length (conditions (task st)) <= MAX_CONDITIONS ->
  (0 <= final_result st < 128)%Z.
Proof.
  intros Hc. unfold final_result, result_byte.
  destruct (cond_matrix st); [now apply result_loop_range | lia].
Qed.

(** X10.  For tasks of at most [MAX_CONDITIONS] conditions a call that
    returns gives either [URSULA_CHECK_NO_ERROR] and a result from 0 to
    127, or [URSULA_CHECK_BAD_PARAMETERS] and the result 0. *)
Theorem result_fits_seven_bits (checker : UrsulaLogCheckerData)
    (task_name : string) (log : list string) (code res : Z) :
  Forall (fun t => length (conditions t) <= MAX_CONDITIONS)
         (tasks checker) ->
  snd (cyberiada_ursula_log_checker_check_log checker task_name log) =
    Returned code res ->
  (code = URSULA_CHECK_NO_ERROR /\ (0 <= res < 128)%Z) \/
  (code = URSULA_CHECK_BAD_PARAMETERS /\ res = URSULA_CHECK_RESULT_ERROR).
Proof.
  intros Hall. unfold cyberiada_ursula_log_checker_check_log.
  destruct (find_task (tasks checker) task_name 0) as [[k t]|] eqn:Ef; simpl.
  2: { intros [= <- <-]. now right. }
  destruct (find_task_spec _ _ _ _ _ Ef) as (_ & Hk & _).
  rewrite Nat.sub_0_r in Hk.
  assert (Ht : length (conditions t) <= MAX_CONDITIONS).
  { rewrite List.Forall_forall in Hall. apply Hall.
    apply list_elem_of_In. now apply list_elem_of_lookup_2 with k. }
  pose proof (run_task_invariant t log) as Hinv.
  destruct (run_task t log) as [st|st|st|st|]; simpl in *;
    intros [= <- <-]; try (now right); left; (split; [reflexivity|]);
    apply final_result_range;
    destruct (inv_task t st Hinv) as (_ & -> & _); exact Ht.
Qed.

(** X11.  When a run ends in the state of the events, the objects are the
    rows of the scene followed by the player: the objects of the rows are
    not of type player and have a class and an id that are not empty, the
    player has neither, the count is the number of rows plus one, and the
    matrix has [MAX_CONDITIONS] rows of that many cells. *)
Theorem events_see_a_well_formed_scene (t : UrsulaCheckerTask)
    (log : list string) (st : Locals) :
  run_task t log = Continue st \/ run_task t log = Break st ->
  state st = "l"%char ->
  exists rows pl m,
    objects st = Some (rows ++ [pl])%list /\
    objects_count st = S (length rows) /\
    Forall row_object rows /\ player_object pl /\
    cond_matrix st = Some m /\ matrix_shape m (S (length rows)).
Proof.
  intros Hrun Hl. pose proof (run_task_invariant t log) as Hinv.
  assert (Hst : run_invariant t st).
  { destruct Hrun as [E|E]; rewrite E in Hinv; exact Hinv. }
  destruct (inv_scene t st Hst Hl) as (objs & m & Ho & Hm & Hsc & Hsh).
  destruct Hsc as (rows & pl & -> & Hrows & Hpl).
  pose proof (inv_length t st Hst _ Ho) as Hlen.
  rewrite length_app in Hlen. simpl in Hlen.
  assert (Hc : objects_count st = S (length rows)) by lia.
  exists rows, pl, m. rewrite <- Hc.
  split; [exact Ho|]. split; [reflexivity|]. split; [exact Hrows|].
  split; [exact Hpl|]. split; [exact Hm | exact Hsh].
Qed.

Lemma event_successor_facts (st st' : Locals) :
  event_successor st st' ->
  state st' = state st /\ task st' = task st /\
  objects_count st' = objects_count st /\
  forall m m', cond_matrix st = Some m -> cond_matrix st' = Some m' ->
    forall a b, cell m a b = true -> cell m' a b = true.
Proof.
  intros [-> | (objs & objs' & m & m' & Ho & Hm & -> & _ & _ & Hmono)].
  - repeat split. intros m m' -> [= <-]. tauto.
  - simpl. repeat split. intros m0 m1. rewrite Hm. intros [= <-] [= <-].
    exact Hmono.
Qed.

(** The lines read in the state ['l']. *)
Lemma read_lines_events (t : UrsulaCheckerTask) (more : list string) :
  forall st, run_invariant t st -> state st = "l"%char ->
  match read_lines more st with
  | Continue st' | Break st' =>
      run_invariant t st' /\ state st' = "l"%char /\
      task st' = task st /\ objects_count st' = objects_count st /\
      forall m m', cond_matrix st = Some m -> cond_matrix st' = Some m' ->
        forall a b, cell m a b = true -> cell m' a b = true
  | Rewind _ => False
  | _ => True
  end.
Proof.
  induction more as [|buffer rest IH]; intros st Hinv Hl; simpl.
  { split; [exact Hinv|]. split; [exact Hl|]. split; [reflexivity|].
    split; [reflexivity|]. intros m m' -> [= <-]. tauto. }
  destruct (inv_scene t st Hinv Hl) as (objs & m & Hobjs & Hm & _ & Hshape).
  pose proof (event_step_successor st objs m buffer Hobjs Hm Hshape) as Hstep.
  unfold log_step. rewrite Hl. simpl.
  destruct (event_step st buffer) as [st1|st1|st1|st1|]; try exact I.
  - destruct (event_successor_invariant t st st1 Hinv Hl Hstep) as [Hinv1 Hl1].
    destruct (event_successor_facts st st1 Hstep) as (_ & Ht & Hc & Hmono).
    specialize (IH st1 Hinv1 Hl1).
    destruct (inv_scene t st1 Hinv1 Hl1) as (objs1 & m1 & _ & Hm1 & _).
    destruct (read_lines rest st1) as [st2|st2|st2|st2|]; try exact IH.
    + destruct IH as (Hinv2 & Hl2 & Ht2 & Hc2 & Hmono2).
      split; [exact Hinv2|]. split; [exact Hl2|]. split; [congruence|].
      split; [congruence|]. intros m0 m2 Hm0 Hm2 a b Hcell.
      apply (Hmono2 m1 m2 Hm1 Hm2). now apply (Hmono m0 m1 Hm0 Hm1).
    + destruct IH as (Hinv2 & Hl2 & Ht2 & Hc2 & Hmono2).
      split; [exact Hinv2|]. split; [exact Hl2|]. split; [congruence|].
      split; [congruence|]. intros m0 m2 Hm0 Hm2 a b Hcell.
      apply (Hmono2 m1 m2 Hm1 Hm2). now apply (Hmono m0 m1 Hm0 Hm1).
  - subst. split; [exact Hinv|]. split; [exact Hl|]. split; [reflexivity|].
    split; [reflexivity|]. intros m0 m' -> [= <-]. tauto.
  - exact Hstep.
Qed.

(** A run that reached the end of the file, and the same log with more
    lines. *)
Lemma run_task_continues (t : UrsulaCheckerTask) (log more : list string)
    (st : Locals) :
  run_task t log = Continue st ->
  run_invariant t st /\
  (state st = "l"%char -> run_task t (log ++ more) = read_lines more st).
Proof.
  intros Hrun. pose proof (run_task_invariant t log) as Hinv.
  rewrite Hrun in Hinv. simpl in Hinv. split; [exact Hinv|]. intros Hl.
  pose proof (read_lines_events t more st Hinv Hl) as Hev.
  unfold run_task, read_log in *. rewrite read_lines_app.
  destruct (read_lines log (initial_locals t)) as [s|s|s|s|] eqn:E;
    try discriminate.
  - injection Hrun as ->.
    destruct (read_lines more st); try reflexivity. destruct Hev.
  - rewrite read_lines_app, Hrun. reflexivity.
Qed.

(** X12.  A condition satisfied at the end of a log stays satisfied when
    lines are appended to the log: every bit of the result for [log] is a
    bit of the result for [log ++ more], for a task of at most
    [MAX_CONDITIONS] conditions and when both runs succeed. *)
Theorem satisfied_conditions_stay_satisfied (t : UrsulaCheckerTask)
    (log more : list string) (st st' : Locals) :
  length (conditions t) <= MAX_CONDITIONS ->
  run_task t log = Continue st ->
  run_task t (log ++ more) = Continue st' \/
  run_task t (log ++ more) = Break st' ->
  forall i, Z.testbit (final_result st) i = true ->
            Z.testbit (final_result st') i = true.
Proof.
  intros Hc Hrun Hmore i Hbit.
  destruct (run_task_continues t log more st Hrun) as [Hinv Happ].
  destruct (Ascii.eqb_spec (state st) "l") as [Hl|Hnl].
  2: { unfold final_result in Hbit.
       rewrite (inv_no_matrix t st Hinv Hnl) in Hbit. simpl in Hbit.
       rewrite Z.testbit_0_l in Hbit. discriminate. }
  pose proof (read_lines_events t more st Hinv Hl) as Hev.
  rewrite <- (Happ Hl) in Hev.
  destruct (inv_scene t st Hinv Hl) as (objs & m & _ & Hm & _).
  assert (Hfacts : run_invariant t st' /\ state st' = "l"%char /\
            task st' = task st /\ objects_count st' = objects_count st /\
            forall m m', cond_matrix st = Some m -> cond_matrix st' = Some m' ->
              forall a b, cell m a b = true -> cell m' a b = true).
  { destruct Hmore as [E|E]; rewrite E in Hev; exact Hev. }
  destruct Hfacts as (Hinv' & Hl' & Ht & Hcount & Hmono).
  destruct (inv_scene t st' Hinv' Hl') as (objs' & m' & _ & Hm' & _).
  assert (Hcs : length (conditions (task st)) <= MAX_CONDITIONS).
  { destruct (inv_task t st Hinv) as (_ & -> & _). exact Hc. }
  destruct (Z.neg_nonneg_cases i) as [Hneg|Hpos].
  { rewrite Z.testbit_neg_r in Hbit by exact Hneg. discriminate. }
  replace i with (Z.of_nat (Z.to_nat i)) in * by lia.
  unfold final_result in *. rewrite Ht, Hcount, Hm'. rewrite Hm in Hbit.
  apply result_byte_bits in Hbit; [|exact Hcs].
  destruct Hbit as (Hi & k & Hk & Hcell).
  apply result_byte_bits; [exact Hcs|]. split; [exact Hi|].
  exists k. split; [exact Hk|]. now apply (Hmono m m').
Qed.

Lemma run_task_stopped (t : UrsulaCheckerTask) (log more : list string) :
  stopped (run_task t log) -> run_task t (log ++ more) = run_task t log.
Proof.
  unfold run_task, read_log. rewrite read_lines_app.
  destruct (read_lines log (initial_locals t)) as [s|s|s|s|] eqn:E; simpl;
    try reflexivity; try tauto.
  rewrite read_lines_app.
  destruct (read_lines log s); simpl; try reflexivity; tauto.
Qed.

(** X13.  When the run of a log stops before the end of the file (on the
    end of the session, on an error, or on undefined behaviour), lines
    appended to the log are not read: the call gives the same checker and
    the same outcome. *)
Theorem lines_after_the_end_are_not_read (checker : UrsulaLogCheckerData)
    (task_name : string) (log more : list string) (k : nat)
    (t : UrsulaCheckerTask) :
  find_task (tasks checker) task_name 0 = Some (k, t) ->
  stopped (run_task t log) ->
  run_task t (log ++ more) = run_task t log /\
  cyberiada_ursula_log_checker_check_log checker task_name (log ++ more) =
  cyberiada_ursula_log_checker_check_log checker task_name log.
Proof.
  intros Hf Hs. pose proof (run_task_stopped t log more Hs) as E.
  split; [exact E|].
  unfold cyberiada_ursula_log_checker_check_log. now rewrite Hf, E.
Qed.

Lemma read_lines_before_start (log : list string) (st : Locals) :
  state st = "p"%char ->
  Forall (fun line => CStr.starts_with LOG_PLAYER_START_POSITION line = false)
         log ->
  read_lines log st = Continue st.
Proof.
  intros Hp. induction log as [|line rest IH]; intros Hall; simpl;
    [reflexivity|].
  apply Forall_cons in Hall as [Hline Hrest].
  unfold log_step. rewrite Hp. simpl. rewrite Hline. now apply IH.
Qed.

Lemma store_task_same (checker : UrsulaLogCheckerData) (k : nat)
    (t : UrsulaCheckerTask) :
  tasks checker !! k = Some t -> store_task checker k t = checker.
Proof.
  intros Hk. destruct checker as [s ts]. unfold store_task. simpl in *.
  f_equal. now apply list_insert_id.
Qed.

(** X14.  A file none of whose lines starts with [Player Start Position]
    is accepted: the call returns [URSULA_CHECK_NO_ERROR] and the result 0,
    and the checker is unchanged. *)
Theorem log_without_a_start_line_passes (checker : UrsulaLogCheckerData)
    (task_name : string) (log : list string) (k : nat)
    (t : UrsulaCheckerTask) :
  find_task (tasks checker) task_name 0 = Some (k, t) ->
  Forall (fun line => CStr.starts_with LOG_PLAYER_START_POSITION line = false)
         log ->
  cyberiada_ursula_log_checker_check_log checker task_name log =
    (checker, Returned URSULA_CHECK_NO_ERROR 0%Z).
Proof.
  intros Hf Hall. unfold cyberiada_ursula_log_checker_check_log.
  rewrite Hf. unfold run_task, read_log.
  rewrite read_lines_before_start by (reflexivity || assumption).
  destruct (find_task_spec _ _ _ _ _ Hf) as (_ & Hk & _).
  rewrite Nat.sub_0_r in Hk. simpl. now rewrite store_task_same.
Qed.

(** X15.  A task name that no task has gives [URSULA_CHECK_BAD_PARAMETERS]
    and leaves the checker unchanged.  Otherwise the first task with the
    name is checked: the outcome is the one of a checker that holds this
    task alone, and no other task of the checker changes. *)
Theorem the_first_task_of_a_name_is_checked
    (checker : UrsulaLogCheckerData) (task_name : string)
    (log : list string) :
  (Forall (fun t => name t <> task_name) (tasks checker) ->
   cyberiada_ursula_log_checker_check_log checker task_name log =
     (checker,
      Returned URSULA_CHECK_BAD_PARAMETERS URSULA_CHECK_RESULT_ERROR)) /\
  (forall pre t post,
     tasks checker = (pre ++ t :: post)%list ->
     Forall (fun t' => name t' <> task_name) pre -> name t = task_name ->
     let single := {| secret := secret checker; tasks := [t] |} in
     snd (cyberiada_ursula_log_checker_check_log checker task_name log) =
     snd (cyberiada_ursula_log_checker_check_log single task_name log) /\
     forall k, k <> length pre ->
       tasks (fst (cyberiada_ursula_log_checker_check_log checker task_name
                     log)) !! k = tasks checker !! k).
Proof.
  split.
  - intros Hall. unfold cyberiada_ursula_log_checker_check_log.
    now rewrite find_task_none.
  - intros pre t post Htasks Hpre Hn single.
    unfold cyberiada_ursula_log_checker_check_log.
    rewrite Htasks, (find_task_first pre post t task_name 0 Hpre Hn).
    simpl. rewrite Hn, String.eqb_refl.
    destruct (run_task t log) as [st|st|st|st|]; simpl;
      (split; [reflexivity|]); intros k Hk;
      try (rewrite Htasks; apply list_lookup_insert_ne; congruence);
      now rewrite Htasks.
Qed.

End Calls.

Section WonGame.
Context `{FloatOps}.

Lemma test_all_loop_app (n : nat) (objects : list Object)
    primary secondary argument_ won (pre post : list Condition) :
  forall (i : nat) (st : list (list bool) * nat),
  test_all_loop n objects primary secondary argument_ won (pre ++ post) i st =
  test_all_loop n objects primary secondary argument_ won post
    (i + length pre)
    (test_all_loop n objects primary secondary argument_ won pre i st).
Proof.
  induction pre as [|c pre IH]; intros i st; simpl.
  - now rewrite Nat.add_0_r.
  - rewrite IH. f_equal. lia.
Qed.

Lemma won_game_credits_last (task : UrsulaCheckerTask)
    (objs : list Object) (m : Matrix) (pre : list Condition)
    (win : Condition) (k : nat) :
  conditions task = (pre ++ [win])%list ->
  cond_type win = condGameWon -> second_cond win = None ->
  length (conditions task) <= MAX_CONDITIONS ->
  matrix_shape m (length objs) -> k < length objs ->
  cell (cyberiada_test_all_conditions task objs m None 0 None float_zero
          true) (length pre) k = true.
Proof.
  intros Hc Hw Hs Hlen Hm Hk. unfold cyberiada_test_all_conditions.
  rewrite Hc, test_all_loop_app. simpl.
  rewrite Hc, length_app in Hlen. simpl in Hlen.
  destruct (test_all_loop_shape (length (pre ++ [win])) objs None None
              float_zero true pre (length objs) 0 (m, 0) Hm) as [Hs1 _].
  destruct (test_all_loop _ objs None None float_zero true pre 0 (m, 0))
    as [m1 p1]. simpl in Hs1.
  unfold test_all_body. rewrite test_condition_unfold.
  unfold condition_found. rewrite Hw, Hs. simpl.
  destruct (credit_all_facts m1 (length (pre ++ [win])) (length pre)
              (length objs) (length objs) Hs1) as (_ & _ & _ & _ & Hcell);
    [lia | lia |].
  rewrite Hcell. apply orb_true_iff. right.
  apply andb_true_iff. split; [now apply Nat.ltb_lt|].
  unfold later_found. rewrite length_app. simpl.
  replace (length pre + 1 - S (length pre)) with 0 by lia. reflexivity.
Qed.

Lemma win_line_step (st : Locals) (objs : list Object) (m : Matrix)
    (time : string) :
  state st = "l"%char -> objects st = Some objs -> cond_matrix st = Some m ->
  CStr.strchr time TIME_FINISH_CHAR = None ->
  log_step st (String "[" (String.append time "] Game Over: Win")) =
  Continue (set_scene st objs
              (cyberiada_test_all_conditions (task st) objs m None 0 None
                 float_zero true)).
Proof.
  intros Hl Ho Hm Ht. unfold log_step. rewrite Hl. simpl.
  change "] Game Over: Win" with (String TIME_FINISH_CHAR " Game Over: Win").
  rewrite (strchr_app time " Game Over: Win" TIME_FINISH_CHAR Ht).
  unfold dispatch_event, with_scene. simpl. now rewrite Ho, Hm.
Qed.

(** X16.  When the last condition of a task is a won game without AND
    operand, a log that has reached its events, followed by the line
    [[time] Game Over: Win], succeeds with the bit of this condition
    set. *)
Theorem a_won_game_sets_the_last_condition (t : UrsulaCheckerTask)
    (log : list string) (st : Locals) (time : string)
    (pre : list Condition) (win : Condition) :
  conditions t = (pre ++ [win])%list ->
  cond_type win = condGameWon -> second_cond win = None ->
  length (conditions t) <= MAX_CONDITIONS ->
  run_task t log = Continue st -> state st = "l"%char ->
  CStr.strchr time TIME_FINISH_CHAR = None ->
  exists st',
    run_task t (log ++ [String "[" (String.append time "] Game Over: Win")])
      = Continue st' /\
    Z.testbit (final_result st') (Z.of_nat (length pre)) = true.
Proof.
  intros Hc Hw Hs Hlen Hrun Hl Ht.
  destruct (run_task_continues t log
              [String "[" (String.append time "] Game Over: Win")] st Hrun)
    as [Hinv Happ].
  destruct (inv_scene t st Hinv Hl) as (objs & m & Ho & Hm & Hsc & Hsh).
  pose proof (inv_length t st Hinv objs Ho) as Hcount.
  destruct (inv_task t st Hinv) as (_ & Hconds & _).
  rewrite (Happ Hl). simpl read_lines.
  rewrite (win_line_step st objs m time Hl Ho Hm Ht).
  eexists. split; [reflexivity|].
  unfold final_result. simpl. rewrite Hconds.
  apply result_byte_bits; [exact Hlen|].
  split; [rewrite Hc, length_app; simpl; lia|].
  assert (Hpos : 0 < length objs).
  { destruct Hsc as (rows & pl & -> & _). rewrite length_app. simpl. lia. }
  exists 0. split; [lia|].
  apply won_game_credits_last with win; try congruence; try lia.
Qed.

End WonGame.

Section Names.
Context `{FloatOps}.

Lemma find_first_iff (p : Object -> bool) (objs : list Object) :
  forall k0 k,
  find_first p objs k0 = Some k <->
  k0 <= k /\ (exists o, objs !! (k - k0) = Some o /\ p o = true) /\
  forall j o, j < k - k0 -> objs !! j = Some o -> p o = false.
Proof.
  induction objs as [|a objs IH]; intros k0 k; simpl.
  - split; [discriminate|]. intros (_ & (o & Ho & _) & _). discriminate.
  - destruct (p a) eqn:Ea.
    + split.
      * intros [= <-]. rewrite Nat.sub_diag. split; [lia|].
        split; [now exists a|]. intros j o Hj. lia.
      * intros (Hk & (o & Ho & Hp) & Hfirst).
        destruct (k - k0) as [|d] eqn:Ed; [f_equal; lia|].
        specialize (Hfirst 0 a ltac:(lia) eq_refl). congruence.
    + rewrite IH. split.
      * intros (Hk & (o & Ho & Hp) & Hfirst). split; [lia|].
        replace (k - k0) with (S (k - S k0)) by lia.
        split; [now exists o|]. intros [|j] o' Hj; simpl.
        -- now intros [= <-].
        -- apply Hfirst. lia.
      * intros (Hk & (o & Ho & Hp) & Hfirst).
        destruct (k - k0) as [|d] eqn:Ed.
        { simpl in Ho. injection Ho as <-. congruence. }
        split; [lia|]. replace (k - S k0) with d by lia.
        split; [now exists o|]. intros j o' Hj Ho'.
        apply (Hfirst (S j) o'); [lia | exact Ho'].
Qed.

Lemma find_last_acc (p : Object -> bool) (objs : list Object) :
  forall k0 acc,
  find_last p objs k0 acc =
  match find_last p objs k0 None with
  | Some k => Some k
  | None => acc
  end.
Proof.
  induction objs as [|a objs IH]; intros k0 acc; simpl; [reflexivity|].
  rewrite (IH (S k0) (if p a then Some k0 else acc)).
  rewrite (IH (S k0) (if p a then Some k0 else None)).
  destruct (find_last p objs (S k0) None); [reflexivity|].
  now destruct (p a).
Qed.

Lemma find_last_none (p : Object -> bool) (objs : list Object) :
  forall k0,
  find_last p objs k0 None = None <->
  forall j o, objs !! j = Some o -> p o = false.
Proof.
  induction objs as [|a objs IH]; intros k0; simpl.
  - split; [intros _ j o; discriminate | reflexivity].
  - rewrite find_last_acc.
    destruct (find_last p objs (S k0) None) as [k|] eqn:El.
    + split; [discriminate|]. intros Hall.
      assert (Hn : find_last p objs (S k0) None = None).
      { apply IH. intros j o Hj. now apply (Hall (S j) o). }
      congruence.
    + destruct (p a) eqn:Ea.
      * split; [discriminate|]. intros Hall.
        specialize (Hall 0 a eq_refl). congruence.
      * split; [|reflexivity]. intros _ [|j] o; simpl.
        -- now intros [= <-].
        -- apply (proj1 (IH (S k0)) El).
Qed.

Lemma find_last_iff (p : Object -> bool) (objs : list Object) :
  forall k0 k,
  find_last p objs k0 None = Some k <->
  k0 <= k /\ (exists o, objs !! (k - k0) = Some o /\ p o = true) /\
  forall j o, k - k0 < j -> objs !! j = Some o -> p o = false.
Proof.
  induction objs as [|a objs IH]; intros k0 k; simpl.
  - split; [discriminate|]. intros (_ & (o & Ho & _) & _). discriminate.
  - rewrite find_last_acc.
    destruct (find_last p objs (S k0) None) as [k1|] eqn:El.
    + split.
      * intros [= <-]. apply IH in El. destruct El as (Hk & (o & Ho & Hp) & Hl).
        split; [lia|]. replace (k1 - k0) with (S (k1 - S k0)) by lia.
        split; [now exists o|]. intros [|j] o' Hj; [lia|]. simpl.
        apply Hl. lia.
      * intros (Hk & (o & Ho & Hp) & Hl).
        apply IH in El. destruct El as (Hk1 & (o1 & Ho1 & Hp1) & Hl1).
        f_equal.
        destruct (Nat.lt_trichotomy k k1) as [Hlt|[Heq|Hgt]]; [|exact (eq_sym Heq)|].
        -- specialize (Hl (S (k1 - S k0)) o1 ltac:(lia) Ho1). congruence.
        -- assert (Hd : k - k0 = S (k - S k0)) by lia.
           rewrite Hd in Ho. simpl in Ho.
           specialize (Hl1 (k - S k0) o ltac:(lia) Ho). congruence.
    + pose proof (proj1 (find_last_none p objs (S k0)) El) as Hnone.
      destruct (p a) eqn:Ea.
      * split.
        -- intros [= <-]. rewrite Nat.sub_diag. split; [lia|].
           split; [now exists a|]. intros [|j] o Hj; [lia|]. simpl.
           apply Hnone.
        -- intros (Hk & (o & Ho & Hp) & _).
           destruct (k - k0) as [|d] eqn:Ed; [f_equal; lia|].
           simpl in Ho. specialize (Hnone d o Ho). congruence.
      * split; [discriminate|]. intros (Hk & (o & Ho & Hp) & _).
        destruct (k - k0) as [|d] eqn:Ed; simpl in Ho.
        -- injection Ho as <-. congruence.
        -- specialize (Hnone d o Ho). congruence.
Qed.

Lemma strcmp_eq0_sym (a b : option string) :
  strcmp_eq0 a b = strcmp_eq0 b a.
Proof.
  destruct a as [a|], b as [b|]; try reflexivity.
  destruct (strcmp_eq0 (Some a) (Some b)) eqn:E1,
           (strcmp_eq0 (Some b) (Some a)) eqn:E2; try reflexivity.
  - apply strcmp_eq0_iff in E1. subst.
    assert (strcmp_eq0 (Some b) (Some b) = true) by now apply strcmp_eq0_iff.
    congruence.
  - apply strcmp_eq0_iff in E2. subst.
    assert (strcmp_eq0 (Some a) (Some a) = true) by now apply strcmp_eq0_iff.
    congruence.
Qed.

Lemma strcmp_eq0_some (a : option string) (b : string) :
  strcmp_eq0 a (Some b) = true <-> a = Some b.
Proof.
  destruct a as [a|].
  - rewrite strcmp_eq0_iff. split; congruence.
  - split; discriminate.
Qed.

Lemma not_player_iff (o : Object) :
  negb (ObjectType_eqb (type o) otPlayer) = true <-> type o <> otPlayer.
Proof.
  rewrite negb_true_iff. destruct (type o); simpl; split; congruence.
Qed.

Lemma is_named_iff (tok : string) (o : Object) :
  CStr.starts_with LOG_PLAYER tok = false ->
  (is_named tok o = true <-> type o <> otPlayer /\ id o = Some tok).
Proof.
  intros Hp. unfold is_named.
  assert (Hne : strcmp_eq0 (Some LOG_PLAYER) (Some tok) = false).
  { destruct (strcmp_eq0 (Some LOG_PLAYER) (Some tok)) eqn:E; [|reflexivity].
    apply strcmp_eq0_iff in E. subst. discriminate. }
  rewrite Hne, andb_false_r. simpl.
  rewrite andb_true_iff, not_player_iff, strcmp_eq0_some. reflexivity.
Qed.

Lemma position_named_iff (tok : string) (o : Object) :
  negb (ObjectType_eqb (type o) otPlayer) && strcmp_eq0 (Some tok) (id o)
    = true <-> type o <> otPlayer /\ id o = Some tok.
Proof.
  rewrite andb_true_iff, not_player_iff, strcmp_eq0_sym, strcmp_eq0_some.
  reflexivity.
Qed.

Lemma bool_false_iff (b : bool) (P : Prop) :
  (b = true <-> P) -> (b = false <-> ~ P).
Proof. intros Hb. destruct b; split; intuition congruence. Qed.

(** X17.  For a name that does not start with [Player], a position entry
    addresses the first object that is not the player and has this id,
    whereas the attack, attacked and died events address the last one. *)
Theorem events_address_objects_by_id (tok : string) (objs : list Object) :
  CStr.starts_with LOG_PLAYER tok = false ->
  (forall k,
     position_object tok objs = Some k <->
     named_at tok objs k /\ forall j, j < k -> ~ named_at tok objs j) /\
  (forall k,
     find_last (is_named tok) objs 0 None = Some k <->
     named_at tok objs k /\ forall j, k < j -> ~ named_at tok objs j).
Proof.
  intros Hp. unfold position_object, named_at. rewrite Hp. split; intros k.
  - rewrite find_first_iff, Nat.sub_0_r. split.
    + intros (_ & (o & Ho & Hn) & Hfirst). apply position_named_iff in Hn.
      split; [now exists o|]. intros j Hj (o' & Ho' & Hn').
      apply position_named_iff in Hn'.
      specialize (Hfirst j o' Hj Ho'). congruence.
    + intros [(o & Ho & Hn) Hfirst]. split; [lia|].
      split; [exists o; split; [exact Ho | now apply position_named_iff]|].
      intros j o' Hj Ho'.
      apply (bool_false_iff _ _ (position_named_iff tok o')).
      intros Hn'. apply (Hfirst j Hj). now exists o'.
  - rewrite find_last_iff, Nat.sub_0_r. split.
    + intros (_ & (o & Ho & Hn) & Hlast). apply (is_named_iff tok o Hp) in Hn.
      split; [now exists o|]. intros j Hj (o' & Ho' & Hn').
      apply (is_named_iff tok o' Hp) in Hn'.
      specialize (Hlast j o' Hj Ho'). congruence.
    + intros [(o & Ho & Hn) Hlast]. split; [lia|].
      split; [exists o; split; [exact Ho | now apply (is_named_iff tok o Hp)]|].
      intros j o' Hj Ho'.
      apply (bool_false_iff _ _ (is_named_iff tok o' Hp)).
      intros Hn'. apply (Hlast j Hj). now exists o'.
Qed.

(** X18.  A position entry whose name starts with [Player] addresses the
    player, the last object of the scene, and reads the coordinates right
    after the name; an object whose id starts with [Player] is thus never
    addressed by a position entry. *)
Theorem player_prefix_names_the_player (tok s : string)
    (objs : list Object) :
  scene_objects objs -> CStr.starts_with LOG_PLAYER tok = true ->
  position_object tok objs = Some (length objs - 1) /\
  coordinates_text tok s = Some s /\
  forall k, named_at tok objs k -> position_object tok objs <> Some k.
Proof.
  intros (rows & pl & -> & Hrows & Hpl & _) Hp.
  unfold position_object, coordinates_text. rewrite Hp.
  assert (Hf : find_first (fun o => ObjectType_eqb (type o) otPlayer)
                 (rows ++ [pl])%list 0 = Some (length rows)).
  { apply find_first_iff. split; [lia|]. rewrite Nat.sub_0_r. split.
    - exists pl. rewrite lookup_app_r, Nat.sub_diag by lia.
      split; [reflexivity|]. now rewrite Hpl.
    - intros j o Hj Ho. rewrite lookup_app_l in Ho by exact Hj.
      rewrite List.Forall_forall in Hrows.
      assert (Hin : In o rows).
      { apply list_elem_of_In. now apply list_elem_of_lookup_2 with j. }
      destruct (Hrows o Hin) as (Ht & _).
      destruct (type o); simpl; congruence. }
  rewrite Hf, length_app. simpl.
  split; [f_equal; lia|]. split; [reflexivity|].
  intros k (o & Ho & Ht & _) [= <-].
  rewrite lookup_app_r, Nat.sub_diag in Ho by lia. simpl in Ho.
  injection Ho as <-. contradiction.
Qed.

End Names.

Section Counting.
Context `{FloatOps}.

Lemma count_requirement_counted (o : Object) (r r' : ObjectReq) :
  (0 <= found r < 256)%Z ->
  count_requirement o r = Some r' -> counted [o] r r'.
Proof.
  intros Hr. unfold count_requirement, counted, requirement_counts,
    strcmp_eq0. simpl.
  destruct (ObjectType_eqb (req_type r) (type o)); simpl.
  - destruct (CStr.strcmp (req_class r) (class o)) as [z|]; [|discriminate].
    intros [= <-]. destruct (Z.eqb z 0); simpl.
    + now repeat split.
    + rewrite Z.add_0_r, Z.mod_small by exact Hr. now repeat split.
  - intros [= <-]. rewrite Z.add_0_r, Z.mod_small by exact Hr.
    now repeat split.
Qed.

Lemma counted_range (objs : list Object) (r r' : ObjectReq) :
  counted objs r r' -> (0 <= found r' < 256)%Z.
Proof. intros (_ & _ & _ & _ & ->). apply Z.mod_pos_bound. lia. Qed.

Lemma counted_cons (o : Object) (objs : list Object) (r r1 r' : ObjectReq) :
  counted [o] r r1 -> counted objs r1 r' -> counted (o :: objs) r r'.
Proof.
  intros (Ht & Hc & Hmin & Hlim & Hf1) (Ht' & Hc' & Hmin' & Hlim' & Hf).
  split; [congruence|]. split; [congruence|]. split; [congruence|].
  split; [congruence|].
  assert (Hsame : forall x, requirement_counts r1 x = requirement_counts r x).
  { intros x. unfold requirement_counts. now rewrite Ht, Hc. }
  rewrite Hf, Hf1. rewrite (List.filter_ext _ _ Hsame). simpl.
  destruct (requirement_counts r o); simpl length.
  - rewrite Zplus_mod_idemp_l. f_equal. lia.
  - rewrite Z.add_0_r, Zplus_mod_idemp_l. reflexivity.
Qed.

Lemma count_requirements_counted (o : Object) (reqs : list ObjectReq) :
  forall reqs',
  Forall (fun r => (0 <= found r < 256)%Z) reqs ->
  count_requirements o reqs = Some reqs' ->
  Forall2 (counted [o]) reqs reqs'.
Proof.
  induction reqs as [|r reqs IH]; intros reqs' Hall; simpl.
  - intros [= <-]. constructor.
  - apply Forall_cons in Hall as [Hr Hrest].
    destruct (count_requirement o r) as [r1|] eqn:E1; [|discriminate].
    simpl. destruct (count_requirements o reqs) as [rest1|]; [|discriminate].
    simpl. intros [= <-]. constructor.
    + now apply count_requirement_counted.
    + now apply IH.
Qed.

(** X19.  The check of the scene adds to the counter [found] of each
    requirement the number of log objects of its type and class, modulo
    256, and changes nothing else in the requirement. *)
Theorem found_counts_modulo_256 (objs : list Object) :
  forall (bases bases' : list Object) (reqs reqs' : list ObjectReq),
  Forall (fun r => (0 <= found r < 256)%Z) reqs ->
  check_objects objs bases reqs = Some (bases', reqs') ->
  Forall2 (counted objs) reqs reqs'.
Proof.
  induction objs as [|o objs IH]; intros bases bases' reqs reqs' Hall; simpl.
  - intros [= <- <-]. clear bases. induction reqs as [|r reqs IHr];
      constructor.
    + apply Forall_cons in Hall as [Hr _].
      repeat (split; [reflexivity|]). simpl.
      now rewrite Z.add_0_r, Z.mod_small.
    + apply Forall_cons in Hall as [_ Hrest]. now apply IHr.
  - destruct (count_requirements o reqs) as [reqs1|] eqn:E1; [|discriminate].
    simpl. intros Hc.
    pose proof (count_requirements_counted o reqs reqs1 Hall E1) as H1.
    assert (Hall1 : Forall (fun r => (0 <= found r < 256)%Z) reqs1).
    { clear -H1.
      induction H1 as [|r0 r1 ? ? Hr01 _ IH1]; constructor; [|exact IH1].
      now apply counted_range with [o] r0. }
    pose proof (IH _ _ _ _ Hall1 Hc) as H2.
    clear -H1 H2. revert reqs' H2.
    induction H1 as [|r r1 reqs reqs1 Hr _ IHr]; intros reqs' H2.
    + inversion H2. constructor.
    + inversion H2 as [|? r' ? rest' Hr' Hrest']; subst.
      constructor; [now apply counted_cons with r1 | now apply IHr].
Qed.

End Counting.

(** ** The sizes of the arrays *)

Lemma count_line_facts (sizes sizes' : ArraySizes) (s : string) :
  count_line sizes s = Some sizes' ->
  (Z.of_nat (conditions_count sizes) <= last_n sizes)%Z ->
  base_objects_count sizes' =
    base_objects_count sizes + (if base_line s then 1 else 0) /\
  object_reqs_count sizes' =
    object_reqs_count sizes + (if req_line s then 1 else 0) /\
  (Z.of_nat (conditions_count sizes') <= last_n sizes')%Z.
Proof.
  unfold count_line, base_line, req_line. intros Hc Hn.
  destruct (skipped_line s); simpl in *.
  { injection Hc as <-. repeat split; try lia. }
  destruct (CStr.starts_with BASE_OBJ_STRING s); simpl in *.
  { injection Hc as <-. simpl. repeat split; try lia. }
  destruct (CStr.starts_with OBJ_REQ_STRING s); simpl in *.
  { injection Hc as <-. simpl. repeat split; try lia. }
  destruct (atoi s) as [n|]; [|discriminate]. simpl in Hc.
  injection Hc as <-.
  destruct (Z.ltb_spec (last_n sizes) n); simpl; repeat split; try lia.
Qed.

Lemma count_lines_facts (lines : list string) :
  forall sizes sizes',
  count_lines sizes lines = Some sizes' ->
  (Z.of_nat (conditions_count sizes) <= last_n sizes)%Z ->
  base_objects_count sizes' =
    base_objects_count sizes + length (List.filter base_line lines) /\
  object_reqs_count sizes' =
    object_reqs_count sizes + length (List.filter req_line lines) /\
  (Z.of_nat (conditions_count sizes') <= last_n sizes')%Z.
Proof.
  induction lines as [|s rest IH]; intros sizes sizes'; simpl.
  - intros [= <-] Hn. repeat split; try lia.
  - destruct (count_line sizes s) as [sizes1|] eqn:E1; [|discriminate].
    simpl. intros Hc Hn.
    destruct (count_line_facts sizes sizes1 s E1 Hn) as (Hb & Hr & Hn1).
    destruct (IH sizes1 sizes' Hc Hn1) as (Hb' & Hr' & Hn').
    rewrite Hb', Hr', Hb, Hr.
    destruct (base_line s), (req_line s); simpl; repeat split; try lia.
Qed.

(** X20.  When the first loop of [cyberiada_ursula_log_task_config] accepts
    a file, the base objects counted are the lines that start with [base]
    and the requirements those that start with [req], headers and blank
    lines apart; from 1 to [MAX_CONDITIONS] conditions are counted, and
    never more than the greatest condition number. *)
Theorem array_sizes_counts (lines : list string) (sizes : ArraySizes) :
  array_sizes lines = Some (Ok sizes) ->
  base_objects_count sizes = length (List.filter base_line lines) /\
  object_reqs_count sizes = length (List.filter req_line lines) /\
  1 <= conditions_count sizes <= MAX_CONDITIONS /\
  (Z.of_nat (conditions_count sizes) <= last_n sizes)%Z.
Proof.
  unfold array_sizes.
  destruct (count_lines (mkArraySizes 0 0 0 0%Z) lines) as [sizes1|] eqn:E;
    [|discriminate].
  simpl.
  destruct (Nat.eqb_spec (conditions_count sizes1) 0) as [|Hz];
    [discriminate|].
  destruct (Nat.ltb_spec MAX_CONDITIONS (conditions_count sizes1)) as [|Hle];
    [discriminate|].
  intros [= <-].
  destruct (count_lines_facts lines _ _ E) as (Hb & Hr & Hn); [simpl; lia|].
  simpl in Hb, Hr. repeat split; try assumption; lia.
Qed.

(** ** The code of a result *)

Section CodeProperties.
Variable sha256_hash : string -> list Z.

Lemma hex_digit_is_hex (k : Z) : is_hex (hex_digit k) = true.
Proof.
  unfold hex_digit.
  destruct k as [|p|p]; try reflexivity.
  do 4 (destruct p as [p|p|]; try reflexivity).
Qed.

Lemma hex_string_facts (hash : list Z) :
  String.length (hex_string hash) = 2 * length hash /\
  Forall (fun c => is_hex c = true)
         (list_ascii_of_string (hex_string hash)).
Proof.
  induction hash as [|b rest [IHl IHf]]; simpl.
  - split; [reflexivity | constructor].
  - split; [rewrite IHl; lia|].
    constructor; [apply hex_digit_is_hex|].
    constructor; [apply hex_digit_is_hex | exact IHf].
Qed.

(** X21.  For a secret that is not [NULL] and a text of at most
    [MAX_STR_LEN] characters, [generate_code] yields 64 lower-case
    hexadecimal digits, [sha256_hash] filling its 32 bytes. *)
Theorem generate_code_is_hexadecimal (secret_ task_name : string)
    (salt result_ : Z) :
  (forall text, length (sha256_hash text) = 32) ->
  String.length (code_message secret_ task_name salt result_)
    <= MAX_STR_LEN ->
  exists code,
    generate_code sha256_hash (Some secret_) task_name salt result_
      = Some code /\
    String.length code = 64 /\
    Forall (fun c => is_hex c = true) (list_ascii_of_string code).
Proof.
  intros Hhash Hlen. unfold generate_code.
  destruct (Nat.ltb_spec
              (String.length (code_message secret_ task_name salt result_))
              MAX_STR_LEN) as [Hlt|Hge].
  - eexists. split; [reflexivity|].
    destruct (hex_string_facts
                (sha256_hash (code_message secret_ task_name salt result_)))
      as [Hl Hf].
    split; [now rewrite Hl, Hhash | exact Hf].
  - assert (E : String.length (code_message secret_ task_name salt result_)
                = MAX_STR_LEN) by lia.
    rewrite E, Nat.eqb_refl.
    eexists. split; [reflexivity|].
    match goal with |- context [hex_string ?h] =>
      destruct (hex_string_facts h) as [Hl Hf] end.
    split; [now rewrite Hl, Hhash | exact Hf].
Qed.

Lemma append_assoc (a b c : string) :
  String.append (String.append a b) c = String.append a (String.append b c).
Proof. induction a as [|x a IH]; simpl; [reflexivity | now rewrite IH]. Qed.

(** X22.  The text that is hashed joins the secret and the task name with
    a colon and nothing else: the secret [a:b] with the task [c] has the
    code of the secret [a] with the task [b:c]. *)
Theorem code_does_not_separate_secret_and_name (a b c : string)
    (salt result_ : Z) :
  generate_code sha256_hash
    (Some (String.append a (String ":" b))) c salt result_ =
  generate_code sha256_hash
    (Some a) (String.append b (String ":" c)) salt result_.
Proof.
  unfold generate_code.
  assert (E : code_message (String.append a (String ":" b)) c salt result_ =
              code_message a (String.append b (String ":" c)) salt result_).
  { unfold code_message. rewrite append_assoc. simpl.
    now rewrite append_assoc. }
  now rewrite E.
Qed.

End CodeProperties.

Section Defined.
Context `{FloatOps}.


Lemma count_requirement_defined (o : Object) (r : ObjectReq) :
  type o = otPlayer \/ class o <> None ->
  req_type r <> otPlayer -> req_class r <> None ->
  exists r', count_requirement o r = Some r' /\ same_requirement r r'.
Proof.
  intros Ho Ht Hc. unfold count_requirement.
  destruct (ObjectType_eqb (req_type r) (type o)) eqn:E.
  - apply ObjectType_eqb_eq in E.
    destruct Ho as [Ho|Ho]; [congruence|].
    destruct (req_class r) as [c|]; [|contradiction].
    destruct (class o) as [d|]; [|contradiction]. simpl.
    eexists. split; [reflexivity|].
    destruct (Z.eqb _ 0); now repeat split.
  - exists r. split; [reflexivity | now repeat split].
Qed.

Lemma count_requirements_defined (o : Object) (reqs : list ObjectReq) :
  type o = otPlayer \/ class o <> None ->
  Forall (fun r => req_type r <> otPlayer /\ req_class r <> None) reqs ->
  exists reqs',
    count_requirements o reqs = Some reqs' /\
    Forall (fun r => req_type r <> otPlayer /\ req_class r <> None) reqs'.
Proof.
  intros Ho. induction reqs as [|r reqs IH]; intros Hall; simpl.
  - exists []. split; [reflexivity | constructor].
  - apply Forall_cons in Hall as [[Ht Hc] Hrest].
    destruct (count_requirement_defined o r Ho Ht Hc)
      as (r' & -> & Ht' & Hc' & _). simpl.
    destruct (IH Hrest) as (reqs' & -> & Hall'). simpl.
    eexists. split; [reflexivity|]. constructor; [|exact Hall'].
    rewrite Ht', Hc'. now split.
Qed.

Lemma check_objects_defined (objs : list Object) :
  forall (bases : list Object) (reqs : list ObjectReq),
  Forall (fun o => type o = otPlayer \/ class o <> None) objs ->
  Forall (fun r => req_type r <> otPlayer /\ req_class r <> None) reqs ->
  exists bases' reqs', check_objects objs bases reqs = Some (bases', reqs').
Proof.
  induction objs as [|o objs IH]; intros bases reqs Hobjs Hreqs; simpl.
  - now exists bases, reqs.
  - apply Forall_cons in Hobjs as [Ho Hrest].
    destruct (count_requirements_defined o reqs Ho Hreqs)
      as (reqs1 & -> & Hreqs1). simpl.
    now apply IH.
Qed.

(** X24.  When no requirement is on the player and every requirement has a
    class, the check of a scene calls [strcmp] on no [NULL] class: it is
    defined for every scene. *)
Theorem scene_check_is_defined (objs bases : list Object)
    (reqs : list ObjectReq) :
  scene_objects objs ->
  Forall (fun r => req_type r <> otPlayer /\ req_class r <> None) reqs ->
  exists bases' reqs', check_objects objs bases reqs = Some (bases', reqs').
Proof.
  intros (rows & pl & -> & Hrows & Hpl & _) Hreqs.
  apply check_objects_defined; [|exact Hreqs].
  apply Forall_app. split.
  - eapply Forall_impl; [exact Hrows|].
    intros o (_ & Hc & _). right. destruct (class o); [discriminate|].
    discriminate.
  - constructor; [now left | constructor].
Qed.

End Defined.

(** ** The properties on the sample inputs *)

Import Cases.

(** Coordinates between blanks and brackets. *)
Lemma parse_coordinates_ignores_brackets_witness :
  parse_coordinates
    (String.append " ("
       (String.append (String.append "1" (String COORD_DELIMITER "2.5"))
          ") "))
  = Ok (mkPoint (atof "1") (atof "2.5")).
Proof.
  apply (parse_coordinates_ignores_brackets " (" "1" "2.5" ") ");
    reflexivity.
Defined.

(** The zombie is the first object with a skeleton nearby. *)
Lemma pair_search_finds_least_index_witness :
  (true = true ->
   has_partner near_skeleton three_objects 1 /\
   forall k', k' < 1 -> ~ has_partner near_skeleton three_objects k') /\
  (true = false ->
   (forall k', ~ has_partner near_skeleton three_objects k') /\
   1 = match three_objects with
       | [] => 0
       | _ => length three_objects - 1
       end).
Proof.
  apply (pair_search_finds_least_index near_skeleton three_objects None None
           0 float_zero false true 1).
  - left. reflexivity.
  - reflexivity.
Defined.

(** An attack condition without an attack. *)
Lemma event_kinds_need_an_event_witness :
  cyberiada_test_condition (on_zombie 1 condAttacked 0) [zombie; player]
    None 0 None float_zero false = (false, 0).
Proof.
  apply (proj1 event_kinds_need_an_event (on_zombie 1 condAttacked 0)
           [zombie; player] 0 float_zero).
  reflexivity.
Defined.

(** The death of the skeleton and the death of the zombie give the same
    matrix. *)
Lemma search_condition_hides_event_index_witness :
  cyberiada_test_all_conditions task_near three_objects (zero_matrix 3)
    (Some skeleton) 0 None float_zero false =
  cyberiada_test_all_conditions task_near three_objects (zero_matrix 3)
    (Some skeleton) 1 None float_zero false.
Proof.
  apply (search_condition_hides_event_index task_near three_objects
           (zero_matrix 3) (Some skeleton) None 0 1 float_zero false
           near_skeleton [on_zombie 2 condDestroyed 0]).
  - reflexivity.
  - reflexivity.
  - discriminate.
Defined.

(** A won game on the matrix of [scene]. *)
Lemma test_all_conditions_keeps_shape_witness :
  matrix_shape
    (cyberiada_test_all_conditions task_win [zombie; player] (zero_matrix 2)
       None 0 None float_zero true) 2 /\
  (forall a b, cell (zero_matrix 2) a b = true ->
     cell (cyberiada_test_all_conditions task_win [zombie; player]
             (zero_matrix 2) None 0 None float_zero true) a b = true) /\
  forall a b, length (conditions task_win) <= a ->
    cell (cyberiada_test_all_conditions task_win [zombie; player]
            (zero_matrix 2) None 0 None float_zero true) a b =
    cell (zero_matrix 2) a b.
Proof.
  apply (test_all_conditions_keeps_shape task_win [zombie; player]
           (zero_matrix 2) None None 0 float_zero true 2).
  split; [reflexivity | repeat constructor].
Defined.

(** The result of the won game. *)
Lemma result_fits_seven_bits_witness :
  (0%Z = URSULA_CHECK_NO_ERROR /\ (0 <= 1 < 128)%Z) \/
  (0%Z = URSULA_CHECK_BAD_PARAMETERS /\ 1%Z = URSULA_CHECK_RESULT_ERROR).
Proof.
  apply (result_fits_seven_bits (checker_of task_win) "T" log_won 0%Z 1%Z).
  - constructor; [|constructor]. unfold MAX_CONDITIONS. simpl. lia.
  - reflexivity.
Defined.

(** The scene of one zombie when its events start. *)
Lemma events_see_a_well_formed_scene_witness :
  exists rows pl m,
    objects (reading_events task_win) = Some (rows ++ [pl])%list /\
    objects_count (reading_events task_win) = S (length rows) /\
    Forall row_object rows /\ player_object pl /\
    cond_matrix (reading_events task_win) = Some m /\
    matrix_shape m (S (length rows)).
Proof.
  apply (events_see_a_well_formed_scene task_win scene
           (reading_events task_win)).
  - left. reflexivity.
  - reflexivity.
Defined.

(** The won game, then the end of the session. *)
Lemma satisfied_conditions_stay_satisfied_witness :
  Z.testbit (final_result (game_won task_win)) 0 = true.
Proof.
  apply (satisfied_conditions_stay_satisfied task_win log_won
           ["[10] Session ended"] (game_won task_win) (game_won task_win)).
  - unfold MAX_CONDITIONS. simpl. lia.
  - reflexivity.
  - right. reflexivity.
  - reflexivity.
Defined.

(** Lines after an unknown event. *)
Lemma lines_after_the_end_are_not_read_witness :
  run_task task_win (log_unknown_event ++ ["[9] Game Over: Win"]) =
  run_task task_win log_unknown_event /\
  cyberiada_ursula_log_checker_check_log (checker_of task_win) "T"
    (log_unknown_event ++ ["[9] Game Over: Win"]) =
  cyberiada_ursula_log_checker_check_log (checker_of task_win) "T"
    log_unknown_event.
Proof.
  apply (lines_after_the_end_are_not_read (checker_of task_win) "T"
           log_unknown_event ["[9] Game Over: Win"] 0 task_win).
  - reflexivity.
  - exact I.
Defined.

(** A file that is not a log. *)
Lemma log_without_a_start_line_passes_witness :
  cyberiada_ursula_log_checker_check_log (checker_of task_one_zombie) "T"
    ["hello"; "[9] Game Over: Win"] =
  (checker_of task_one_zombie, Returned URSULA_CHECK_NO_ERROR 0%Z).
Proof.
  apply (log_without_a_start_line_passes (checker_of task_one_zombie) "T"
           ["hello"; "[9] Game Over: Win"] 0 task_one_zombie).
  - reflexivity.
  - repeat constructor.
Defined.

(** A task name that the checker does not know. *)
Lemma the_first_task_of_a_name_is_checked_witness :
  cyberiada_ursula_log_checker_check_log (checker_of task_win) "U" log_won =
  (checker_of task_win,
   Returned URSULA_CHECK_BAD_PARAMETERS URSULA_CHECK_RESULT_ERROR).
Proof.
  apply (proj1 (the_first_task_of_a_name_is_checked (checker_of task_win)
                  "U" log_won)).
  repeat constructor. discriminate.
Defined.

(** The won game after the scene. *)
Lemma a_won_game_sets_the_last_condition_witness :
  exists st',
    run_task task_win
      (scene ++ [String "[" (String.append "9" "] Game Over: Win")])
      = Continue st' /\
    Z.testbit (final_result st') (Z.of_nat (length (@nil Condition))) = true.
Proof.
  apply (a_won_game_sets_the_last_condition task_win scene
           (reading_events task_win) "9" [] (win 1)).
  - reflexivity.
  - reflexivity.
  - reflexivity.
  - unfold MAX_CONDITIONS. simpl. lia.
  - reflexivity.
  - reflexivity.
  - reflexivity.
Defined.

(** Two objects with the id [zombie_1]. *)
Lemma events_address_objects_by_id_witness :
  (forall k,
     position_object "zombie_1" [zombie; zombie_twin; player] = Some k <->
     named_at "zombie_1" [zombie; zombie_twin; player] k /\
     forall j, j < k ->
               ~ named_at "zombie_1" [zombie; zombie_twin; player] j) /\
  (forall k,
     find_last (is_named "zombie_1") [zombie; zombie_twin; player] 0 None
       = Some k <->
     named_at "zombie_1" [zombie; zombie_twin; player] k /\
     forall j, k < j ->
               ~ named_at "zombie_1" [zombie; zombie_twin; player] j).
Proof.
  apply (events_address_objects_by_id "zombie_1"
           [zombie; zombie_twin; player]).
  reflexivity.
Defined.

(** Its position entries move the first one, its death is the death of the
    second one. *)
Example duplicate_ids :
  position_object "zombie_1" [zombie; zombie_twin; player] = Some 0 /\
  find_last (is_named "zombie_1") [zombie; zombie_twin; player] 0 None
    = Some 1.
Proof. split; reflexivity. Qed.

(** An entry for [Player_2] in the scene of one zombie. *)
Lemma player_prefix_names_the_player_witness :
  position_object "Player_2" [zombie; player]
    = Some (length [zombie; player] - 1) /\
  coordinates_text "Player_2" "(1,2)" = Some "(1,2)" /\
  forall k, named_at "Player_2" [zombie; player] k ->
            position_object "Player_2" [zombie; player] <> Some k.
Proof.
  apply (player_prefix_names_the_player "Player_2" "(1,2)" [zombie; player]).
  - exists [zombie], player. split; [reflexivity|]. split.
    + constructor; [|constructor].
      split; [discriminate | split; reflexivity].
    + split; [reflexivity | split; reflexivity].
  - reflexivity.
Defined.

(** A counter at 255 and one more zombie. *)
Lemma found_counts_modulo_256_witness :
  Forall2 (counted [zombie; player]) [full_counter]
    [mkObjectReq otMob (Some "zombie") 1 1 0].
Proof.
  apply (found_counts_modulo_256 [zombie; player] [base_zombie]
           [set_valid base_zombie] [full_counter]
           [mkObjectReq otMob (Some "zombie") 1 1 0]).
  - constructor; [|constructor]. simpl. lia.
  - reflexivity.
Defined.

(** The sizes for [task_file]. *)
Lemma array_sizes_counts_witness :
  base_objects_count (mkArraySizes 1 1 2 3) =
    length (List.filter base_line task_file) /\
  object_reqs_count (mkArraySizes 1 1 2 3) =
    length (List.filter req_line task_file) /\
  1 <= conditions_count (mkArraySizes 1 1 2 3) <= MAX_CONDITIONS /\
  (Z.of_nat (conditions_count (mkArraySizes 1 1 2 3))
   <= last_n (mkArraySizes 1 1 2 3))%Z.
Proof.
  apply (array_sizes_counts task_file (mkArraySizes 1 1 2 3)).
  reflexivity.
Defined.

(** The code for a digest of zero bytes. *)
Lemma generate_code_is_hexadecimal_witness :
  exists code,
    generate_code zero_hash (Some "secret") "T" 7 1 = Some code /\
    String.length code = 64 /\
    Forall (fun c => is_hex c = true) (list_ascii_of_string code).
Proof.
  apply (generate_code_is_hexadecimal zero_hash "secret" "T" 7 1).
  - intros text. reflexivity.
  - apply Nat.leb_le. reflexivity.
Defined.

(** The check of the scene of one zombie. *)
Lemma scene_check_is_defined_witness :
  exists bases' reqs',
    check_objects [zombie; player] [base_zombie] [one_zombie]
      = Some (bases', reqs').
Proof.
  apply (scene_check_is_defined [zombie; player] [base_zombie] [one_zombie]).
  - exists [zombie], player. split; [reflexivity|]. split.
    + constructor; [|constructor].
      split; [discriminate | split; reflexivity].
    + split; [reflexivity | split; reflexivity].
  - repeat constructor; discriminate.
Defined.
